(** * Mashup: a shallow embedding of [mashup_core.py]

    The pipeline of [mashup_core.py] (validate, locate ffmpeg, search,
    download, trim, merge) is embedded as programs over an explicit set of
    external operations.  Python values are modelled as the code has them:
    [int] as [Z], [str] as [string] (code points below 256), a [dict] as a
    [gmap], [os.environ] as a [gmap string string], an exception as a value
    of [Exn], and a function that talks to the outside world as a tree of
    external calls ([Prog]) that [exec] runs against an arbitrary world. *)

From Stdlib Require Import ZArith List Ascii String Bool Lia.
From stdpp Require Import base option list strings gmap.

Import ListNotations.
Local Open Scope string_scope.
Local Open Scope Z_scope.

Set Default Proof Using "Type".

(** ** Python strings *)

Module PyStr.

(** [str.isspace] on one character (code points below 256). *)
Definition isspace (a : ascii) : bool :=
  let n := nat_of_ascii a in
  ((9 <=? n)%nat && (n <=? 13)%nat) || ((28 <=? n)%nat && (n <=? 32)%nat)
  || (n =? 133)%nat || (n =? 160)%nat.

Fixpoint lstrip (s : string) : string :=
  match s with
  | EmptyString => EmptyString
  | String a s' => if isspace a then lstrip s' else s
  end.

Fixpoint rstrip (s : string) : string :=
  match s with
  | EmptyString => EmptyString
  | String a s' =>
      match rstrip s' with
      | EmptyString => if isspace a then EmptyString else String a EmptyString
      | r => String a r
      end
  end.

(** [s.strip()] *)
Definition strip (s : string) : string := rstrip (lstrip s).

(** every character of [s] is whitespace (true of the empty string) *)
Fixpoint all_space (s : string) : bool :=
  match s with
  | EmptyString => true
  | String a s' => isspace a && all_space s'
  end.

(** some character of [s] is whitespace *)
Fixpoint has_space (s : string) : bool :=
  match s with
  | EmptyString => false
  | String a s' => isspace a || has_space s'
  end.

(** [c in s] for a one-character [c] *)
Fixpoint contains (c : ascii) (s : string) : bool :=
  match s with
  | EmptyString => false
  | String a s' => Ascii.eqb a c || contains c s'
  end.

(** number of occurrences of [c] in [s] *)
Fixpoint count (c : ascii) (s : string) : nat :=
  match s with
  | EmptyString => O
  | String a s' => ((if Ascii.eqb a c then 1 else 0) + count c s')%nat
  end.

Definition lower_char (a : ascii) : ascii :=
  let n := nat_of_ascii a in
  if ((65 <=? n)%nat && (n <=? 90)%nat)
     || ((192 <=? n)%nat && (n <=? 222)%nat && negb (n =? 215)%nat)
  then ascii_of_nat (n + 32) else a.

(** [s.lower()] *)
Fixpoint lower (s : string) : string :=
  match s with
  | EmptyString => EmptyString
  | String a s' => String (lower_char a) (lower s')
  end.

(** [s.startswith(c)] for a one-character [c] *)
Definition startswith (c : ascii) (s : string) : bool :=
  match s with
  | String a _ => Ascii.eqb a c
  | EmptyString => false
  end.

(** [s.rfind(c)]: index of the last occurrence, [None] for Python's -1 *)
Fixpoint rfind (c : ascii) (s : string) : option nat :=
  match s with
  | EmptyString => None
  | String a s' =>
      match rfind c s' with
      | Some i => Some (S i)
      | None => if Ascii.eqb a c then Some O else None
      end
  end.

(** [s[:i]] and [s[i:]] *)
Fixpoint take (i : nat) (s : string) : string :=
  match i, s with
  | S i', String a s' => String a (take i' s')
  | _, _ => EmptyString
  end.

Fixpoint drop (i : nat) (s : string) : string :=
  match i, s with
  | S i', String _ s' => drop i' s'
  | _, _ => s
  end.

(** [sep.join(l)] *)
Fixpoint join (sep : string) (l : list string) : string :=
  match l with
  | [] => ""
  | [x] => x
  | x :: l' => x ++ sep ++ join sep l'
  end.

(** [s.split(c)] for a one-character separator *)
Fixpoint split (c : ascii) (s : string) : list string :=
  match s with
  | EmptyString => [EmptyString]
  | String a s' =>
      if Ascii.eqb a c then EmptyString :: split c s'
      else match split c s' with
           | x :: l => String a x :: l
           | [] => [String a EmptyString]
           end
  end.

(** [s.replace(c, by)] for a one-character [c] *)
Fixpoint replace (c : ascii) (by_ : string) (s : string) : string :=
  match s with
  | EmptyString => EmptyString
  | String a s' =>
      if Ascii.eqb a c then by_ ++ replace c by_ s' else String a (replace c by_ s')
  end.

(** [str(z)] for an [int] *)
Fixpoint digits_of (fuel : nat) (n : N) (acc : string) : string :=
  match fuel with
  | O => acc
  | S fuel' =>
      let d := ascii_of_N (48 + N.modulo n 10) in
      let q := N.div n 10 in
      if N.eqb q 0 then String d acc else digits_of fuel' q (String d acc)
  end.

Definition str_of_N (n : N) : string := digits_of (S (N.to_nat (N.log2 n))) n "".

Definition str_of_Z (z : Z) : string :=
  match z with
  | Z0 => "0"
  | Zpos p => str_of_N (Npos p)
  | Zneg p => "-" ++ str_of_N (Npos p)
  end.

(** [int(s)]: optional surrounding whitespace, an optional sign, decimal
    digits with single underscores allowed between digits. *)

(** The characters [int] skips around the number.  For a [str] CPython
    first replaces the non-ASCII Unicode spaces (here 0x85 and 0xa0) by a
    blank and then skips the whitespace of the C locale, 9 to 13 and 32:
    unlike [str.strip] it does not skip the separators 0x1c to 0x1f. *)
Definition int_space (a : ascii) : bool :=
  let n := nat_of_ascii a in
  ((9 <=? n)%nat && (n <=? 13)%nat) || (n =? 32)%nat || (n =? 133)%nat || (n =? 160)%nat.

Fixpoint int_lstrip (s : string) : string :=
  match s with
  | EmptyString => EmptyString
  | String a s' => if int_space a then int_lstrip s' else s
  end.

Fixpoint int_rstrip (s : string) : string :=
  match s with
  | EmptyString => EmptyString
  | String a s' =>
      match int_rstrip s' with
      | EmptyString => if int_space a then EmptyString else String a EmptyString
      | r => String a r
      end
  end.

Definition digit_val (a : ascii) : option Z :=
  let n := nat_of_ascii a in
  if ((48 <=? n)%nat && (n <=? 57)%nat) then Some (Z.of_nat n - 48) else None.

(** [prev_digit]: the previous character was a digit (an underscore may
    follow); [acc]: value so far. *)
Fixpoint parse_digits (s : string) (prev_digit : bool) (acc : Z) : option Z :=
  match s with
  | EmptyString => if prev_digit then Some acc else None
  | String a s' =>
      match digit_val a with
      | Some d => parse_digits s' true (10 * acc + d)
      | None =>
          if Ascii.eqb a "_" && prev_digit then
            match s' with
            | EmptyString => None
            | String b _ =>
                match digit_val b with
                | Some _ => parse_digits s' false acc
                | None => None
                end
            end
          else None
      end
  end.

(** The number of digits of a numeral, underscores apart. *)
Fixpoint count_digits (s : string) : nat :=
  match s with
  | EmptyString => O
  | String a s' =>
      ((match digit_val a with Some _ => 1 | None => 0 end) + count_digits s')%nat
  end.

(** [sys.int_info.default_max_str_digits]: [int] refuses a numeral with
    more digits. *)
Definition max_str_digits : nat := 4300.

(** What [int(s)] does with a string: its value, or one of the two
    [ValueError]s. *)
Inductive IntOfStr : Type :=
| IntValue (z : Z)
| InvalidLiteral
| ExceedsLimit (digits : nat).

Definition int_parse (s : string) : IntOfStr :=
  let trimmed := int_rstrip (int_lstrip s) in
  let '(negative, numeral) :=
    match trimmed with
    | String "-" s' => (true, s')
    | String "+" s' => (false, s')
    | s' => (false, s')
    end in
  match parse_digits numeral false 0 with
  | Some z =>
      if (max_str_digits <? count_digits numeral)%nat
      then ExceedsLimit (count_digits numeral)
      else IntValue (if negative : bool then Z.opp z else z)
  | None => InvalidLiteral
  end.

Definition int_of_str (s : string) : option Z :=
  match int_parse s with
  | IntValue z => Some z
  | _ => None
  end.

End PyStr.

(** ** Exceptions and results *)

(** The subclasses of [OSError] the code tells apart. *)
Inductive OSErr : Type :=
| EPermission      (** [PermissionError] *)
| ENotFound        (** [FileNotFoundError] *)
| EOther.          (** any other [OSError] *)

(** Python exceptions (all of them instances of [Exception]). *)
Inductive Exn : Type :=
| MashupError (msg : string)
| ValueError (msg : string)
| TypeError (msg : string)
| OSError (k : OSErr)
| CalledProcessError (returncode : Z)
| DownloadError (msg : string)
| NotImplementedError (msg : string).

Inductive Result (A : Type) : Type :=
| Ok (a : A)
| Err (e : Exn).
Arguments Ok {A} a.
Arguments Err {A} e.

Definition is_OSError (e : Exn) : bool :=
  match e with OSError _ => true | _ => false end.

Definition is_PermissionError (e : Exn) : bool :=
  match e with OSError EPermission => true | _ => false end.

Definition is_ValueError (e : Exn) : bool :=
  match e with ValueError _ => true | _ => false end.

Definition is_MashupError (e : Exn) : bool :=
  match e with MashupError _ => true | _ => false end.

(** ** Paths ([pathlib.PurePosixPath]) *)

(** A path is its root and its components, as [PurePosixPath.root] and
    the components after it have them: the root is [""], ["/"] or ["//"],
    and ["."] and empty components are dropped when a string is parsed. *)
Record Path : Type := mkPath { root : string; parts : list string }.

Module PyPath.

Definition keep_part (s : string) : bool :=
  negb (String.eqb s "") && negb (String.eqb s ".").

(** [posixpath.splitroot]: exactly two leading slashes are kept as the
    root, one slash or three and more give the root ["/"]. *)
Definition root_of (s : string) : string :=
  if negb (PyStr.startswith "/" s) then ""
  else if negb (PyStr.startswith "/" (PyStr.drop 1 s))
          || PyStr.startswith "/" (PyStr.drop 2 s)
  then "/"
  else "//".

(** [Path(s)] *)
Definition of_str (s : string) : Path :=
  {| root := root_of s;
     parts := List.filter keep_part (PyStr.split "/" s) |}.

(** [str(p)], also [p.as_posix()] *)
Definition str (p : Path) : string :=
  if String.eqb (root p) "" then
    match parts p with
    | [] => "."
    | l => PyStr.join "/" l
    end
  else root p ++ PyStr.join "/" (parts p).

(** [p / s] *)
Definition joinpath (p : Path) (s : string) : Path :=
  let q := of_str s in
  if String.eqb (root q) "" then {| root := root p; parts := parts p ++ parts q |}
  else q.

(** [p.parent] *)
Definition parent (p : Path) : Path :=
  {| root := root p; parts := removelast (parts p) |}.

(** [p.name]: the final component, empty when there is none *)
Definition name (p : Path) : string := List.last (parts p) "".

(** The index that splits a name into stem and suffix: the last dot,
    when it is neither the first nor the last character. *)
Definition suffix_index (nm : string) : option nat :=
  match PyStr.rfind "." nm with
  | Some i =>
      if ((0 <? i)%nat && (i <? String.length nm - 1)%nat) then Some i else None
  | None => None
  end.

Definition suffix_of_name (nm : string) : string :=
  match suffix_index nm with
  | Some i => PyStr.drop i nm
  | None => ""
  end.

Definition stem_of_name (nm : string) : string :=
  match suffix_index nm with
  | Some i => PyStr.take i nm
  | None => nm
  end.

(** [p.suffix] and [p.stem] *)
Definition suffix (p : Path) : string := suffix_of_name (name p).
Definition stem (p : Path) : string := stem_of_name (name p).

(** [repr(p)] *)
Definition repr (p : Path) : string := "PosixPath('" ++ str p ++ "')".

(** [p.with_suffix(suffix)] *)
Definition with_suffix (p : Path) (sfx : string) : Result Path :=
  if PyStr.contains "/" sfx then Err (ValueError ("Invalid suffix '" ++ sfx ++ "'"))
  else if (negb (String.eqb sfx "") && negb (PyStr.startswith "." sfx))
          || String.eqb sfx "."
  then Err (ValueError ("Invalid suffix '" ++ sfx ++ "'"))
  else if String.eqb (name p) "" then Err (ValueError (repr p ++ " has an empty name"))
  else Ok {| root := root p;
             parts := removelast (parts p) ++ [stem_of_name (name p) ++ sfx] |}.

End PyPath.

Notation "p // s" := (PyPath.joinpath p s) (at level 40, left associativity).

(** ** The outside world *)

(** The options dictionary handed to [yt_dlp.YoutubeDL] for one download. *)
Record DownloadOpts : Type := mkDownloadOpts {
  opt_format : string;
  opt_quiet : bool;
  opt_no_warnings : bool;
  opt_ignoreerrors : bool;
  opt_noplaylist : bool;
  opt_outtmpl : string;
  opt_retries : Z;
  opt_ffmpeg_location : string;
  opt_preferredcodec : string;
  opt_preferredquality : string;
  opt_keepvideo : bool
}.

(** The options of the search query. *)
Record SearchOpts : Type := mkSearchOpts {
  sopt_quiet : bool;
  sopt_no_warnings : bool;
  sopt_skip_download : bool;
  sopt_default_search : string
}.

(** What [extract_info] returns: the ["entries"] key may be absent or
    [None], and an entry may be [None]. *)
Record SearchResult : Type := mkSearchResult {
  entries : option (list (option (gmap string string)))
}.

(** External operations, indexed by what they answer.  An answer
    [inl e] is the exception the call raises.  Durations are in
    milliseconds. *)
Inductive Event : Type -> Type :=
| get_ffmpeg_exe : Event (Exn + string)
| extract_info (opts : SearchOpts) (query : string) : Event (Exn + SearchResult)
| ydl_download (opts : DownloadOpts) (url : string) : Event (Exn + unit)
| mkdir (p : Path) : Event (OSErr + unit)
| glob (dir : Path) (pattern : string) : Event (Exn + list Path)
| path_exists (p : Path) : Event bool
| stat_size (p : Path) : Event (OSErr + Z)
| open_rb (p : Path) : Event (OSErr + unit)
| resolve (p : Path) : Event (OSErr + Path)
| subprocess_run (cmd : list string) : Event (Exn + unit)
| named_temporary_file (dir : Path) (sfx : string) : Event (OSErr + Path)
| file_write (f : Path) (data : string) : Event (OSErr + unit)
| file_close (f : Path) : Event (OSErr + unit)
| unlink (p : Path) : Event (OSErr + unit)
| mkdtemp (prefix : string) : Event (OSErr + Path)
| rmtree (p : Path) : Event (OSErr + unit)
| sleep (ms : Z) : Event unit
| log_warning (fmt subject : string) (exc : Exn) : Event unit
| log_debug (fmt arg : string) : Event unit.

(** Programs: a tree of external calls and of accesses to [os.environ]
    that ends by returning or by raising. *)
Inductive Prog (A : Type) : Type :=
| Ret (a : A)
| Throw (e : Exn)
| Ext {X : Type} (ev : Event X) (k : X -> Prog A)
| EnvironSetdefault (key value : string) (k : Prog A)
| EnvironGet (key dflt : string) (k : string -> Prog A)
| EnvironSet (key value : string) (k : Prog A).
Arguments Ret {A} a.
Arguments Throw {A} e.
Arguments Ext {A X} ev k.
Arguments EnvironSetdefault {A} key value k.
Arguments EnvironGet {A} key dflt k.
Arguments EnvironSet {A} key value k.

Fixpoint bind {A B : Type} (p : Prog A) (f : A -> Prog B) : Prog B :=
  match p with
  | Ret a => f a
  | Throw e => Throw e
  | Ext ev k => Ext ev (fun x => bind (k x) f)
  | EnvironSetdefault key v k => EnvironSetdefault key v (bind k f)
  | EnvironGet key d k => EnvironGet key d (fun x => bind (k x) f)
  | EnvironSet key v k => EnvironSet key v (bind k f)
  end.

Declare Scope prog_scope.
Delimit Scope prog_scope with prog.
Notation "x <- p ;; q" := (bind p (fun x => q))
  (at level 100, p at next level, right associativity) : prog_scope.
Notation "p ;; q" := (bind p (fun _ => q))
  (at level 100, right associativity) : prog_scope.
Local Open Scope prog_scope.

(** [try: p  except <classes> as exc: handler exc] *)
Fixpoint try_except {A : Type} (p : Prog A) (catches : Exn -> bool)
  (handler : Exn -> Prog A) : Prog A :=
  match p with
  | Ret a => Ret a
  | Throw e => if catches e then handler e else Throw e
  | Ext ev k => Ext ev (fun x => try_except (k x) catches handler)
  | EnvironSetdefault key v k => EnvironSetdefault key v (try_except k catches handler)
  | EnvironGet key d k => EnvironGet key d (fun x => try_except (k x) catches handler)
  | EnvironSet key v k => EnvironSet key v (try_except k catches handler)
  end.

(** [try: p  finally: cleanup]; an exception of [cleanup] replaces the
    outcome of [p]. *)
Fixpoint try_finally {A : Type} (p : Prog A) (cleanup : Prog unit) : Prog A :=
  match p with
  | Ret a => cleanup ;; Ret a
  | Throw e => cleanup ;; Throw e
  | Ext ev k => Ext ev (fun x => try_finally (k x) cleanup)
  | EnvironSetdefault key v k => EnvironSetdefault key v (try_finally k cleanup)
  | EnvironGet key d k => EnvironGet key d (fun x => try_finally (k x) cleanup)
  | EnvironSet key v k => EnvironSet key v (try_finally k cleanup)
  end.

Definition any_exception (_ : Exn) : bool := true.

(** A call whose answer is its value or the exception it raises. *)
Definition call {X : Type} (ev : Event (Exn + X)) : Prog X :=
  Ext ev (fun r => match r with inl e => Throw e | inr x => Ret x end).

Definition call_os {X : Type} (ev : Event (OSErr + X)) : Prog X :=
  Ext ev (fun r => match r with inl k => Throw (OSError k) | inr x => Ret x end).

(** A call that does not raise. *)
Definition ask {X : Type} (ev : Event X) : Prog X := Ext ev Ret.

Definition lift {A : Type} (r : Result A) : Prog A :=
  match r with Ok a => Ret a | Err e => Throw e end.

(** ** The functions of [mashup_core.py] *)

(** A raw argument of [create_mashup] before coercion. *)
Inductive PyVal : Type :=
| PyInt (z : Z)
| PyString (s : string)
| PyNone.

(** [int(value)].  The messages are CPython's, with [repr] written out for
    a short string without quotes or escapes; [_coerce_positive_int]
    replaces them by its own. *)
Definition py_int (value : PyVal) : Result Z :=
  match value with
  | PyInt z => Ok z
  | PyString s =>
      match PyStr.int_parse s with
      | PyStr.IntValue z => Ok z
      | PyStr.InvalidLiteral =>
          Err (ValueError ("invalid literal for int() with base 10: '" ++ s ++ "'"))
      | PyStr.ExceedsLimit digits =>
          Err (ValueError ("Exceeds the limit (4300 digits) for integer string conversion: "
                           ++ "value has " ++ PyStr.str_of_Z (Z.of_nat digits) ++ " digits; "
                           ++ "use sys.set_int_max_str_digits() to increase the limit"))
      end
  | PyNone =>
      Err (TypeError ("int() argument must be a string, a bytes-like object or a real "
                      ++ "number, not 'NoneType'"))
  end.

Definition _coerce_positive_int (value : PyVal) (name : string) : Prog Z :=
  as_int <- try_except (lift (py_int value))
              (fun e => match e with TypeError _ | ValueError _ => true | _ => false end)
              (fun _ => Throw (ValueError (name ++ " must be an integer."))) ;;
  if as_int <=? 0 then Throw (ValueError (name ++ " must be greater than 0."))
  else Ret as_int.

Definition validate_inputs (singer : string) (n_videos clip_seconds : Z) : Prog unit :=
  if String.eqb singer "" || String.eqb (PyStr.strip singer) "" then
    Throw (ValueError "Singer name cannot be empty.")
  else if n_videos <=? 10 then
    Throw (ValueError "Number of videos must be greater than 10.")
  else if clip_seconds <=? 20 then
    Throw (ValueError "Audio duration must be greater than 20 seconds.")
  else Ret tt.

(** [os.pathsep] *)
Definition pathsep : string := ":".

Definition setup_audio_backend : Prog unit :=
  try_except
    (ffmpeg_path <- call get_ffmpeg_exe ;;
     EnvironSetdefault "FFMPEG_BINARY" ffmpeg_path
    (EnvironSetdefault "FFPROBE_BINARY" ffmpeg_path
    (EnvironSetdefault "IMAGEIO_FFMPEG_EXE" ffmpeg_path
    (EnvironSetdefault "FFMPEG_LOCATION" ffmpeg_path
    (EnvironGet "PATH" "" (fun old_path =>
     EnvironSet "PATH"
       (PyPath.str (PyPath.parent (PyPath.of_str ffmpeg_path)) ++ pathsep ++ old_path)
    (ask (log_debug "Using ffmpeg binary at %s" ffmpeg_path))))))))
    any_exception
    (fun _ => Throw (MashupError "Unable to locate or download ffmpeg.")).

(** A dictionary is true when it is not empty; [None] is false. *)
Definition truthy_entry (e : option (gmap string string)) : option (gmap string string) :=
  match e with
  | Some d => if decide (d = ∅) then None else Some d
  | None => None
  end.

(** A string is true when it is not empty; [None] is false. *)
Definition truthy_str (s : option string) : option string :=
  match s with
  | Some x => if String.eqb x "" then None else Some x
  | None => None
  end.

Definition _search_candidates (singer : string) (n_videos : Z)
  : Prog (list (gmap string string)) :=
  let search_query :=
    "ytsearch" ++ PyStr.str_of_Z (Z.max (n_videos * 2) 20) ++ ":" ++ singer ++ " songs" in
  let opts := {| sopt_quiet := true; sopt_no_warnings := true;
                 sopt_skip_download := true; sopt_default_search := "auto" |} in
  search_result <- call (extract_info opts search_query) ;;
  let entries := default [] (entries search_result) in
  Ret (omap truthy_entry entries).

(** The polling loop of [_wait_for_stable]; [attempts] iterations are left
    and [last_size] is the size seen at the previous poll that found the
    file. *)
Fixpoint wait_for_stable_loop (path : Path) (attempts : nat) (delay : Z)
  (last_size : Z) : Prog unit :=
  match attempts with
  | O => Throw (MashupError ("File did not stabilize: " ++ PyPath.str path))
  | S attempts' =>
      found <- ask (path_exists path) ;;
      if negb found then
        ask (sleep delay) ;; wait_for_stable_loop path attempts' delay last_size
      else
        size <- call_os (stat_size path) ;;
        if (size =? last_size) && (size >? 0) then Ret tt
        else ask (sleep delay) ;; wait_for_stable_loop path attempts' delay size
  end.

Definition _wait_for_stable (path : Path) (attempts : nat) (delay : Z) : Prog unit :=
  wait_for_stable_loop path attempts delay (-1).

(** The default arguments of [_wait_for_stable]: 20 attempts, 0.5 s. *)
Definition stable_attempts : nat := 20.
Definition stable_delay : Z := 500.

Definition download_opts (outtmpl ffmpeg_path : string) : DownloadOpts :=
  {| opt_format := "bestaudio/best"; opt_quiet := true; opt_no_warnings := true;
     opt_ignoreerrors := true; opt_noplaylist := true; opt_outtmpl := outtmpl;
     opt_retries := 3; opt_ffmpeg_location := ffmpeg_path;
     opt_preferredcodec := "mp3"; opt_preferredquality := "192";
     opt_keepvideo := false |}.

(** Lines 148-153: wait for the matched file and append it, or log and go
    on with [downloaded] as it was. *)
Definition accept_when_stable (target : Path) (downloaded : list Path)
  : Prog (list Path) :=
  try_except
    (_wait_for_stable target stable_attempts stable_delay ;;
     Ret (downloaded ++ [target])%list)
    any_exception
    (fun exc =>
       ask (log_warning "Skipping locked/unready file %s: %s" (PyPath.str target) exc) ;;
       Ret downloaded).

(** One iteration of the download loop after its [break] test; it returns
    the list [downloaded] as the iteration leaves it.  The two [glob]s of
    lines 143-145 stand outside both [try] blocks: what they raise leaves
    the loop. *)
Definition download_entry (workdir : Path) (ffmpeg_path : string)
  (entry : gmap string string) (downloaded : list Path) : Prog (list Path) :=
  match truthy_str (entry !! "webpage_url"), truthy_str (entry !! "id") with
  | Some url, Some video_id =>
      let outtmpl := PyPath.str (workdir // (video_id ++ ".%(ext)s")) in
      let opts := download_opts outtmpl ffmpeg_path in
      fetched <- try_except
                   (call (ydl_download opts url) ;; Ret true)
                   any_exception
                   (fun exc => ask (log_warning "Failed to download %s: %s" url exc) ;;
                               Ret false) ;;
      if fetched : bool then
        matched <- call (glob workdir (video_id ++ ".mp3")) ;;
        matched <- match matched with
                   | [] => call (glob workdir (video_id ++ ".*"))
                   | _ => Ret matched
                   end ;;
        match matched with
        | target :: _ => accept_when_stable target downloaded
        | [] => Ret downloaded
        end
      else Ret downloaded
  | _, _ => Ret downloaded
  end.

Fixpoint download_loop (n_videos : Z) (workdir : Path) (ffmpeg_path : string)
  (candidates : list (gmap string string)) (downloaded : list Path)
  : Prog (list Path) :=
  match candidates with
  | [] => Ret downloaded
  | entry :: rest =>
      if Z.of_nat (length downloaded) >=? n_videos then Ret downloaded
      else
        downloaded' <- download_entry workdir ffmpeg_path entry downloaded ;;
        download_loop n_videos workdir ffmpeg_path rest downloaded'
  end.

Definition downloaded_only_message (got : nat) (n_videos : Z) : string :=
  "Downloaded only " ++ PyStr.str_of_Z (Z.of_nat got) ++ " of "
  ++ PyStr.str_of_Z n_videos ++ " requested videos. "
  ++ "Try again with a smaller number or a different singer.".

(** Lines 103-160: the loop over the candidates and the final count. *)
Definition download_candidates (n_videos : Z) (workdir : Path)
  (candidates : list (gmap string string)) : Prog (list Path) :=
  ffmpeg_path <- call get_ffmpeg_exe ;;
  downloaded <- download_loop n_videos workdir ffmpeg_path candidates [] ;;
  if Z.of_nat (length downloaded) <? n_videos then
    Throw (MashupError (downloaded_only_message (length downloaded) n_videos))
  else Ret downloaded.

(** Lines 85-86: create the directory and search. *)
Definition download_prelude (singer : string) (n_videos : Z) (workdir : Path)
  : Prog (list (gmap string string)) :=
  call_os (mkdir workdir) ;;
  _search_candidates singer n_videos.

Definition download_audio_from_search (singer : string) (n_videos : Z) (workdir : Path)
  : Prog (list Path) :=
  candidates <- download_prelude singer n_videos workdir ;;
  match candidates with
  | [] => Throw (MashupError "No videos found for the provided singer name.")
  | _ => download_candidates n_videos workdir candidates
  end.

(** The polling loop of [_wait_for_unlock]. *)
Fixpoint wait_for_unlock_loop (file_path : Path) (attempts : nat) (delay : Z)
  : Prog unit :=
  match attempts with
  | O => Throw (OSError EPermission)
  | S attempts' =>
      opened <- try_except
                  (call_os (open_rb file_path) ;; Ret true)
                  is_PermissionError
                  (fun _ => ask (sleep delay) ;; Ret false) ;;
      if opened : bool then Ret tt
      else wait_for_unlock_loop file_path attempts' delay
  end.

Definition _wait_for_unlock (file_path : Path) (attempts : nat) (delay : Z) : Prog unit :=
  wait_for_unlock_loop file_path attempts delay.

(** The default arguments of [_wait_for_unlock]: 60 attempts, 1.0 s. *)
Definition unlock_attempts : nat := 60.
Definition unlock_delay : Z := 1000.

Definition trimmed_path_of (target_dir path : Path) : Path :=
  target_dir // (PyPath.stem path ++ "_trimmed.mp3").

Definition trim_cmd (ffmpeg_path : string) (clip_seconds : Z) (path trimmed_path : Path)
  : list string :=
  [ffmpeg_path; "-y"; "-hide_banner"; "-loglevel"; "error"; "-ss"; "0"; "-t";
   PyStr.str_of_Z clip_seconds; "-i"; PyPath.str path; "-vn"; "-acodec"; "mp3";
   "-b:a"; "192k"; PyPath.str trimmed_path].

(** The body of the [try] of the trimming loop (lines 181-202); it returns
    the path of the clip it wrote. *)
Definition trim_one (ffmpeg_path : string) (clip_seconds : Z) (target_dir path : Path)
  : Prog Path :=
  _wait_for_unlock path unlock_attempts unlock_delay ;;
  let trimmed_path := trimmed_path_of target_dir path in
  call (subprocess_run (trim_cmd ffmpeg_path clip_seconds path trimmed_path)) ;;
  Ret trimmed_path.

(** One iteration of the trimming loop. *)
Definition trim_step (ffmpeg_path : string) (clip_seconds : Z) (target_dir path : Path)
  (trimmed_files : list Path) : Prog (list Path) :=
  try_except
    (trimmed_path <- trim_one ffmpeg_path clip_seconds target_dir path ;;
     Ret (trimmed_files ++ [trimmed_path])%list)
    any_exception
    (fun exc =>
       ask (log_warning "Skipping locked/unreadable file %s: %s" (PyPath.str path) exc) ;;
       Ret trimmed_files).

Fixpoint trim_loop (ffmpeg_path : string) (clip_seconds : Z) (target_dir : Path)
  (audio_paths : list Path) (trimmed_files : list Path) : Prog (list Path) :=
  match audio_paths with
  | [] => Ret trimmed_files
  | path :: rest =>
      trimmed_files' <- trim_step ffmpeg_path clip_seconds target_dir path trimmed_files ;;
      trim_loop ffmpeg_path clip_seconds target_dir rest trimmed_files'
  end.

(** Lines 166-168: create the directory and locate ffmpeg. *)
Definition trim_prelude (target_dir : Path) : Prog string :=
  call_os (mkdir target_dir) ;;
  call get_ffmpeg_exe.

Definition trim_audios (audio_paths : list Path) (clip_seconds : Z) (target_dir : Path)
  : Prog (list Path) :=
  ffmpeg_path <- trim_prelude target_dir ;;
  trimmed_files <- trim_loop ffmpeg_path clip_seconds target_dir audio_paths [] ;;
  match trimmed_files with
  | [] => Throw (MashupError "No audio files were trimmed.")
  | _ => Ret trimmed_files
  end.

Definition newline : string := String (ascii_of_nat 10) EmptyString.

Definition manifest_line (resolved : Path) : string :=
  let safe_path := PyStr.replace "'" "'\''" (PyPath.str resolved) in
  "file '" ++ safe_path ++ "'" ++ newline.

Fixpoint write_manifest (list_file : Path) (trimmed_list : list Path) : Prog unit :=
  match trimmed_list with
  | [] => Ret tt
  | path :: rest =>
      resolved <- call_os (resolve path) ;;
      call_os (file_write list_file (manifest_line resolved)) ;;
      write_manifest list_file rest
  end.

Definition concat_cmd (ffmpeg_path : string) (list_path output_path : Path) : list string :=
  [ffmpeg_path; "-y"; "-hide_banner"; "-loglevel"; "error"; "-f"; "concat";
   "-safe"; "0"; "-i"; PyPath.str list_path; "-c"; "copy"; PyPath.str output_path].

(** Lines 222-228: the manifest is created, written and closed. *)
Definition make_manifest (dir : Path) (trimmed_list : list Path) : Prog Path :=
  list_file <- call_os (named_temporary_file dir ".txt") ;;
  try_finally
    (write_manifest list_file trimmed_list ;; Ret list_file)
    (call_os (file_close list_file)).

(** Lines 230-252: the concatenation and the removal of the manifest. *)
Definition concat_and_cleanup (ffmpeg_path : string) (list_path output_path : Path)
  : Prog unit :=
  try_finally
    (call (subprocess_run (concat_cmd ffmpeg_path list_path output_path)))
    (try_except (call_os (unlink list_path)) is_OSError (fun _ => Ret tt)).

Definition merge_audios (trimmed_paths : list Path) (output_path : Path) : Prog Path :=
  ffmpeg_path <- call get_ffmpeg_exe ;;
  let trimmed_list := trimmed_paths in
  match trimmed_list with
  | [] => Throw (MashupError "No trimmed audio files to merge.")
  | _ =>
      call_os (mkdir (PyPath.parent output_path)) ;;
      list_path <- make_manifest (PyPath.parent output_path) trimmed_list ;;
      concat_and_cleanup ffmpeg_path list_path output_path ;;
      Ret output_path
  end.

(** Lines 267-269: the output path gets the [.mp3] suffix unless it has
    it already, compared in lower case. *)
Definition normalize_output_path (output_path : Path) : Result Path :=
  if negb (String.eqb (PyStr.lower (PyPath.suffix output_path)) ".mp3")
  then PyPath.with_suffix output_path ".mp3"
  else Ok output_path.

(** [with tempfile.TemporaryDirectory(prefix=...) as temp_root: body] *)
Definition with_temporary_directory {A : Type} (prefix : string) (body : Path -> Prog A)
  : Prog A :=
  temp_root <- call_os (mkdtemp prefix) ;;
  try_finally (body temp_root) (call_os (rmtree temp_root)).

Definition create_mashup (singer : string) (n_videos clip_seconds : PyVal)
  (output_path : Path) : Prog Path :=
  n_videos <- _coerce_positive_int n_videos "Number of videos" ;;
  clip_seconds <- _coerce_positive_int clip_seconds "Audio duration" ;;
  validate_inputs singer n_videos clip_seconds ;;
  output_path <- lift (normalize_output_path output_path) ;;
  setup_audio_backend ;;
  with_temporary_directory "mashup_" (fun temp_root =>
    let download_dir := temp_root // "downloads" in
    let trimmed_dir := temp_root // "trimmed" in
    downloads <- download_audio_from_search singer n_videos download_dir ;;
    ask (sleep 5000) ;;
    trimmed <- trim_audios downloads clip_seconds trimmed_dir ;;
    merged_path <- merge_audios trimmed output_path ;;
    Ret merged_path).

(** Lines 275-282: what [create_mashup] does inside its temporary
    directory. *)
Definition mashup_stages (singer : string) (n_videos clip_seconds : Z) (output_path : Path)
  (temp_root : Path) : Prog Path :=
  let download_dir := temp_root // "downloads" in
  let trimmed_dir := temp_root // "trimmed" in
  downloads <- download_audio_from_search singer n_videos download_dir ;;
  ask (sleep 5000) ;;
  trimmed <- trim_audios downloads clip_seconds trimmed_dir ;;
  merged_path <- merge_audios trimmed output_path ;;
  Ret merged_path.

(** ** Regular expressions ([re]) *)

Inductive regex : Type :=
| Void                                 (** matches nothing *)
| Eps                                  (** the empty string *)
| Cls (p : ascii -> bool)              (** one character of a class *)
| Cat (r1 r2 : regex)
| Alt (r1 r2 : regex)
| Star (r : regex).

Definition Plus (r : regex) : regex := Cat r (Star r).
Definition Chr (c : ascii) : regex := Cls (Ascii.eqb c).

Fixpoint nullable (r : regex) : bool :=
  match r with
  | Void => false
  | Eps => true
  | Cls _ => false
  | Cat r1 r2 => nullable r1 && nullable r2
  | Alt r1 r2 => nullable r1 || nullable r2
  | Star _ => true
  end.

Fixpoint deriv (a : ascii) (r : regex) : regex :=
  match r with
  | Void => Void
  | Eps => Void
  | Cls p => if p a then Eps else Void
  | Cat r1 r2 =>
      if nullable r1 then Alt (Cat (deriv a r1) r2) (deriv a r2)
      else Cat (deriv a r1) r2
  | Alt r1 r2 => Alt (deriv a r1) (deriv a r2)
  | Star r1 => Cat (deriv a r1) (Star r1)
  end.

(** the whole of [s] matches [r] *)
Fixpoint fullmatch (r : regex) (s : string) : bool :=
  match s with
  | EmptyString => nullable r
  | String a s' => fullmatch (deriv a r) s'
  end.

(** [s] without a final newline, when it has one *)
Fixpoint chop_newline (s : string) : option string :=
  match s with
  | EmptyString => None
  | String a EmptyString => if Ascii.eqb a (ascii_of_nat 10) then Some EmptyString else None
  | String a s' => String a <$> chop_newline s'
  end.

(** [re.compile("^" body "$").match(s)] is not [None]: [$] matches at
    the end of the string and just before a newline that ends it. *)
Definition match_to_end (body : regex) (s : string) : bool :=
  fullmatch body s
  || match chop_newline s with
     | Some s' => fullmatch body s'
     | None => false
     end.

(** The class [[^@\s]] *)
Definition not_at_or_space (a : ascii) : bool :=
  negb (Ascii.eqb a "@") && negb (PyStr.isspace a).

(** The pattern [^[^@\s]+@[^@\s]+\.[^@\s]+$] between its anchors. *)
Definition EMAIL_REGEX : regex :=
  Cat (Plus (Cls not_at_or_space))
   (Cat (Chr "@")
    (Cat (Plus (Cls not_at_or_space))
     (Cat (Chr ".") (Plus (Cls not_at_or_space))))).

Definition is_valid_email (email : string) : bool :=
  negb (String.eqb email "") && match_to_end EMAIL_REGEX (PyStr.strip email).

(** ** Predicates of the specification *)

(** The policy of the Input Validator. *)
Definition accepted (singer : string) (n_videos clip_seconds : Z) : Prop :=
  singer <> "" /\ PyStr.all_space singer = false /\ n_videos > 10 /\ clip_seconds > 20.

(** A request passes validation: both numbers coerce to positive integers
    and the coerced request is accepted. *)
Definition valid_request (singer : string) (n_videos clip_seconds : PyVal) : Prop :=
  exists zn zc,
    (py_int n_videos = Ok zn /\ 0 < zn) /\ (py_int clip_seconds = Ok zc /\ 0 < zc) /\
    accepted singer zn zc.

(** ** Running a program against a world *)

(** One external call of a run together with its answer. *)
Definition Call : Type := { X : Type & (Event X * X)%type }.

Definition mkCall {X : Type} (ev : Event X) (x : X) : Call := existT X (ev, x).

(** The result of a run: how it ended, [os.environ] and the world at the
    end, and the external calls made, oldest first. *)
Record Run (W A : Type) : Type := mkRun {
  outcome : Result A;
  environ_after : gmap string string;
  world_after : W;
  trace : list Call
}.
Arguments mkRun {W A} _ _ _ _.
Arguments outcome {W A} _.
Arguments environ_after {W A} _.
Arguments world_after {W A} _.
Arguments trace {W A} _.

(** A world answers every external call from its state and the current
    environment, and moves to its next state. *)
Definition Handler (W : Type) : Type :=
  forall X : Type, Event X -> gmap string string -> W -> X * W.

(** [r2] ran after [r1]. *)
Definition after {W A B : Type} (r1 : Run W A) (r2 : Run W B) : Run W B :=
  mkRun (outcome r2) (environ_after r2) (world_after r2) (trace r1 ++ trace r2)%list.

(** [r] with another outcome. *)
Definition ending {W A B : Type} (r : Run W A) (o : Result B) : Run W B :=
  mkRun o (environ_after r) (world_after r) (trace r).

(** [os.environ.setdefault(key, value)] *)
Definition setdefault (key value : string) (env : gmap string string)
  : gmap string string :=
  match env !! key with
  | Some _ => env
  | None => <[key:=value]> env
  end.

Fixpoint exec {W A : Type} (handle : Handler W) (p : Prog A)
  (env : gmap string string) (w : W) : Run W A :=
  match p with
  | Ret a => mkRun (Ok a) env w []
  | Throw e => mkRun (Err e) env w []
  | Ext ev k =>
      let '(x, w') := handle _ ev env w in
      after (mkRun (Ok tt) env w' [mkCall ev x]) (exec handle (k x) env w')
  | EnvironSetdefault key v k => exec handle k (setdefault key v env) w
  | EnvironGet key d k => exec handle (k (default d (env !! key))) env w
  | EnvironSet key v k => exec handle k (<[key:=v]> env) w
  end.

(** Every value a program can return satisfies [P]. *)
Fixpoint returns {A : Type} (P : A -> Prop) (p : Prog A) : Prop :=
  match p with
  | Ret a => P a
  | Throw _ => True
  | Ext ev k => forall x, returns P (k x)
  | EnvironSetdefault _ _ k => returns P k
  | EnvironGet _ _ k => forall x, returns P (k x)
  | EnvironSet _ _ k => returns P k
  end.

(** A program that makes no external call and leaves [os.environ] alone. *)
Definition pure {A : Type} (p : Prog A) : Prop :=
  match p with
  | Ret _ | Throw _ => True
  | _ => False
  end.


(** ** A scripted world

    A world for worked examples: every call succeeds except the ones the
    script lists. *)
Record World : Type := mkWorld {
  ffmpeg_exe : Exn + string;              (** what [get_ffmpeg_exe] answers *)
  search_entries : list (option (gmap string string));
  broken_urls : list string;              (** downloads that raise *)
  missing_patterns : list string;         (** glob patterns that match nothing *)
  growing_files : list string;            (** files whose size changes at every poll *)
  locked_files : list string;             (** files that cannot be opened *)
  failing_inputs : list string;           (** arguments that make ffmpeg fail *)
  unlink_fails : bool;
  clock : Z                               (** advanced by every poll of a growing file *)
}.

Definition listed (x : string) (l : list string) : bool := existsb (String.eqb x) l.

Definition tick (w : World) : World :=
  mkWorld (ffmpeg_exe w) (search_entries w) (broken_urls w) (missing_patterns w)
    (growing_files w) (locked_files w) (failing_inputs w) (unlink_fails w) (clock w + 1).

Definition scripted : Handler World :=
  fun X ev env w =>
    match ev in Event X return X * World with
    | get_ffmpeg_exe => (ffmpeg_exe w, w)
    | extract_info _ _ => (inr {| entries := Some (search_entries w) |}, w)
    | ydl_download _ url =>
        (if listed url (broken_urls w) then inl (DownloadError url) else inr tt, w)
    | mkdir _ => (inr tt, w)
    | glob dir pattern =>
        (inr (if listed pattern (missing_patterns w) then [] else [dir // pattern]), w)
    | path_exists _ => (true, w)
    | stat_size p =>
        if listed (PyPath.str p) (growing_files w) then (inr (clock w), tick w)
        else (inr 4096, w)
    | open_rb p =>
        (if listed (PyPath.str p) (locked_files w) then inl EPermission else inr tt, w)
    | resolve p => (inr p, w)
    | subprocess_run cmd =>
        (if existsb (fun arg => listed arg (failing_inputs w)) cmd
         then inl (CalledProcessError 1) else inr tt, w)
    | named_temporary_file dir sfx => (inr (dir // ("tmpmanifest" ++ sfx)), w)
    | file_write _ _ => (inr tt, w)
    | file_close _ => (inr tt, w)
    | unlink _ => (if unlink_fails w then inl EOther else inr tt, w)
    | mkdtemp prefix => (inr (PyPath.of_str ("/tmp/" ++ prefix ++ "0")), w)
    | rmtree _ => (inr tt, w)
    | sleep _ => (tt, w)
    | log_warning _ _ _ => (tt, w)
    | log_debug _ _ => (tt, w)
    end.

(** A world where everything works and ffmpeg is installed. *)
Definition calm : World :=
  mkWorld (inr "/opt/ffmpeg/bin/ffmpeg") [] [] [] [] [] [] false 1.

(** ** Backend Locator, as the specification has it *)

(** Two calls in a row that both succeed. *)
Definition second_call {W : Type} (handle : Handler W) (env : gmap string string) (w : W)
  : Run W unit * Run W unit :=
  let r1 := exec handle setup_audio_backend env w in
  (r1, exec handle setup_audio_backend (environ_after r1) (world_after r1)).

(** The number of times a run asked for the ffmpeg executable. *)
Definition is_get_ffmpeg_exe (c : Call) : bool :=
  match c with
  | existT _ (get_ffmpeg_exe, _) => true
  | _ => false
  end.

Definition locator_queries (t : list Call) : nat := length (List.filter is_get_ffmpeg_exe t).

(** Idempotence as stated: the process-visible state after the second
    call is the state after the first. *)
Definition backend_idempotent {W : Type} (handle : Handler W) (env : gmap string string)
  (w : W) : Prop :=
  let r1 := (second_call handle env w).1 in
  let r2 := (second_call handle env w).2 in
  outcome r1 = Ok tt -> outcome r2 = Ok tt ->
  environ_after r2 = environ_after r1.

(** [os.environ] after a successful call that found [ffmpeg_path]. *)
Definition backend_environ (ffmpeg_path : string) (env : gmap string string)
  : gmap string string :=
  let env4 := setdefault "FFMPEG_LOCATION" ffmpeg_path
               (setdefault "IMAGEIO_FFMPEG_EXE" ffmpeg_path
                 (setdefault "FFPROBE_BINARY" ffmpeg_path
                   (setdefault "FFMPEG_BINARY" ffmpeg_path env))) in
  <["PATH" := PyPath.str (PyPath.parent (PyPath.of_str ffmpeg_path)) ++ pathsep
              ++ default "" (env4 !! "PATH")]> env4.

(** Every exception a program can raise satisfies [P] together with the
    external call made last before it; [prev] is that call when the program
    has made none yet. *)
Fixpoint raises_after {A : Type} (P : option Call -> Exn -> Prop) (prev : option Call)
  (p : Prog A) : Prop :=
  match p with
  | Ret _ => True
  | Throw e => P prev e
  | Ext ev k => forall x, raises_after P (Some (mkCall ev x)) (k x)
  | EnvironSetdefault _ _ k => raises_after P prev k
  | EnvironGet _ _ k => forall x, raises_after P prev (k x)
  | EnvironSet _ _ k => raises_after P prev k
  end.

(** The exception a call raised, when the call is a [glob] that raised. *)
Definition glob_raised (c : Call) : option Exn :=
  match c with
  | existT X (ev, x) =>
      match ev in Event X return X -> option Exn with
      | glob _ _ => fun answer => match answer with inl e => Some e | inr _ => None end
      | _ => fun _ => None
      end x
  end.

(** The exception is the one the last call, a [glob], raised. *)
Definition from_glob (prev : option Call) (e : Exn) : Prop :=
  exists c, prev = Some c /\ glob_raised c = Some e.

(** ** Stability wait, as the specification has it *)

(** A world that replays a sequence of observations of one file, one per
    poll: [None] when the file is not there, [Some size] when it is, a size
    being a number of bytes.  When the sequence is over the file is not
    there. *)
Definition replay : Handler (list (option N)) :=
  fun X ev env obs =>
    match ev in Event X return Event X -> X * list (option N) with
    | path_exists _ => fun _ =>
        match obs with
        | Some _ :: _ => (true, obs)
        | None :: obs' => (false, obs')
        | [] => (false, [])
        end
    | stat_size _ => fun _ =>
        match obs with
        | Some size :: obs' => (inr (Z.of_N size), obs')
        | _ => (inl ENotFound, obs)
        end
    | _ => fun ev' => ((scripted _ ev' env calm).1, obs)
    end ev.

(** The sizes observed by the first [attempts] polls. *)
Definition sizes_seen (attempts : nat) (obs : list (option N)) : list N :=
  omap id (take attempts obs).

(** Two consecutive observed sizes are equal and nonzero. *)
Definition stable_pair (sizes : list N) : Prop :=
  exists before size rest, sizes = (before ++ size :: size :: rest)%list /\ size <> 0%N.

(** Some observed size equals the one before it and is nonzero, when
    [last_size] is what the loop remembers from before the first of them. *)
Fixpoint stable_after (last_size : Z) (sizes : list N) : Prop :=
  match sizes with
  | [] => False
  | size :: rest =>
      (Z.of_N size = last_size /\ size <> 0%N) \/ stable_after (Z.of_N size) rest
  end.

(** ** Clip Trimmer, as the specification has it *)

(** The items of [l] whose flag is set, in the order of [l]. *)
Fixpoint kept {A : Type} (flags : list bool) (l : list A) : list A :=
  match flags, l with
  | true :: flags', x :: l' => x :: kept flags' l'
  | false :: flags', _ :: l' => kept flags' l'
  | _, _ => []
  end.

(** For each input file, in order, whether trimming it succeeded in the run
    that starts in the given state; a failure is logged before the next
    file is tried. *)
Fixpoint trim_successes {W : Type} (handle : Handler W) (ffmpeg_path : string)
  (clip_seconds : Z) (target_dir : Path) (audio_paths : list Path)
  (env : gmap string string) (w : W) : list bool :=
  match audio_paths with
  | [] => []
  | path :: rest =>
      let r := exec handle (trim_one ffmpeg_path clip_seconds target_dir path) env w in
      match outcome r with
      | Ok _ =>
          true :: trim_successes handle ffmpeg_path clip_seconds target_dir rest
                    (environ_after r) (world_after r)
      | Err exc =>
          let r' := exec handle
                      (ask (log_warning "Skipping locked/unreadable file %s: %s"
                              (PyPath.str path) exc))
                      (environ_after r) (world_after r) in
          false :: trim_successes handle ffmpeg_path clip_seconds target_dir rest
                     (environ_after r') (world_after r')
      end
  end.

(** A world where ffmpeg fails on [b.mp3] and [d.mp3] stays locked. *)
Definition trim_world : World :=
  mkWorld (inr "/opt/ffmpeg/bin/ffmpeg") [] [] [] [] ["/tmp/dl/d.mp3"] ["/tmp/dl/b.mp3"]
    false 1.

(** ** Audio Fetcher, as the specification has it *)

(** The contract as stated, for a run in which no external call raises
    outside the per-candidate handling: the function returns exactly
    [n_videos] files, or raises the error that reports how many of how many
    were obtained. *)
Definition fetcher_contract {W : Type} (handle : Handler W) (singer : string)
  (n_videos : Z) (workdir : Path) (env : gmap string string) (w : W) : Prop :=
  match outcome (exec handle (download_audio_from_search singer n_videos workdir) env w) with
  | Ok files => Z.of_nat (length files) = n_videos
  | Err e =>
      exists got : nat,
        Z.of_nat got < n_videos /\ e = MashupError (downloaded_only_message got n_videos)
  end.

(** The [i]-th search result. *)
Definition candidate (i : nat) : gmap string string :=
  <["id" := "v" ++ PyStr.str_of_Z (Z.of_nat i)]>
    {["webpage_url" := "https://example.org/watch/" ++ PyStr.str_of_Z (Z.of_nat i)]}.

(** A world whose search finds [count] candidates, numbered from 1; the
    download of every third one raises. *)
Definition search_world (count : nat) : World :=
  mkWorld (inr "/opt/ffmpeg/bin/ffmpeg")
    ((fun i => Some (candidate i)) <$> seq 1 count)
    ((fun i => "https://example.org/watch/" ++ PyStr.str_of_Z (Z.of_nat i))
       <$> List.filter (fun i => (i mod 3 =? 0)%nat) (seq 1 count))
    [] [] [] [] false 1.

Definition is_ydl_download (c : Call) : bool :=
  match c with
  | existT _ (ydl_download _ _, _) => true
  | _ => false
  end.

(** The number of candidates a run tried to download. *)
Definition download_attempts (t : list Call) : nat := length (List.filter is_ydl_download t).

(** ** Mashup Assembler, as the specification has it *)

(** Every external call a program can make satisfies [P]. *)
Fixpoint emits {A : Type} (P : Call -> Prop) (p : Prog A) : Prop :=
  match p with
  | Ret _ | Throw _ => True
  | Ext ev k => forall x, P (mkCall ev x) /\ emits P (k x)
  | EnvironSetdefault _ _ k => emits P k
  | EnvironGet _ _ k => forall x, emits P (k x)
  | EnvironSet _ _ k => emits P k
  end.

(** The command and the answer of a call of [subprocess.run]. *)
Definition call_subprocess (c : Call) : option (list string * (Exn + unit)) :=
  match c with
  | existT X (ev, x) =>
      match ev in Event X return X -> option (list string * (Exn + unit)) with
      | subprocess_run cmd => fun answer => Some (cmd, answer)
      | _ => fun _ => None
      end x
  end.

(** The commands the pipeline runs: the trim of a file, or the
    concatenation that writes [output_path]. *)
Inductive pipeline_command (output_path : Path) : list string -> Prop :=
| is_trim_cmd ffmpeg_path clip_seconds path trimmed_path :
    pipeline_command output_path (trim_cmd ffmpeg_path clip_seconds path trimmed_path)
| is_concat_cmd ffmpeg_path list_path :
    pipeline_command output_path (concat_cmd ffmpeg_path list_path output_path).

(** A call that runs a process runs a command of the pipeline. *)
Definition runs_pipeline_command (output_path : Path) (c : Call) : Prop :=
  forall cmd answer, call_subprocess c = Some (cmd, answer) ->
                     pipeline_command output_path cmd.

(** What [merge_audios] does with a non-empty list before it invokes the
    concatenation: locate ffmpeg, create the directory of the output, write
    the manifest.  It yields the ffmpeg path and the path of the manifest. *)
Definition merge_setup (trimmed_list : list Path) (output_path : Path)
  : Prog (string * Path) :=
  ffmpeg_path <- call get_ffmpeg_exe ;;
  call_os (mkdir (PyPath.parent output_path)) ;;
  list_path <- make_manifest (PyPath.parent output_path) trimmed_list ;;
  Ret (ffmpeg_path, list_path).

(** A world where ffmpeg fails on the manifest and the manifest cannot be
    deleted. *)
Definition merge_world : World :=
  mkWorld (inr "/opt/ffmpeg/bin/ffmpeg") [] [] [] [] [] ["/music/tmpmanifest.txt"] true 1.

(** ** Email addresses, as the specification has them *)

(** The strings a regular expression denotes. *)
Inductive lang : regex -> string -> Prop :=
| lang_eps : lang Eps ""
| lang_cls p a : p a = true -> lang (Cls p) (String a "")
| lang_cat r1 r2 s1 s2 : lang r1 s1 -> lang r2 s2 -> lang (Cat r1 r2) (s1 ++ s2)
| lang_alt_l r1 r2 s : lang r1 s -> lang (Alt r1 r2) s
| lang_alt_r r1 r2 s : lang r2 s -> lang (Alt r1 r2) s
| lang_star_nil r : lang (Star r) ""
| lang_star_cons r s1 s2 : lang r s1 -> lang (Star r) s2 -> lang (Star r) (s1 ++ s2).

(** every character of [s] is in the class [p] *)
Fixpoint all_chars (p : ascii -> bool) (s : string) : bool :=
  match s with
  | EmptyString => true
  | String a s' => p a && all_chars p s'
  end.

(** A non-empty string without [@] and without whitespace. *)
Definition plain (s : string) : Prop := s <> "" /\ all_chars not_at_or_space s = true.

(** The shape [local@domain.tld]. *)
Definition email_shape (s : string) : Prop :=
  exists local domain tld,
    s = local ++ "@" ++ domain ++ "." ++ tld /\ plain local /\ plain domain /\ plain tld.

(** ** A whole run *)

(** A world whose search finds [count] candidates that all download. *)
Definition plentiful_world (count : nat) : World :=
  mkWorld (inr "/opt/ffmpeg/bin/ffmpeg") ((fun i => Some (candidate i)) <$> seq 1 count)
    [] [] [] [] [] false 1.

(** What a run wrote to files, in order. *)
Definition written (c : Call) : option string :=
  match c with
  | existT _ (file_write _ data, _) => Some data
  | _ => None
  end.

Definition manifest_written (t : list Call) : list string := omap written t.

(** ** Further properties: definitions *)

(** The variables [setup_audio_backend] sets with [setdefault]. *)
Definition backend_variables : list string :=
  ["FFMPEG_BINARY"; "FFPROBE_BINARY"; "IMAGEIO_FFMPEG_EXE"; "FFMPEG_LOCATION"].

(** A world where ffmpeg can be neither found nor downloaded. *)
Definition no_ffmpeg_world : World :=
  mkWorld (inl (OSError EOther)) [] [] [] [] [] [] false 1.

(** The options of the search, as [_search_candidates] sets them. *)
Definition search_opts : SearchOpts :=
  {| sopt_quiet := true; sopt_no_warnings := true;
     sopt_skip_download := true; sopt_default_search := "auto" |}.

(** A program makes at most [k] external calls that [f] selects. *)
Fixpoint calls_at_most {A : Type} (f : Call -> bool) (k : nat) (p : Prog A) : Prop :=
  match p with
  | Ret _ | Throw _ => True
  | Ext ev c =>
      forall x,
        if f (mkCall ev x)
        then match k with
             | O => False
             | S k' => calls_at_most f k' (c x)
             end
        else calls_at_most f k (c x)
  | EnvironSetdefault _ _ c => calls_at_most f k c
  | EnvironGet _ _ c => forall x, calls_at_most f k (c x)
  | EnvironSet _ _ c => calls_at_most f k c
  end.

(** A world where the download of the first candidate raises. *)
Definition broken_first_world : World :=
  mkWorld (inr "/opt/ffmpeg/bin/ffmpeg") [Some (candidate 1)]
    ["https://example.org/watch/1"] [] [] [] [] false 1.

(** A world that replays the answers of successive attempts to open one
    file; when the sequence is over the file stays locked. *)
Definition replay_open : Handler (list (OSErr + unit)) :=
  fun X ev env answers =>
    match ev in Event X return Event X -> X * list (OSErr + unit) with
    | open_rb _ => fun _ =>
        match answers with
        | a :: rest => (a, rest)
        | [] => (inl EPermission, [])
        end
    | _ => fun ev' => ((scripted _ ev' env calm).1, answers)
    end ev.

(** The first [i] attempts were refused for lack of permission and the next
    one, still within the budget, answered [a]. *)
Definition decided_by (attempts : nat) (answers : list (OSErr + unit)) (a : OSErr + unit)
  : Prop :=
  exists i rest,
    (i < attempts)%nat /\ answers = (replicate i (inl EPermission) ++ a :: rest)%list.



(** A program never writes [os.environ]. *)
Fixpoint keeps_environ {A : Type} (p : Prog A) : Prop :=
  match p with
  | Ret _ | Throw _ => True
  | Ext _ k => forall x, keeps_environ (k x)
  | EnvironSetdefault _ _ _ => False
  | EnvironGet _ _ k => forall x, keeps_environ (k x)
  | EnvironSet _ _ _ => False
  end.

(** ** The workspace *)

(** A call that asks for a temporary directory, and the directory it got. *)
Definition creates_directory (c : Call) : bool :=
  match c with
  | existT _ (mkdtemp _, _) => true
  | _ => false
  end.

Definition made_directory (c : Call) : option Path :=
  match c with
  | existT X (ev, x) =>
      match ev in Event X return X -> option Path with
      | mkdtemp _ => fun a => match a with inr p => Some p | inl _ => None end
      | _ => fun _ => None
      end x
  end.
Section ExecLemmas.

Context {W : Type} (handle : Handler W).

Lemma after_assoc {A B C : Type} (r1 : Run W A) (r2 : Run W B) (r3 : Run W C) :
  after (after r1 r2) r3 = after r1 (after r2 r3).
Proof. unfold after; simpl. by rewrite app_assoc. Qed.

Lemma after_ending {A B C : Type} (r1 : Run W A) (r2 : Run W B) (o : Result C) :
  ending (after r1 r2) o = after r1 (ending r2 o).
Proof. reflexivity. Qed.

Lemma exec_bind {A B : Type} (p : Prog A) (f : A -> Prog B) env w :
  exec handle (bind p f) env w =
  let r := exec handle p env w in
  match outcome r with
  | Ok a => after r (exec handle (f a) (environ_after r) (world_after r))
  | Err e => ending r (Err e)
  end.
Proof.
  revert env w.
  induction p as [a|e|X ev k IH|key v k IH|key d k IH|key v k IH]; intros env w; simpl.
  - by destruct (exec handle (f a) env w).
  - reflexivity.
  - destruct (handle X ev env w) as [x w']. rewrite IH. simpl.
    destruct (outcome (exec handle (k x) env w')); reflexivity.
  - apply IH.
  - apply IH.
  - apply IH.
Qed.

Lemma exec_try_except {A : Type} (p : Prog A) catches handler env w :
  exec handle (try_except p catches handler) env w =
  let r := exec handle p env w in
  match outcome r with
  | Ok a => r
  | Err e =>
      if catches e
      then after r (exec handle (handler e) (environ_after r) (world_after r))
      else r
  end.
Proof.
  revert env w.
  induction p as [a|e|X ev k IH|key v k IH|key d k IH|key v k IH]; intros env w; simpl.
  - reflexivity.
  - destruct (catches e); [|reflexivity].
    by destruct (exec handle (handler e) env w).
  - destruct (handle X ev env w) as [x w']. rewrite IH. simpl.
    destruct (outcome (exec handle (k x) env w')); [reflexivity|].
    destruct (catches e); reflexivity.
  - apply IH.
  - apply IH.
  - apply IH.
Qed.

Lemma exec_try_finally {A : Type} (p : Prog A) (cleanup : Prog unit) env w :
  exec handle (try_finally p cleanup) env w =
  let r := exec handle p env w in
  let c := exec handle cleanup (environ_after r) (world_after r) in
  after r (ending c (match outcome c with
                     | Ok _ => outcome r
                     | Err e => Err e
                     end)).
Proof.
  revert env w.
  induction p as [a|e|X ev k IH|key v k IH|key d k IH|key v k IH]; intros env w; simpl.
  - rewrite exec_bind. simpl.
    destruct (exec handle cleanup env w) as [[[]|e] env' w' t];
      unfold after, ending; simpl; by rewrite ?app_nil_r.
  - rewrite exec_bind. simpl.
    destruct (exec handle cleanup env w) as [[[]|e'] env' w' t];
      unfold after, ending; simpl; by rewrite ?app_nil_r.
  - destruct (handle X ev env w) as [x w']. rewrite IH. reflexivity.
  - apply IH.
  - apply IH.
  - apply IH.
Qed.

Lemma returns_exec {A : Type} (P : A -> Prop) (p : Prog A) env w a :
  returns P p -> outcome (exec handle p env w) = Ok a -> P a.
Proof.
  revert env w.
  induction p as [a'|e|X ev k IH|key v k IH|key d k IH|key v k IH];
    intros env w HP Hrun; simpl in *.
  - by simplify_eq.
  - discriminate.
  - destruct (handle X ev env w) as [x w']. eapply IH; [apply HP|exact Hrun].
  - eapply IH; eassumption.
  - eapply IH; [apply HP|exact Hrun].
  - eapply IH; eassumption.
Qed.

Lemma pure_exec {A : Type} (p : Prog A) env w :
  pure p ->
  trace (exec handle p env w) = [] /\
  environ_after (exec handle p env w) = env /\
  world_after (exec handle p env w) = w.
Proof. destruct p; simpl; intros H; try contradiction; auto. Qed.

End ExecLemmas.

(** *** Outcomes *)

Lemma outcome_bind {W A B : Type} (handle : Handler W) (p : Prog A) (f : A -> Prog B) env w :
  outcome (exec handle (bind p f) env w) =
  match outcome (exec handle p env w) with
  | Ok a => outcome (exec handle (f a) (environ_after (exec handle p env w))
                       (world_after (exec handle p env w)))
  | Err e => Err e
  end.
Proof.
  rewrite exec_bind. cbn zeta. by destruct (outcome (exec handle p env w)).
Qed.

Lemma outcome_try_except {W A : Type} (handle : Handler W) (p : Prog A) catches handler env w :
  outcome (exec handle (try_except p catches handler) env w) =
  match outcome (exec handle p env w) with
  | Ok a => Ok a
  | Err e =>
      if catches e
      then outcome (exec handle (handler e) (environ_after (exec handle p env w))
                      (world_after (exec handle p env w)))
      else Err e
  end.
Proof.
  rewrite exec_try_except. cbn zeta.
  destruct (outcome (exec handle p env w)) as [a|e] eqn:E; [exact E|].
  destruct (catches e); [reflexivity|exact E].
Qed.

Lemma outcome_ask_ret {W A X : Type} (handle : Handler W) (ev : Event X) (a : A) env w :
  outcome (exec handle (ask ev ;; Ret a) env w) = Ok a.
Proof. simpl. by destruct (handle X ev env w). Qed.

(** *** Rules for [returns] *)

Lemma returns_weaken {A : Type} (P Q : A -> Prop) (p : Prog A) :
  (forall a, P a -> Q a) -> returns P p -> returns Q p.
Proof. intros HPQ. induction p; simpl; auto. Qed.

Lemma returns_bind {A B : Type} (Q : B -> Prop) (p : Prog A) (f : A -> Prog B) :
  returns (fun a => returns Q (f a)) p -> returns Q (bind p f).
Proof. induction p; simpl; auto. Qed.

Lemma returns_try_except {A : Type} (P : A -> Prop) (p : Prog A) catches handler :
  returns P p -> (forall e, returns P (handler e)) -> returns P (try_except p catches handler).
Proof.
  intros Hp Hh. induction p; simpl in *; auto.
  destruct (catches e); simpl; auto.
Qed.

Lemma returns_try_finally {A : Type} (P : A -> Prop) (p : Prog A) cleanup :
  returns P p -> returns P (try_finally p cleanup).
Proof.
  intros Hp. induction p; simpl in *; auto.
  - apply returns_bind. eapply returns_weaken; [|instantiate (1 := fun _ => True)].
    + intros; assumption.
    + clear. induction cleanup; simpl; auto.
  - apply returns_bind. eapply returns_weaken; [|instantiate (1 := fun _ => True)].
    + intros; exact I.
    + clear. induction cleanup; simpl; auto.
Qed.

Lemma returns_true {A : Type} (p : Prog A) : returns (fun _ => True) p.
Proof. induction p; simpl; auto. Qed.

(** ** Strings *)

Lemma lstrip_empty_iff s : PyStr.lstrip s = "" <-> PyStr.all_space s = true.
Proof.
  induction s as [|a s IH]; simpl; [done|].
  destruct (PyStr.isspace a); simpl; [exact IH|]. split; discriminate.
Qed.

Lemma rstrip_empty_iff s : PyStr.rstrip s = "" <-> PyStr.all_space s = true.
Proof.
  induction s as [|a s IH]; simpl; [done|].
  destruct (PyStr.rstrip s) as [|b r] eqn:E.
  - destruct (PyStr.isspace a); simpl.
    + split; [intros _; by apply IH | done].
    + split; discriminate.
  - split; [discriminate|].
    intros H. apply andb_true_iff in H as [_ H]. apply IH in H. discriminate.
Qed.

Lemma all_space_lstrip s : PyStr.all_space (PyStr.lstrip s) = PyStr.all_space s.
Proof.
  induction s as [|a s IH]; simpl; [done|].
  destruct (PyStr.isspace a) eqn:E; simpl; [exact IH|]. by rewrite E.
Qed.

Lemma strip_empty_iff s : PyStr.strip s = "" <-> PyStr.all_space s = true.
Proof. unfold PyStr.strip. by rewrite rstrip_empty_iff, all_space_lstrip. Qed.

Example int_of_str_examples :
  PyStr.int_of_str " 12 " = Some 12 /\ PyStr.int_of_str "1_000" = Some 1000 /\
  PyStr.int_of_str "+7" = Some 7 /\ PyStr.int_of_str "-3" = Some (-3) /\
  PyStr.int_of_str "007" = Some 7 /\ PyStr.int_of_str "12.5" = None /\
  PyStr.int_of_str "" = None /\ PyStr.int_of_str "1__0" = None /\
  PyStr.int_of_str "_1" = None /\ PyStr.int_of_str "1_" = None /\
  PyStr.int_of_str "- 1" = None /\ PyStr.int_of_str "twelve" = None /\
  PyStr.int_of_str (String (ascii_of_nat 160) "12") = Some 12 /\
  PyStr.int_of_str (String (ascii_of_nat 28) "12") = None /\
  PyStr.strip (String (ascii_of_nat 28) "12") = "12" /\
  PyStr.int_of_str (string_of_list_ascii (repeat "1"%char 4300) ++ " ") <> None /\
  PyStr.int_parse (string_of_list_ascii (repeat "0"%char 4301)) = PyStr.ExceedsLimit 4301.
Proof. repeat split; vm_compute; congruence. Qed.

Example str_of_Z_examples :
  PyStr.str_of_Z 0 = "0" /\ PyStr.str_of_Z 1200 = "1200" /\ PyStr.str_of_Z (-45) = "-45" /\
  PyStr.str_of_Z 9 = "9" /\ PyStr.str_of_Z 10 = "10" /\ PyStr.str_of_Z 99999 = "99999".
Proof. repeat split. Qed.

Example path_examples :
  PyPath.str (PyPath.of_str "a//b/./c.tar.gz") = "a/b/c.tar.gz" /\
  PyPath.suffix (PyPath.of_str "a//b/./c.tar.gz") = ".gz" /\
  PyPath.stem (PyPath.of_str "a//b/./c.tar.gz") = "c.tar" /\
  PyPath.str (PyPath.parent (PyPath.of_str "/opt/ffmpeg/bin/ffmpeg")) = "/opt/ffmpeg/bin" /\
  PyPath.str (PyPath.parent (PyPath.of_str "ffmpeg")) = "." /\
  PyPath.suffix (PyPath.of_str ".hidden") = "" /\
  PyPath.suffix (PyPath.of_str "out.") = "" /\
  PyPath.name (PyPath.of_str ".") = "" /\
  PyPath.with_suffix (PyPath.of_str ".") ".mp3"
    = Err (ValueError "PosixPath('.') has an empty name") /\
  PyPath.str (PyPath.parent (PyPath.of_str "//opt/bin/ffmpeg")) = "//opt/bin" /\
  PyPath.str (PyPath.parent (PyPath.of_str "///opt/bin/ffmpeg")) = "/opt/bin" /\
  PyPath.str (PyPath.of_str "//") = "//" /\
  PyPath.str (PyPath.of_str "") = "." /\
  PyPath.str (PyPath.of_str "//srv" // "a" // "/b") = "/b" /\
  PyPath.str (PyPath.of_str "/tmp/x" // "downloads" // "v1.%(ext)s") = "/tmp/x/downloads/v1.%(ext)s".
Proof. repeat split. Qed.

(** ** Input Validator *)

(** The policy of the validator, as a proposition. *)
Lemma validate_inputs_cases (singer : string) (n_videos clip_seconds : Z) :
  (validate_inputs singer n_videos clip_seconds = Ret tt <-> accepted singer n_videos clip_seconds) /\
  (~ accepted singer n_videos clip_seconds ->
   exists msg, validate_inputs singer n_videos clip_seconds = Throw (ValueError msg)).
Proof.
  unfold validate_inputs, accepted.
  destruct (String.eqb_spec singer "") as [He|He]; simpl.
  { split; [split; [discriminate | intros [H _]; contradiction] | eauto]. }
  destruct (String.eqb_spec (PyStr.strip singer) "") as [Hs|Hs].
  { apply strip_empty_iff in Hs.
    split; [split; [discriminate | intros (_ & H & _); congruence] | eauto]. }
  assert (Hns : PyStr.all_space singer = false).
  { destruct (PyStr.all_space singer) eqn:E; [|done].
    apply strip_empty_iff in E. contradiction. }
  destruct (Z.leb_spec n_videos 10).
  { split; [split; [discriminate | intros (_ & _ & H' & _); lia] | eauto]. }
  destruct (Z.leb_spec clip_seconds 20).
  { split; [split; [discriminate | intros (_ & _ & _ & H'); lia] | eauto]. }
  split; [split; [intros _; repeat split; auto; lia | done] |].
  intros Hn. exfalso. apply Hn. repeat split; auto; lia.
Qed.

(** C2. [validate_inputs] accepts exactly when the singer is non-empty and
    not all whitespace, the number of videos exceeds 10 and the clip length
    exceeds 20; every other input raises [ValueError]. *)
Theorem validate_inputs_accepts_iff (singer : string) (n_videos clip_seconds : Z) :
  (validate_inputs singer n_videos clip_seconds = Ret tt <->
   singer <> "" /\ PyStr.all_space singer = false /\ n_videos > 10 /\ clip_seconds > 20) /\
  (~ (singer <> "" /\ PyStr.all_space singer = false /\ n_videos > 10 /\ clip_seconds > 20) ->
   exists msg, validate_inputs singer n_videos clip_seconds = Throw (ValueError msg)).
Proof. exact (validate_inputs_cases singer n_videos clip_seconds). Qed.

Example validate_inputs_examples :
  validate_inputs "X" 11 21 = Ret tt /\
  validate_inputs "X" 10 21 = Throw (ValueError "Number of videos must be greater than 10.") /\
  validate_inputs "X" 11 20 = Throw (ValueError "Audio duration must be greater than 20 seconds.") /\
  validate_inputs "   " 11 21 = Throw (ValueError "Singer name cannot be empty.").
Proof. repeat split. Qed.

(** ** Orchestrator: rejection before any I/O *)

Lemma py_int_error (value : PyVal) (e : Exn) :
  py_int value = Err e -> (exists m, e = ValueError m) \/ (exists m, e = TypeError m).
Proof.
  destruct value as [z|s|]; simpl.
  - discriminate.
  - destruct (PyStr.int_parse s); [discriminate| |]; intros H; inversion H; eauto.
  - intros H; inversion H; eauto.
Qed.

(** What [_coerce_positive_int] does, by cases on [int(value)]. *)
Lemma coerce_positive_int_cases (value : PyVal) (name : string) :
  (exists z, py_int value = Ok z /\ 0 < z /\ _coerce_positive_int value name = Ret z) \/
  (~ (exists z, py_int value = Ok z /\ 0 < z) /\
   exists msg, _coerce_positive_int value name = Throw (ValueError msg)).
Proof.
  unfold _coerce_positive_int.
  destruct (py_int value) as [z|e] eqn:Hv; simpl.
  - destruct (Z.leb_spec z 0).
    + right. split; [intros (z' & Hz & Hpos); simplify_eq; lia | eauto].
    + left. eauto.
  - right. split; [intros (z' & Hz & _); discriminate|].
    destruct (py_int_error _ _ Hv) as [[m ->]|[m ->]]; simpl; eauto.
Qed.

(** C7. A request that fails validation (a count or a duration that is not
    a positive integer, a blank singer, at most 10 videos or at most 20
    seconds) makes [create_mashup] raise [ValueError] at once: the program
    is the bare raise, so in every world no external call is made and
    neither the world nor [os.environ] changes. *)
Theorem create_mashup_rejects_before_io (singer : string) (n_videos clip_seconds : PyVal)
  (output_path : Path) :
  ~ valid_request singer n_videos clip_seconds ->
  (exists msg, create_mashup singer n_videos clip_seconds output_path = Throw (ValueError msg)) /\
  (forall (W : Type) (handle : Handler W) env w,
     let r := exec handle (create_mashup singer n_videos clip_seconds output_path) env w in
     (exists msg, outcome r = Err (ValueError msg)) /\
     trace r = [] /\ environ_after r = env /\ world_after r = w).
Proof.
  intros Hinvalid.
  assert (Hthrow : exists msg,
    create_mashup singer n_videos clip_seconds output_path = Throw (ValueError msg)).
  { unfold create_mashup.
    destruct (coerce_positive_int_cases n_videos "Number of videos")
      as [(zn & Hn & Hnpos & ->)|(_ & msg & ->)]; simpl; [|eauto].
    destruct (coerce_positive_int_cases clip_seconds "Audio duration")
      as [(zc & Hc & Hcpos & ->)|(_ & msg & ->)]; simpl; [|eauto].
    destruct (validate_inputs_cases singer zn zc) as [_ Hrej].
    destruct Hrej as [msg ->]; simpl; [|eauto].
    intros Hacc. apply Hinvalid. exists zn, zc. auto. }
  split; [exact Hthrow|].
  destruct Hthrow as [msg ->]. intros W handle env w. simpl. eauto.
Qed.

Lemma create_mashup_rejects_before_io_witness :
  ~ valid_request "X" (PyInt 10) (PyString "abc") /\
  exists msg, create_mashup "X" (PyInt 10) (PyString "abc") (PyPath.of_str "out")
              = Throw (ValueError msg).
Proof.
  assert (H : ~ valid_request "X" (PyInt 10) (PyString "abc")).
  { intros (zn & zc & _ & [Hc _] & _). vm_compute in Hc. discriminate. }
  split; [exact H|].
  exact (proj1 (create_mashup_rejects_before_io "X" (PyInt 10) (PyString "abc")
                  (PyPath.of_str "out") H)).
Defined.

Example create_mashup_rejections :
  create_mashup "X" (PyString "ten") (PyInt 25) (PyPath.of_str "out")
    = Throw (ValueError "Number of videos must be an integer.") /\
  create_mashup "X" (PyInt 12) (PyInt 0) (PyPath.of_str "out")
    = Throw (ValueError "Audio duration must be greater than 0.") /\
  create_mashup "  " (PyString "12") (PyString " 25 ") (PyPath.of_str "out")
    = Throw (ValueError "Singer name cannot be empty.") /\
  create_mashup "X" (PyInt 10) (PyInt 25) (PyPath.of_str "out")
    = Throw (ValueError "Number of videos must be greater than 10.") /\
  create_mashup "X" PyNone (PyInt 25) (PyPath.of_str "out")
    = Throw (ValueError "Number of videos must be an integer.") /\
  create_mashup "X" (PyString (String (ascii_of_nat 28) "12")) (PyInt 25) (PyPath.of_str "out")
    = Throw (ValueError "Number of videos must be an integer.") /\
  create_mashup "X" (PyString "12") (PyString "-25") (PyPath.of_str "out")
    = Throw (ValueError "Audio duration must be greater than 0.").
Proof. repeat split. Qed.

(** ** Output path *)

Lemma returns_all {A : Type} (P : A -> Prop) (p : Prog A) :
  (forall a, P a) -> returns P p.
Proof. intros H. induction p; simpl; auto. Qed.

(** After a prefix whose value does not matter. *)
Lemma returns_then {A B : Type} (Q : B -> Prop) (p : Prog A) (f : A -> Prog B) :
  (forall a, returns Q (f a)) -> returns Q (bind p f).
Proof. intros H. apply returns_bind. by apply returns_all. Qed.

Lemma rfind_dot_mp3 (base : string) :
  PyStr.rfind "." (base ++ ".mp3") = Some (String.length base).
Proof. induction base as [|a b IH]; simpl; [reflexivity|]. by rewrite IH. Qed.

Lemma length_append_mp3 (base : string) :
  String.length (base ++ ".mp3") = (String.length base + 4)%nat.
Proof. induction base as [|a b IH]; simpl; [reflexivity|]. by rewrite IH. Qed.

Lemma drop_length_append (base s : string) : PyStr.drop (String.length base) (base ++ s) = s.
Proof. induction base as [|a b IH]; simpl; [by destruct s|exact IH]. Qed.

Lemma take_length_append (base s : string) : PyStr.take (String.length base) (base ++ s) = base.
Proof. induction base as [|a b IH]; simpl; [by destruct s|by rewrite IH]. Qed.

Lemma suffix_index_mp3 (base : string) :
  base <> "" -> PyPath.suffix_index (base ++ ".mp3") = Some (String.length base).
Proof.
  intros Hne. unfold PyPath.suffix_index. rewrite rfind_dot_mp3, length_append_mp3.
  assert (H0 : (0 <? String.length base)%nat = true).
  { destruct base; [done|]. apply Nat.ltb_lt. simpl. lia. }
  assert (H1 : (String.length base <? String.length base + 4 - 1)%nat = true)
    by (apply Nat.ltb_lt; lia).
  by rewrite H0, H1.
Qed.

Lemma suffix_of_name_mp3 (base : string) :
  base <> "" -> PyPath.suffix_of_name (base ++ ".mp3") = ".mp3".
Proof.
  intros Hne. unfold PyPath.suffix_of_name.
  rewrite (suffix_index_mp3 _ Hne). apply drop_length_append.
Qed.

Lemma stem_of_name_mp3 (base : string) :
  base <> "" -> PyPath.stem_of_name (base ++ ".mp3") = base.
Proof.
  intros Hne. unfold PyPath.stem_of_name.
  rewrite (suffix_index_mp3 _ Hne). apply take_length_append.
Qed.

Lemma take_nonempty (i : nat) (s : string) :
  (0 < i)%nat -> s <> "" -> PyStr.take i s <> "".
Proof. destruct i; [lia|]. destruct s; [done|]. simpl. discriminate. Qed.

Lemma stem_of_name_nonempty (nm : string) : nm <> "" -> PyPath.stem_of_name nm <> "".
Proof.
  intros Hne. unfold PyPath.stem_of_name, PyPath.suffix_index.
  destruct (PyStr.rfind "." nm) as [i|]; [|done].
  destruct (0 <? i)%nat eqn:Hi; simpl; [|done].
  destruct (i <? String.length nm - 1)%nat; [|done].
  apply take_nonempty; [by apply Nat.ltb_lt|done].
Qed.

Lemma last_snoc (l : list string) (x d : string) : List.last (l ++ [x]) d = x.
Proof. induction l as [|a l IH]; [reflexivity|]. simpl. rewrite IH. by destruct l. Qed.

(** What [with_suffix(".mp3")] gives on a path that has a name. *)
Lemma with_suffix_mp3 (p : Path) :
  PyPath.name p <> "" ->
  exists q, PyPath.with_suffix p ".mp3" = Ok q /\
            PyPath.name q = PyPath.stem p ++ ".mp3" /\
            PyPath.suffix q = ".mp3" /\
            PyPath.stem q = PyPath.stem p /\
            PyPath.parent q = PyPath.parent p.
Proof.
  intros Hname. unfold PyPath.with_suffix. simpl.
  destruct (String.eqb_spec (PyPath.name p) "") as [E|_]; [contradiction|].
  eexists; split; [reflexivity|].
  assert (Hn : PyPath.name {| root := root p;
               parts := removelast (parts p) ++ [PyPath.stem_of_name (PyPath.name p) ++ ".mp3"] |}
               = PyPath.stem p ++ ".mp3").
  { unfold PyPath.name at 1. simpl. apply last_snoc. }
  pose proof (stem_of_name_nonempty _ Hname) as Hstem.
  split; [exact Hn|].
  split; [unfold PyPath.suffix; rewrite Hn; by apply suffix_of_name_mp3|].
  split; [unfold PyPath.stem at 1; rewrite Hn; by apply stem_of_name_mp3|].
  unfold PyPath.parent. simpl. by rewrite removelast_last.
Qed.

Lemma returns_merge_audios (trimmed_paths : list Path) (output_path : Path) :
  returns (fun r => r = output_path) (merge_audios trimmed_paths output_path).
Proof.
  unfold merge_audios. apply returns_then. intros ffmpeg_path.
  destruct trimmed_paths; [exact I|].
  do 3 (apply returns_then; intros ?). reflexivity.
Qed.

(** [create_mashup] returns the normalized output path, when it returns. *)
Lemma returns_create_mashup (singer : string) (n_videos clip_seconds : PyVal) (output_path : Path) :
  returns (fun r => normalize_output_path output_path = Ok r)
    (create_mashup singer n_videos clip_seconds output_path).
Proof.
  unfold create_mashup.
  do 3 (apply returns_then; intros ?).
  destruct (normalize_output_path output_path) as [q|e]; cbn [lift bind]; [|exact I].
  apply returns_then. intros _.
  unfold with_temporary_directory. apply returns_then. intros temp_root.
  apply returns_try_finally.
  do 3 (apply returns_then; intros ?).
  apply returns_bind.
  eapply returns_weaken; [|apply returns_merge_audios].
  intros r ->. reflexivity.
Qed.

Lemma create_mashup_result {W : Type} (handle : Handler W) singer n_videos clip_seconds
  output_path env w r :
  outcome (exec handle (create_mashup singer n_videos clip_seconds output_path) env w) = Ok r ->
  normalize_output_path output_path = Ok r.
Proof.
  intros Hrun.
  exact (returns_exec handle (fun r => normalize_output_path output_path = Ok r) _ env w r
           (returns_create_mashup singer n_videos clip_seconds output_path) Hrun).
Qed.

Example normalize_output_path_examples :
  normalize_output_path (PyPath.of_str "out") = Ok (PyPath.of_str "out.mp3") /\
  PyPath.str (PyPath.of_str "out.mp3") = "out.mp3" /\
  normalize_output_path (PyPath.of_str "music/out.wav") = Ok (PyPath.of_str "music/out.mp3") /\
  normalize_output_path (PyPath.of_str "/tmp/a.b/mix.tar.gz")
    = Ok (PyPath.of_str "/tmp/a.b/mix.tar.mp3") /\
  normalize_output_path (PyPath.of_str ".hidden") = Ok (PyPath.of_str ".hidden.mp3") /\
  normalize_output_path (PyPath.of_str "out.mp3") = Ok (PyPath.of_str "out.mp3") /\
  normalize_output_path (PyPath.of_str "//srv/out") = Ok (PyPath.of_str "//srv/out.mp3") /\
  normalize_output_path (PyPath.of_str "")
    = Err (ValueError "PosixPath('.') has an empty name") /\
  normalize_output_path (PyPath.of_str "/")
    = Err (ValueError "PosixPath('/') has an empty name").
Proof. repeat split. Qed.

(** C9. The extension test of [create_mashup] ignores case: a path whose
    suffix is [.mp3] in lower case is kept as it is, and it is the path
    returned, so the returned suffix is [.mp3] up to case; it need not be
    the lower-case [.mp3], as [out.MP3] shows. *)
Theorem create_mashup_keeps_mp3_in_any_case (output_path : Path) :
  PyStr.lower (PyPath.suffix output_path) = ".mp3" ->
  normalize_output_path output_path = Ok output_path /\
  (forall (W : Type) (handle : Handler W) singer n_videos clip_seconds env w r,
     outcome (exec handle (create_mashup singer n_videos clip_seconds output_path) env w)
       = Ok r ->
     r = output_path /\ PyStr.lower (PyPath.suffix r) = ".mp3") /\
  (exists p, PyStr.lower (PyPath.suffix p) = ".mp3" /\ PyPath.suffix p <> ".mp3" /\
             normalize_output_path p = Ok p).
Proof.
  intros Hsuffix.
  assert (Hnorm : normalize_output_path output_path = Ok output_path).
  { unfold normalize_output_path. by rewrite Hsuffix. }
  split; [exact Hnorm|]. split.
  - intros W handle singer n c env w r Hrun.
    apply create_mashup_result in Hrun.
    assert (r = output_path) as -> by congruence. auto.
  - exists (PyPath.of_str "out.MP3"). repeat split. vm_compute. discriminate.
Qed.

Lemma create_mashup_keeps_mp3_in_any_case_witness :
  PyStr.lower (PyPath.suffix (PyPath.of_str "song.Mp3")) = ".mp3" /\
  PyPath.suffix (PyPath.of_str "song.Mp3") = ".Mp3" /\
  normalize_output_path (PyPath.of_str "song.Mp3") = Ok (PyPath.of_str "song.Mp3").
Proof.
  split; [reflexivity|]. split; [reflexivity|].
  exact (proj1 (create_mashup_keeps_mp3_in_any_case (PyPath.of_str "song.Mp3") eq_refl)).
Defined.

(** ** Backend Locator *)

Lemma lookup_setdefault (key value key' : string) (env : gmap string string) :
  setdefault key value env !! key' =
  if decide (key = key') then Some (default value (env !! key)) else env !! key'.
Proof.
  unfold setdefault. destruct (env !! key) as [v|] eqn:E; case_decide; subst; simpl.
  - exact E.
  - reflexivity.
  - apply lookup_insert_eq.
  - by apply lookup_insert_ne.
Qed.

Lemma setdefault_present (key value : string) (env : gmap string string) :
  is_Some (env !! key) -> setdefault key value env = env.
Proof. intros [v Hv]. unfold setdefault. by rewrite Hv. Qed.

(** A run of [setup_audio_backend], by the answer of the locator. *)
Lemma exec_setup_audio_backend {W : Type} (handle : Handler W) env w :
  exec handle setup_audio_backend env w =
  match handle _ get_ffmpeg_exe env w with
  | (inl e, w') =>
      mkRun (Err (MashupError "Unable to locate or download ffmpeg.")) env w'
        [mkCall get_ffmpeg_exe (inl e)]
  | (inr ffmpeg_path, w') =>
      let env' := backend_environ ffmpeg_path env in
      let ev := log_debug "Using ffmpeg binary at %s" ffmpeg_path in
      mkRun (Ok tt) env' (handle _ ev env' w').2
        [mkCall get_ffmpeg_exe (inr ffmpeg_path); mkCall ev (handle _ ev env' w').1]
  end.
Proof.
  unfold setup_audio_backend. simpl.
  destruct (handle _ get_ffmpeg_exe env w) as [[e|ffmpeg_path] w']; simpl; [reflexivity|].
  unfold backend_environ.
  match goal with |- context [handle _ ?ev ?env' w'] =>
    destruct (handle _ ev env' w') as [[] w''] end.
  reflexivity.
Qed.

Lemma string_length_app (s1 s2 : string) :
  String.length (s1 ++ s2) = (String.length s1 + String.length s2)%nat.
Proof. induction s1 as [|a s IH]; simpl; [reflexivity|]. by rewrite IH. Qed.

Lemma setdefault_keeps (key value key' : string) (env : gmap string string) :
  is_Some (env !! key') -> is_Some (setdefault key value env !! key').
Proof.
  intros H. rewrite lookup_setdefault. case_decide; [eauto|exact H].
Qed.

Lemma setdefault_defines (key value : string) (env : gmap string string) :
  is_Some (setdefault key value env !! key).
Proof. rewrite lookup_setdefault. case_decide; [eauto|contradiction]. Qed.

(** The four variables of the backend are set after a successful call. *)
Lemma backend_environ_defines (ffmpeg_path key : string) (env : gmap string string) :
  key ∈ ["FFMPEG_BINARY"; "FFPROBE_BINARY"; "IMAGEIO_FFMPEG_EXE"; "FFMPEG_LOCATION"] ->
  is_Some (backend_environ ffmpeg_path env !! key).
Proof.
  intros Hkey. unfold backend_environ.
  repeat (apply elem_of_cons in Hkey as [->|Hkey]);
    [ rewrite lookup_insert_ne by done;
      do 3 apply setdefault_keeps; apply setdefault_defines
    | rewrite lookup_insert_ne by done;
      do 2 apply setdefault_keeps; apply setdefault_defines
    | rewrite lookup_insert_ne by done;
      apply setdefault_keeps; apply setdefault_defines
    | rewrite lookup_insert_ne by done; apply setdefault_defines
    | by apply elem_of_nil in Hkey ].
Qed.

(** A second call only prepends the directory of ffmpeg to [PATH] again. *)
Lemma backend_environ_again (path1 path2 : string) (env : gmap string string) :
  let env1 := backend_environ path1 env in
  backend_environ path2 env1 =
  <["PATH" := PyPath.str (PyPath.parent (PyPath.of_str path2)) ++ pathsep
              ++ default "" (env1 !! "PATH")]> env1.
Proof.
  intros env1. unfold backend_environ at 1.
  rewrite (setdefault_present "FFMPEG_BINARY") by (apply backend_environ_defines; set_solver).
  rewrite (setdefault_present "FFPROBE_BINARY") by (apply backend_environ_defines; set_solver).
  rewrite (setdefault_present "IMAGEIO_FFMPEG_EXE") by (apply backend_environ_defines; set_solver).
  rewrite (setdefault_present "FFMPEG_LOCATION") by (apply backend_environ_defines; set_solver).
  reflexivity.
Qed.

Lemma backend_environ_path (ffmpeg_path : string) (env : gmap string string) :
  exists old, backend_environ ffmpeg_path env !! "PATH"
              = Some (PyPath.str (PyPath.parent (PyPath.of_str ffmpeg_path)) ++ pathsep ++ old).
Proof. unfold backend_environ. rewrite lookup_insert_eq. eauto. Qed.

Lemma prepend_changes (dir old : string) : dir ++ pathsep ++ old <> old.
Proof.
  intros H. apply (f_equal String.length) in H.
  rewrite !string_length_app in H. simpl in H. lia.
Qed.

(** C5 (amended). Two successful calls of [setup_audio_backend] in a row:
    each call asks [imageio_ffmpeg] for the executable and returns nothing;
    every variable other than [PATH] has after the second call the value
    it had after the first; [PATH] after the second call is [PATH] after
    the first with the directory of ffmpeg prepended once more, so the
    environment differs. *)
Theorem setup_audio_backend_twice {W : Type} (handle : Handler W)
  (env : gmap string string) (w : W) :
  let r1 := (second_call handle env w).1 in
  let r2 := (second_call handle env w).2 in
  outcome r1 = Ok tt -> outcome r2 = Ok tt ->
  exists path1 path2 old,
    locator_queries (trace r1) = 1%nat /\ locator_queries (trace r2) = 1%nat /\
    (forall key, key <> "PATH" -> environ_after r2 !! key = environ_after r1 !! key) /\
    environ_after r1 !! "PATH"
      = Some (PyPath.str (PyPath.parent (PyPath.of_str path1)) ++ pathsep ++ old) /\
    environ_after r2 !! "PATH"
      = Some (PyPath.str (PyPath.parent (PyPath.of_str path2)) ++ pathsep
              ++ PyPath.str (PyPath.parent (PyPath.of_str path1)) ++ pathsep ++ old) /\
    environ_after r2 <> environ_after r1.
Proof.
  unfold second_call. cbn [fst snd]. rewrite (exec_setup_audio_backend handle env w).
  destruct (handle _ get_ffmpeg_exe env w) as [[e|path1] w1];
    cbn [outcome environ_after world_after trace]; [discriminate|].
  intros _. rewrite exec_setup_audio_backend.
  match goal with |- context [handle _ get_ffmpeg_exe ?env1 ?w1'] =>
    destruct (handle _ get_ffmpeg_exe env1 w1') as [[e|path2] w2] end;
    cbn [outcome environ_after world_after trace]; [discriminate|].
  intros _.
  destruct (backend_environ_path path1 env) as [old Hold].
  exists path1, path2, old.
  rewrite backend_environ_again. simpl. rewrite Hold. simpl.
  split; [reflexivity|]. split; [reflexivity|].
  split; [intros key Hkey; by rewrite lookup_insert_ne|].
  split; [reflexivity|].
  split; [by rewrite lookup_insert_eq|].
  intros Heq. apply (f_equal (fun m : gmap string string => m !! "PATH")) in Heq.
  rewrite lookup_insert_eq, Hold in Heq.
  injection Heq as Heq. by apply prepend_changes in Heq.
Qed.

Lemma setup_audio_backend_twice_witness :
  let r1 := (second_call scripted ∅ calm).1 in
  let r2 := (second_call scripted ∅ calm).2 in
  outcome r1 = Ok tt /\ outcome r2 = Ok tt /\ environ_after r2 <> environ_after r1.
Proof.
  assert (H1 : outcome (second_call scripted ∅ calm).1 = Ok tt) by reflexivity.
  assert (H2 : outcome (second_call scripted ∅ calm).2 = Ok tt) by reflexivity.
  split; [exact H1|]. split; [exact H2|].
  destruct (setup_audio_backend_twice scripted ∅ calm H1 H2)
    as (path1 & path2 & old & _ & _ & _ & _ & _ & Hne).
  exact Hne.
Defined.

(** C5, as stated, fails: with ffmpeg at [/opt/ffmpeg/bin/ffmpeg] and
    [PATH=/usr/bin], the first call leaves [PATH=/opt/ffmpeg/bin:/usr/bin]
    and the second [PATH=/opt/ffmpeg/bin:/opt/ffmpeg/bin:/usr/bin]; the
    locator was asked twice. *)
Lemma setup_audio_backend_not_idempotent :
  let env := {["PATH" := "/usr/bin"]} : gmap string string in
  let r1 := (second_call scripted env calm).1 in
  let r2 := (second_call scripted env calm).2 in
  (outcome r1 = Ok tt /\ outcome r2 = Ok tt /\
   environ_after r1 !! "PATH" = Some "/opt/ffmpeg/bin:/usr/bin" /\
   environ_after r2 !! "PATH" = Some "/opt/ffmpeg/bin:/opt/ffmpeg/bin:/usr/bin" /\
   locator_queries (trace r1 ++ trace r2) = 2%nat) /\
  ~ backend_idempotent scripted env calm.
Proof.
  intros env r1 r2.
  assert (H : outcome r1 = Ok tt /\ outcome r2 = Ok tt /\
              environ_after r1 !! "PATH" = Some "/opt/ffmpeg/bin:/usr/bin" /\
              environ_after r2 !! "PATH" = Some "/opt/ffmpeg/bin:/opt/ffmpeg/bin:/usr/bin" /\
              locator_queries (trace r1 ++ trace r2) = 2%nat).
  { vm_compute. repeat split. }
  split; [exact H|].
  destruct H as (H1 & H2 & H3 & H4 & _).
  intros Hid. pose proof (Hid H1 H2) as Heq.
  fold env r1 r2 in Heq. rewrite Heq, H3 in H4. discriminate.
Qed.

(** ** Stability wait *)

(** *** Rules for [raises_after] *)

Lemma raises_after_exec {W A : Type} (handle : Handler W) (P : option Call -> Exn -> Prop)
  (p : Prog A) prev env w e :
  raises_after P prev p -> outcome (exec handle p env w) = Err e ->
  P (from_option Some prev (last (trace (exec handle p env w)))) e.
Proof.
  revert prev env w.
  induction p as [a'|e'|X ev k IH|key v k IH|key d k IH|key v k IH];
    intros prev env w HP Hrun; simpl in *.
  - discriminate.
  - by simplify_eq.
  - destruct (handle X ev env w) as [x w']. simpl in *.
    specialize (IH x (Some (mkCall ev x)) env w' (HP x) Hrun).
    rewrite last_cons. by destruct (last (trace (exec handle (k x) env w'))).
  - eapply IH; eassumption.
  - eapply IH; [apply HP|exact Hrun].
  - eapply IH; eassumption.
Qed.

Lemma raises_after_bind {A B : Type} (P : option Call -> Exn -> Prop) (p : Prog A)
  (f : A -> Prog B) prev :
  raises_after P prev p -> (forall a prev', raises_after P prev' (f a)) ->
  raises_after P prev (bind p f).
Proof. intros Hp Hf. revert prev Hp. induction p; intros prev Hp; simpl in *; auto. Qed.

(** A handler that catches everything leaves only its own exceptions. *)
Lemma raises_after_try_except_any {A : Type} (P : option Call -> Exn -> Prop) (p : Prog A)
  handler prev :
  (forall e prev', raises_after P prev' (handler e)) ->
  raises_after P prev (try_except p any_exception handler).
Proof. intros Hh. revert prev. induction p; intros prev; simpl in *; auto. Qed.

Lemma raises_after_glob workdir pattern prev :
  raises_after from_glob prev (call (glob workdir pattern)).
Proof. intros [e|matched]; simpl; [|exact I]. eexists. split; reflexivity. Qed.

(** Waiting for the matched file never raises: a failure is logged. *)
Lemma raises_after_accept_when_stable (P : option Call -> Exn -> Prop) target downloaded prev :
  raises_after P prev (accept_when_stable target downloaded).
Proof.
  unfold accept_when_stable. apply raises_after_try_except_any. intros e prev'.
  apply raises_after_bind; [intros x; exact I|]. intros _ prev''. exact I.
Qed.

(** An iteration of the download loop raises only what one of its two
    [glob]s raised, at once. *)
Lemma download_entry_raises workdir ffmpeg_path entry downloaded prev :
  raises_after from_glob prev (download_entry workdir ffmpeg_path entry downloaded).
Proof.
  unfold download_entry.
  destruct (truthy_str (entry !! "webpage_url")) as [url|]; [|exact I].
  destruct (truthy_str (entry !! "id")) as [video_id|]; [|exact I].
  apply raises_after_bind.
  { apply raises_after_try_except_any. intros e prev'.
    apply raises_after_bind; [intros x; exact I|]. intros _ prev''. exact I. }
  intros [|] prev1; [|exact I].
  apply raises_after_bind; [apply raises_after_glob|]. intros matched prev2.
  apply raises_after_bind.
  { destruct matched; [apply raises_after_glob|exact I]. }
  intros [|target ?] prev3; [exact I|].
  apply raises_after_accept_when_stable.
Qed.

Lemma download_entry_outcome {W : Type} (handle : Handler W) workdir ffmpeg_path entry
  downloaded env w e :
  let r := exec handle (download_entry workdir ffmpeg_path entry downloaded) env w in
  outcome r = Err e -> exists c, last (trace r) = Some c /\ glob_raised c = Some e.
Proof.
  intros r Hrun.
  pose proof (raises_after_exec handle from_glob _ None env w e
                (download_entry_raises workdir ffmpeg_path entry downloaded None) Hrun) as H.
  fold r in H. destruct H as (c & Hc & Hg). exists c. split; [|exact Hg].
  by destruct (last (trace r)).
Qed.

Lemma stable_pair_cons (a b : N) (l : list N) :
  stable_pair (a :: b :: l) <-> (a = b /\ a <> 0%N) \/ stable_pair (b :: l).
Proof.
  split.
  - intros (before & size & rest & Heq & Hpos).
    destruct before as [|x before]; simpl in Heq; simplify_eq.
    + left. auto.
    + right. exists before, size, rest. auto.
  - intros [[-> Hpos]|(before & size & rest & Heq & Hpos)].
    + exists [], b, l. auto.
    + exists (a :: before), size, rest. simpl. rewrite Heq. auto.
Qed.

Lemma stable_pair_short (a : N) : ~ stable_pair [a].
Proof.
  intros (before & size & rest & Heq & _).
  apply (f_equal length) in Heq. rewrite length_app in Heq. simpl in Heq. lia.
Qed.

Lemma stable_pair_nil : ~ stable_pair [].
Proof. intros (before & size & rest & Heq & _). by destruct before. Qed.

(** After a size was seen, the loop looks for a stable pair that may start
    with it. *)
Lemma stable_after_seen (a : N) (sizes : list N) :
  stable_after (Z.of_N a) sizes <-> stable_pair (a :: sizes).
Proof.
  revert a. induction sizes as [|b l IH]; intros a; simpl.
  - split; [done|]. intros H. by apply stable_pair_short in H.
  - rewrite stable_pair_cons, IH. split.
    + intros [[Heq Hne]|H]; [left|by right]. apply N2Z.inj in Heq. by subst.
    + intros [[-> Hne]|H]; [left|by right]. done.
Qed.

(** Before any size was seen the loop remembers -1, which no size equals. *)
Lemma stable_after_initial (sizes : list N) :
  stable_after (-1) sizes <-> stable_pair sizes.
Proof.
  destruct sizes as [|a l]; simpl.
  - split; [done|]. intros H. by apply stable_pair_nil in H.
  - rewrite stable_after_seen. split; [intros [[H _]|H]; [lia|exact H]|auto].
Qed.

(** The polling loop against a replayed sequence: it accepts exactly when
    one of the sizes the remaining polls see repeats the size before it,
    the one remembered in [last_size] for the first of them, and is
    nonzero. *)
Lemma wait_for_stable_loop_replay path delay attempts :
  forall last_size obs env,
    outcome (exec replay (wait_for_stable_loop path attempts delay last_size) env obs) = Ok tt
    <-> stable_after last_size (sizes_seen attempts obs).
Proof.
  induction attempts as [|attempts IH]; intros last_size obs env.
  - simpl. split; [discriminate|done].
  - destruct obs as [|[size|] obs].
    + simpl. rewrite IH. unfold sizes_seen. by rewrite !take_nil.
    + simpl.
      destruct ((Z.of_N size =? last_size) && (Z.of_N size >? 0)) eqn:Hacc; simpl.
      * split; [intros _|done]. apply andb_true_iff in Hacc as [H1 H2].
        apply Z.eqb_eq in H1. apply Z.gtb_lt in H2.
        unfold sizes_seen. simpl. left. split; [done|lia].
      * rewrite IH. unfold sizes_seen. simpl.
        split; [auto|]. intros [[Heq Hne]|H]; [|exact H].
        exfalso. apply Z.eqb_eq in Heq. rewrite Heq in Hacc. simpl in Hacc.
        destruct (Z.gtb_spec (Z.of_N size) 0); [discriminate|lia].
    + simpl. rewrite IH. reflexivity.
Qed.

(** What the loop does with the file it matched, by the outcome of the
    stability wait. *)
Lemma exec_accept_when_stable {W : Type} (handle : Handler W) target downloaded env w :
  outcome (exec handle (accept_when_stable target downloaded) env w) =
  match outcome (exec handle (_wait_for_stable target stable_attempts stable_delay) env w) with
  | Ok _ => Ok (downloaded ++ [target])%list
  | Err _ => Ok downloaded
  end.
Proof.
  unfold accept_when_stable. rewrite outcome_try_except, outcome_bind.
  destruct (outcome (exec handle (_wait_for_stable target stable_attempts stable_delay) env w))
    as [[]|e]; [reflexivity|].
  cbn [any_exception]. apply outcome_ask_ret.
Qed.

(** An iteration leaves the list as it was or appends one file. *)
Lemma returns_download_entry workdir ffmpeg_path entry downloaded :
  returns (fun res => res = downloaded \/ exists target, res = (downloaded ++ [target])%list)
    (download_entry workdir ffmpeg_path entry downloaded).
Proof.
  unfold download_entry.
  destruct (truthy_str (entry !! "webpage_url")) as [url|]; [|by left].
  destruct (truthy_str (entry !! "id")) as [video_id|]; [|by left].
  apply returns_then. intros [|]; [|by left].
  do 2 (apply returns_then; intros ?).
  match goal with |- returns _ (match ?m with _ => _ end) => destruct m as [|target ?] end;
    [by left|].
  unfold accept_when_stable. apply returns_try_except.
  - apply returns_then. intros _. right. eauto.
  - intros e. apply returns_then. intros _. by left.
Qed.

(** C4. The stability wait accepts a file exactly when, among the sizes
    observed by its polls within the attempt budget, two consecutive ones
    are equal and nonzero.  A file that does not stabilize is skipped: the
    wait's exception is caught and logged and the list of downloads stays as
    it was.  So an iteration of the download loop returns the list as it was
    or with one file more; the only exception that leaves it is the one a
    [glob] of lines 143-145 raised, as the last call of the iteration. *)
Theorem wait_for_stable_accepts_iff (path : Path) (attempts : nat) (delay : Z)
  (obs : list (option N)) (env : gmap string string) :
  (outcome (exec replay (_wait_for_stable path attempts delay) env obs) = Ok tt
   <-> stable_pair (sizes_seen attempts obs)) /\
  (forall (W : Type) (handle : Handler W) (target : Path) (downloaded : list Path) env' w,
     outcome (exec handle (accept_when_stable target downloaded) env' w) =
     match outcome (exec handle (_wait_for_stable target stable_attempts stable_delay) env' w)
     with
     | Ok _ => Ok (downloaded ++ [target])%list
     | Err _ => Ok downloaded
     end) /\
  (forall (W : Type) (handle : Handler W) workdir ffmpeg_path entry downloaded env' w,
     let r := exec handle (download_entry workdir ffmpeg_path entry downloaded) env' w in
     match outcome r with
     | Ok downloaded' =>
         downloaded' = downloaded \/ exists target, downloaded' = (downloaded ++ [target])%list
     | Err e => exists c, last (trace r) = Some c /\ glob_raised c = Some e
     end).
Proof.
  split; [|split].
  - unfold _wait_for_stable. rewrite wait_for_stable_loop_replay.
    apply stable_after_initial.
  - intros. apply exec_accept_when_stable.
  - intros W handle workdir ffmpeg_path entry downloaded env' w r.
    destruct (outcome r) as [downloaded'|e] eqn:E.
    + exact (returns_exec handle _ _ env' w downloaded'
               (returns_download_entry workdir ffmpeg_path entry downloaded) E).
    + by apply download_entry_outcome.
Qed.

Example wait_for_stable_examples :
  let p := PyPath.of_str "/tmp/dl/a.mp3" in
  let run obs := outcome (exec replay (_wait_for_stable p stable_attempts stable_delay) ∅ obs) in
  run [Some 10; Some 20; Some 20]%N = Ok tt /\
  run [Some 10; None; Some 10]%N = Ok tt /\
  run [Some 0; Some 0; Some 0]%N = Err (MashupError "File did not stabilize: /tmp/dl/a.mp3") /\
  run [Some 1; Some 2; Some 3; Some 4]%N = Err (MashupError "File did not stabilize: /tmp/dl/a.mp3") /\
  run (replicate 20 None ++ [Some 5%N; Some 5%N])%list
    = Err (MashupError "File did not stabilize: /tmp/dl/a.mp3") /\
  run (replicate 18 None ++ [Some 5%N; Some 5%N])%list = Ok tt.
Proof. vm_compute. repeat split. Qed.

(** A file that keeps growing is skipped with a warning, and the iteration
    returns the list as it was. *)
Example download_entry_unstable_file :
  let w := mkWorld (inr "/opt/ffmpeg/bin/ffmpeg") [] [] [] ["/tmp/dl/v1.mp3"] [] [] false 1 in
  let r := exec scripted (download_entry (PyPath.of_str "/tmp/dl") "ffmpeg" (candidate 1) [])
             ∅ w in
  outcome r = Ok [] /\
  last (trace r)
  = Some (mkCall (log_warning "Skipping locked/unready file %s: %s" "/tmp/dl/v1.mp3"
                    (MashupError "File did not stabilize: /tmp/dl/v1.mp3")) tt).
Proof. vm_compute. split; reflexivity. Qed.

(** ** Clip Trimmer *)

Lemma returns_trim_one ffmpeg_path clip_seconds target_dir path :
  returns (fun t => t = trimmed_path_of target_dir path)
    (trim_one ffmpeg_path clip_seconds target_dir path).
Proof. unfold trim_one. do 2 (apply returns_then; intros ?). reflexivity. Qed.

(** One iteration of the trimming loop, by the outcome of [trim_one]. *)
Lemma exec_trim_step {W : Type} (handle : Handler W) ffmpeg_path clip_seconds target_dir
  path trimmed_files env w :
  let r := exec handle (trim_one ffmpeg_path clip_seconds target_dir path) env w in
  let s := exec handle (trim_step ffmpeg_path clip_seconds target_dir path trimmed_files) env w in
  match outcome r with
  | Ok _ =>
      outcome s = Ok (trimmed_files ++ [trimmed_path_of target_dir path])%list /\
      environ_after s = environ_after r /\ world_after s = world_after r
  | Err exc =>
      let r' := exec handle
                  (ask (log_warning "Skipping locked/unreadable file %s: %s"
                          (PyPath.str path) exc))
                  (environ_after r) (world_after r) in
      outcome s = Ok trimmed_files /\
      environ_after s = environ_after r' /\ world_after s = world_after r'
  end.
Proof.
  intros r s. subst s. unfold trim_step.
  rewrite exec_try_except, exec_bind. fold r. cbn zeta.
  destruct (outcome r) as [t|exc] eqn:E; cbn [outcome after ending any_exception].
  - assert (t = trimmed_path_of target_dir path) as ->.
    { exact (returns_exec handle _ _ env w t
               (returns_trim_one ffmpeg_path clip_seconds target_dir path) E). }
    auto.
  - rewrite exec_bind. cbn zeta. simpl.
    destruct (handle _ _ (environ_after r) (world_after r)) as [[] w']. simpl. auto.
Qed.

Lemma kept_sublist {A : Type} (flags : list bool) (l : list A) : kept flags l `sublist_of` l.
Proof.
  revert flags. induction l as [|x l IH]; intros [|[] flags]; simpl;
    try apply sublist_nil_l.
  - by apply sublist_skip.
  - by apply sublist_cons.
Qed.

Lemma kept_length {A : Type} (flags : list bool) (l : list A) :
  length flags = length l -> length (kept flags l) = length (List.filter id flags).
Proof.
  revert l. induction flags as [|[] flags IH]; intros [|x l] Hlen; simpl in *;
    try discriminate; auto.
Qed.

Lemma trim_successes_length {W : Type} (handle : Handler W) ffmpeg_path clip_seconds
  target_dir audio_paths :
  forall env w,
    length (trim_successes handle ffmpeg_path clip_seconds target_dir audio_paths env w)
    = length audio_paths.
Proof.
  induction audio_paths as [|path rest IH]; intros env w; simpl; [reflexivity|].
  destruct (outcome _); simpl; by rewrite IH.
Qed.

(** The loop appends, in order, the clips of the files that succeeded. *)
Lemma exec_trim_loop {W : Type} (handle : Handler W) ffmpeg_path clip_seconds target_dir
  audio_paths :
  forall trimmed_files env w,
    outcome (exec handle
               (trim_loop ffmpeg_path clip_seconds target_dir audio_paths trimmed_files) env w)
    = Ok (trimmed_files ++
          map (trimmed_path_of target_dir)
            (kept (trim_successes handle ffmpeg_path clip_seconds target_dir audio_paths env w)
               audio_paths))%list.
Proof.
  induction audio_paths as [|path rest IH]; intros trimmed_files env w.
  - simpl. by rewrite app_nil_r.
  - cbn [trim_loop trim_successes]. rewrite outcome_bind.
    pose proof (exec_trim_step handle ffmpeg_path clip_seconds target_dir path
                  trimmed_files env w) as Hstep.
    cbn zeta in Hstep.
    destruct (outcome (exec handle (trim_one ffmpeg_path clip_seconds target_dir path) env w))
      as [t|exc].
    + destruct Hstep as (-> & -> & ->). rewrite IH. simpl. by rewrite <- app_assoc.
    + destruct Hstep as (-> & -> & ->). rewrite IH. reflexivity.
Qed.

(** C3. Once the target directory exists and ffmpeg is located, the output
    of [trim_audios] is the list of the clips of the input files whose
    trimming succeeded, in the order of the input: the surviving files are
    a subsequence of the input, there is one clip per success, and nothing
    is reordered.  When no file survives, [MashupError] is raised. *)
Theorem trim_audios_keeps_order {W : Type} (handle : Handler W) (audio_paths : list Path)
  (clip_seconds : Z) (target_dir : Path) (env : gmap string string) (w : W)
  (ffmpeg_path : string) :
  let r0 := exec handle (trim_prelude target_dir) env w in
  outcome r0 = Ok ffmpeg_path ->
  let flags := trim_successes handle ffmpeg_path clip_seconds target_dir audio_paths
                 (environ_after r0) (world_after r0) in
  let survivors := kept flags audio_paths in
  length flags = length audio_paths /\
  survivors `sublist_of` audio_paths /\
  length survivors = length (List.filter id flags) /\
  outcome (exec handle (trim_audios audio_paths clip_seconds target_dir) env w) =
    match survivors with
    | [] => Err (MashupError "No audio files were trimmed.")
    | _ => Ok (map (trimmed_path_of target_dir) survivors)
    end.
Proof.
  intros r0 Hpre flags survivors.
  assert (Hlen : length flags = length audio_paths) by apply trim_successes_length.
  split; [exact Hlen|]. split; [apply kept_sublist|]. split; [by apply kept_length|].
  unfold trim_audios. rewrite outcome_bind. fold r0. rewrite Hpre.
  rewrite outcome_bind, exec_trim_loop. fold flags survivors. simpl.
  by destruct survivors.
Qed.

Lemma trim_audios_keeps_order_witness :
  let dir := PyPath.of_str "/tmp/trimmed" in
  let paths := PyPath.of_str <$> ["/tmp/dl/a.mp3"; "/tmp/dl/b.mp3"; "/tmp/dl/c.mp3"] in
  outcome (exec scripted (trim_prelude dir) ∅ trim_world) = Ok "/opt/ffmpeg/bin/ffmpeg" /\
  outcome (exec scripted (trim_audios paths 25 dir) ∅ trim_world)
  = Ok (PyPath.of_str <$> ["/tmp/trimmed/a_trimmed.mp3"; "/tmp/trimmed/c_trimmed.mp3"]).
Proof.
  intros dir paths.
  assert (H : outcome (exec scripted (trim_prelude dir) ∅ trim_world)
              = Ok "/opt/ffmpeg/bin/ffmpeg") by reflexivity.
  split; [exact H|].
  destruct (trim_audios_keeps_order scripted paths 25 dir ∅ trim_world _ H)
    as (_ & _ & _ & Hout).
  rewrite Hout. vm_compute. reflexivity.
Defined.

Example trim_audios_examples :
  let dir := PyPath.of_str "/tmp/trimmed" in
  let run l := outcome (exec scripted (trim_audios (PyPath.of_str <$> l) 25 dir) ∅ trim_world) in
  run ["/tmp/dl/a.mp3"; "/tmp/dl/b.mp3"; "/tmp/dl/c.mp3"]
    = Ok (PyPath.of_str <$> ["/tmp/trimmed/a_trimmed.mp3"; "/tmp/trimmed/c_trimmed.mp3"]) /\
  run ["/tmp/dl/c.mp3"; "/tmp/dl/d.mp3"; "/tmp/dl/a.mp3"; "/tmp/dl/a.mp3"]
    = Ok (PyPath.of_str <$> ["/tmp/trimmed/c_trimmed.mp3"; "/tmp/trimmed/a_trimmed.mp3";
                             "/tmp/trimmed/a_trimmed.mp3"]) /\
  run ["/tmp/dl/b.mp3"; "/tmp/dl/d.mp3"] = Err (MashupError "No audio files were trimmed.") /\
  run [] = Err (MashupError "No audio files were trimmed.").
Proof. vm_compute. repeat split. Qed.

(** ** Audio Fetcher *)

(** The loop never collects more than the target, unless it started above it. *)
Lemma returns_download_loop n_videos workdir ffmpeg_path candidates :
  forall downloaded,
    returns (fun res => Z.of_nat (length res) <= Z.max n_videos (Z.of_nat (length downloaded)))
      (download_loop n_videos workdir ffmpeg_path candidates downloaded).
Proof.
  induction candidates as [|entry rest IH]; intros downloaded; simpl; [lia|].
  destruct (Z.geb_spec (Z.of_nat (length downloaded)) n_videos) as [Hge|Hlt]; simpl; [lia|].
  apply returns_bind.
  eapply returns_weaken; [|apply returns_download_entry].
  intros res Hres. eapply returns_weaken; [|apply IH].
  intros res' Hres'. simpl in Hres'.
  destruct Hres as [->|[target ->]]; [lia|].
  rewrite length_app in Hres'. simpl in Hres'. lia.
Qed.

(** The loop raises only what a [glob] raised, at once. *)
Lemma download_loop_raises n_videos workdir ffmpeg_path candidates :
  forall downloaded prev,
    raises_after from_glob prev
      (download_loop n_videos workdir ffmpeg_path candidates downloaded).
Proof.
  induction candidates as [|entry rest IH]; intros downloaded prev; simpl; [exact I|].
  destruct (Z.of_nat (length downloaded) >=? n_videos); [exact I|].
  apply raises_after_bind; [apply download_entry_raises|]. intros res prev'. apply IH.
Qed.

Lemma download_loop_outcome {W : Type} (handle : Handler W) n_videos workdir ffmpeg_path
  candidates downloaded env w e :
  let r := exec handle (download_loop n_videos workdir ffmpeg_path candidates downloaded)
             env w in
  outcome r = Err e -> exists c, last (trace r) = Some c /\ glob_raised c = Some e.
Proof.
  intros r Hrun.
  pose proof (raises_after_exec handle from_glob _ None env w e
                (download_loop_raises n_videos workdir ffmpeg_path candidates downloaded None)
                Hrun) as H.
  fold r in H. destruct H as (c & Hc & Hg). exists c. split; [|exact Hg].
  by destruct (last (trace r)).
Qed.

Lemma returns_download_audio_from_search singer n_videos workdir :
  0 <= n_videos ->
  returns (fun files => Z.of_nat (length files) = n_videos)
    (download_audio_from_search singer n_videos workdir).
Proof.
  intros Hn. unfold download_audio_from_search. apply returns_then. intros candidates.
  destruct candidates as [|c cs]; [exact I|].
  unfold download_candidates. apply returns_then. intros ffmpeg_path.
  apply returns_bind.
  eapply returns_weaken; [|apply returns_download_loop].
  intros res Hres. simpl in Hres.
  destruct (Z.ltb_spec (Z.of_nat (length res)) n_videos); simpl; [exact I|lia].
Qed.

(** C1 (amended). For a target [n_videos >= 0]: whenever
    [download_audio_from_search] returns, it returns exactly [n_videos]
    files.  When the search finds no candidate it raises
    [MashupError "No videos found ..."].  When the search finds candidates
    and ffmpeg is located, the loop over them either ends with at most
    [n_videos] files, and then the function raises
    [MashupError "Downloaded only k of n ..."] when the loop collected
    [k < n_videos] files and returns the collected files otherwise; or the
    loop is left by the exception a [glob] raised, which no handler catches
    and the function raises as it is. *)
Theorem download_audio_from_search_count {W : Type} (handle : Handler W) (singer : string)
  (n_videos : Z) (workdir : Path) (env : gmap string string) (w : W) :
  0 <= n_videos ->
  let r := exec handle (download_audio_from_search singer n_videos workdir) env w in
  let r0 := exec handle (download_prelude singer n_videos workdir) env w in
  (forall files, outcome r = Ok files -> Z.of_nat (length files) = n_videos) /\
  (outcome r0 = Ok [] ->
   outcome r = Err (MashupError "No videos found for the provided singer name.")) /\
  (forall candidates ffmpeg_path,
     candidates <> [] -> outcome r0 = Ok candidates ->
     let r1 := exec handle (call get_ffmpeg_exe) (environ_after r0) (world_after r0) in
     outcome r1 = Ok ffmpeg_path ->
     let r2 := exec handle (download_loop n_videos workdir ffmpeg_path candidates [])
                 (environ_after r1) (world_after r1) in
     match outcome r2 with
     | Ok downloaded =>
         Z.of_nat (length downloaded) <= n_videos /\
         outcome r =
           if Z.of_nat (length downloaded) <? n_videos
           then Err (MashupError (downloaded_only_message (length downloaded) n_videos))
           else Ok downloaded
     | Err e =>
         outcome r = Err e /\
         exists c, last (trace r2) = Some c /\ glob_raised c = Some e
     end).
Proof.
  intros Hn r r0. split; [|split].
  - intros files Hrun.
    exact (returns_exec handle _ _ env w files
             (returns_download_audio_from_search singer n_videos workdir Hn) Hrun).
  - intros Hnone. subst r. unfold download_audio_from_search.
    rewrite outcome_bind. fold r0. by rewrite Hnone.
  - intros candidates ffmpeg_path Hne Hcands r1 Hff r2.
    assert (Hr : outcome r =
                 match outcome r2 with
                 | Ok downloaded =>
                     if Z.of_nat (length downloaded) <? n_videos
                     then Err (MashupError
                                 (downloaded_only_message (length downloaded) n_videos))
                     else Ok downloaded
                 | Err e => Err e
                 end).
    { subst r. unfold download_audio_from_search.
      rewrite outcome_bind. fold r0. rewrite Hcands.
      destruct candidates as [|c cs]; [contradiction|].
      unfold download_candidates. rewrite outcome_bind. fold r1. rewrite Hff.
      rewrite outcome_bind. fold r2.
      destruct (outcome r2) as [downloaded|e]; [|reflexivity].
      by destruct (Z.of_nat (length downloaded) <? n_videos). }
    destruct (outcome r2) as [downloaded|e] eqn:Hloop.
    + split; [|exact Hr].
      pose proof (returns_exec handle _ _ _ _ downloaded
                    (returns_download_loop n_videos workdir ffmpeg_path candidates []) Hloop)
        as H. simpl in H. lia.
    + split; [exact Hr|]. by apply download_loop_outcome.
Qed.

Lemma download_audio_from_search_count_witness :
  let dir := PyPath.of_str "/tmp/mashup_0/downloads" in
  0 <= 5 /\
  forall files,
    outcome (exec scripted (download_audio_from_search "Test Singer" 5 dir) ∅ (search_world 20))
      = Ok files ->
    Z.of_nat (length files) = 5.
Proof.
  intros dir.
  assert (H : 0 <= 5) by lia.
  split; [exact H|].
  exact (proj1 (download_audio_from_search_count scripted "Test Singer" 5 dir ∅
                  (search_world 20) H)).
Defined.

(** Twenty candidates of which every third fails, five requested: five
    files come back, in rank order, after seven candidates were tried. *)
Example download_five_of_twenty :
  let dir := PyPath.of_str "/tmp/mashup_0/downloads" in
  let r := exec scripted (download_audio_from_search "Test Singer" 5 dir) ∅ (search_world 20) in
  outcome r = Ok (PyPath.of_str <$> ["/tmp/mashup_0/downloads/v1.mp3";
                                     "/tmp/mashup_0/downloads/v2.mp3";
                                     "/tmp/mashup_0/downloads/v4.mp3";
                                     "/tmp/mashup_0/downloads/v5.mp3";
                                     "/tmp/mashup_0/downloads/v7.mp3"]) /\
  download_attempts (trace r) = 7%nat.
Proof. vm_compute. split; reflexivity. Qed.

Example download_too_few :
  let dir := PyPath.of_str "/tmp/mashup_0/downloads" in
  outcome (exec scripted (download_audio_from_search "Test Singer" 11 dir) ∅ (search_world 12))
  = Err (MashupError ("Downloaded only 8 of 11 requested videos. "
                      ++ "Try again with a smaller number or a different singer.")).
Proof. vm_compute. reflexivity. Qed.

(** C1, as stated, fails.  When the search finds nothing, the error is
    ["No videos found ..."]: fewer files than the target were collected,
    yet the error raised is not the one that reports how many of how many
    were obtained. *)
Lemma download_audio_from_search_contract_fails :
  let dir := PyPath.of_str "/tmp/mashup_0/downloads" in
  outcome (exec scripted (download_audio_from_search "Test Singer" 11 dir) ∅ (search_world 0))
   = Err (MashupError "No videos found for the provided singer name.") /\
  ~ fetcher_contract scripted "Test Singer" 11 dir ∅ (search_world 0).
Proof.
  intros dir.
  assert (H1 : outcome (exec scripted (download_audio_from_search "Test Singer" 11 dir) ∅
                          (search_world 0))
               = Err (MashupError "No videos found for the provided singer name."))
    by (vm_compute; reflexivity).
  split; [assumption|]. unfold fetcher_contract.
  rewrite H1. intros (got & _ & Hmsg). unfold downloaded_only_message in Hmsg.
  simpl in Hmsg. discriminate.
Qed.

(** ** Mashup Assembler *)

Lemma emits_exec {W A : Type} (handle : Handler W) (P : Call -> Prop) (p : Prog A) env w :
  emits P p -> Forall P (trace (exec handle p env w)).
Proof.
  revert env w.
  induction p as [a|e|X ev k IH|key v k IH|key d k IH|key v k IH]; intros env w HP; simpl in *;
    auto.
  destruct (handle X ev env w) as [x w']. simpl.
  destruct (HP x) as [Hx Hk]. constructor; [exact Hx|by apply IH].
Qed.

Lemma emits_bind {A B : Type} (P : Call -> Prop) (p : Prog A) (f : A -> Prog B) :
  emits P p -> (forall a, emits P (f a)) -> emits P (bind p f).
Proof.
  intros Hp Hf. induction p; simpl in *; auto.
  intros x. destruct (Hp x). auto.
Qed.

Lemma emits_try_finally {A : Type} (P : Call -> Prop) (p : Prog A) cleanup :
  emits P p -> emits P cleanup -> emits P (try_finally p cleanup).
Proof.
  intros Hp Hc. induction p; simpl in *; auto.
  - apply emits_bind; [exact Hc|]. intros _. exact I.
  - apply emits_bind; [exact Hc|]. intros _. exact I.
  - intros x. destruct (Hp x). auto.
Qed.

Lemma emits_call {X : Type} (P : Call -> Prop) (ev : Event (Exn + X)) :
  (forall x, P (mkCall ev x)) -> emits P (call ev).
Proof. intros H x. split; [apply H|]. by destruct x. Qed.

Lemma emits_call_os {X : Type} (P : Call -> Prop) (ev : Event (OSErr + X)) :
  (forall x, P (mkCall ev x)) -> emits P (call_os ev).
Proof. intros H x. split; [apply H|]. by destruct x. Qed.

(** Nothing before the concatenation runs a subprocess. *)
Lemma merge_setup_quiet trimmed_list output_path :
  emits (fun c => call_subprocess c = None) (merge_setup trimmed_list output_path).
Proof.
  unfold merge_setup.
  apply emits_bind; [by apply emits_call|]. intros ffmpeg_path.
  apply emits_bind; [by apply emits_call_os|]. intros _.
  apply emits_bind; [|intros; exact I].
  unfold make_manifest.
  apply emits_bind; [by apply emits_call_os|]. intros list_file.
  apply emits_try_finally; [|by apply emits_call_os].
  apply emits_bind; [|intros; exact I].
  induction trimmed_list as [|path rest IH]; simpl; [exact I|].
  intros x. split; [reflexivity|]. destruct x as [k|resolved]; simpl; [exact I|].
  intros y. split; [reflexivity|]. destruct y as [k|[]]; simpl; [exact I|]. exact IH.
Qed.

(** The concatenation and what follows it. *)
Lemma exec_concat_and_cleanup {W : Type} (handle : Handler W) ffmpeg_path list_path
  output_path env w :
  let cmd := concat_cmd ffmpeg_path list_path output_path in
  let answer := (handle _ (subprocess_run cmd) env w).1 in
  let w1 := (handle _ (subprocess_run cmd) env w).2 in
  let u := (handle _ (unlink list_path) env w1).1 in
  let w2 := (handle _ (unlink list_path) env w1).2 in
  exec handle (concat_and_cleanup ffmpeg_path list_path output_path ;; Ret output_path) env w
  = mkRun (match answer with inl e => Err e | inr _ => Ok output_path end) env w2
      [mkCall (subprocess_run cmd) answer; mkCall (unlink list_path) u].
Proof.
  intros cmd answer w1 u w2. subst cmd answer w1 u w2. unfold concat_and_cleanup. simpl.
  destruct (handle _ (subprocess_run _) env w) as [[e|[]] w1]; simpl;
    destruct (handle _ (unlink list_path) env w1) as [[k|[]] w2]; reflexivity.
Qed.

(** [merge_audios] on a non-empty list: the setup, then the concatenation
    and its cleanup. *)
Lemma exec_merge_audios {W : Type} (handle : Handler W) trimmed_paths output_path env w :
  trimmed_paths <> [] ->
  let s := exec handle (merge_setup trimmed_paths output_path) env w in
  exec handle (merge_audios trimmed_paths output_path) env w =
  match outcome s with
  | Ok (ffmpeg_path, list_path) =>
      after s (exec handle
                 (concat_and_cleanup ffmpeg_path list_path output_path ;; Ret output_path)
                 (environ_after s) (world_after s))
  | Err e => ending s (Err e)
  end.
Proof.
  intros Hne s. subst s. destruct trimmed_paths as [|p ps]; [contradiction|].
  unfold merge_audios, merge_setup.
  rewrite !(exec_bind handle (call get_ffmpeg_exe)). cbn zeta.
  destruct (exec handle (call get_ffmpeg_exe) env w) as [[ffmpeg_path|e] env1 w1 t1];
    cbn [outcome environ_after world_after]; [|reflexivity].
  rewrite !(exec_bind handle (call_os (mkdir _))). cbn zeta.
  destruct (exec handle (call_os (mkdir _)) env1 w1) as [[[]|e] env2 w2 t2];
    cbn [outcome environ_after world_after]; [|reflexivity].
  rewrite !(exec_bind handle (make_manifest _ _)). cbn zeta.
  destruct (exec handle (make_manifest _ _) env2 w2) as [[list_path|e] env3 w3 t3];
    cbn [outcome environ_after world_after]; [|reflexivity].
  unfold after, ending; simpl. by rewrite !app_nil_r, !app_assoc.
Qed.

Lemma first_match_unique {A : Type} (P : A -> Prop) (l1 : list A) (a : A) (tail : list A) :
  Forall (fun x => ~ P x) l1 -> Forall (fun x => ~ P x) tail ->
  forall before c rest,
    P c -> (l1 ++ a :: tail = before ++ c :: rest)%list ->
    before = l1 /\ c = a /\ rest = tail.
Proof.
  intros Hl1 Htail. induction Hl1 as [|x l1 Hx Hl1 IH]; intros before c rest Hc Heq.
  - destruct before as [|y before]; simpl in Heq.
    + by injection Heq as -> ->.
    + injection Heq as -> ->. exfalso.
      rewrite Forall_app, Forall_cons in Htail. destruct Htail as (_ & Hn & _). by apply Hn.
  - destruct before as [|y before]; simpl in Heq.
    + injection Heq as -> _. contradiction.
    + injection Heq as -> Heq. destruct (IH _ _ _ Hc Heq) as (-> & -> & ->). done.
Qed.

(** C8. For a non-empty clip list: when the setup (ffmpeg, output
    directory, manifest) fails, no concatenation is invoked; when it
    succeeds, the concatenation is invoked and the very next and last
    external call deletes the manifest, whether the concatenation succeeded
    or raised; the outcome is the output path or the exception of the
    concatenation, whatever the deletion answered. *)
Theorem merge_audios_removes_manifest {W : Type} (handle : Handler W)
  (trimmed_paths : list Path) (output_path : Path) (env : gmap string string) (w : W) :
  trimmed_paths <> [] ->
  let r := exec handle (merge_audios trimmed_paths output_path) env w in
  let s := exec handle (merge_setup trimmed_paths output_path) env w in
  (forall e, outcome s = Err e ->
     outcome r = Err e /\ Forall (fun c => call_subprocess c = None) (trace r)) /\
  (forall ffmpeg_path list_path, outcome s = Ok (ffmpeg_path, list_path) ->
     exists answer u,
       trace r = (trace s ++
                  [mkCall (subprocess_run (concat_cmd ffmpeg_path list_path output_path)) answer;
                   mkCall (unlink list_path) u])%list /\
       outcome r = match answer with inl e => Err e | inr _ => Ok output_path end) /\
  (forall before c rest cmd answer,
     trace r = (before ++ c :: rest)%list -> call_subprocess c = Some (cmd, answer) ->
     exists ffmpeg_path list_path u,
       outcome s = Ok (ffmpeg_path, list_path) /\
       cmd = concat_cmd ffmpeg_path list_path output_path /\
       rest = [mkCall (unlink list_path) u] /\
       outcome r = match answer with inl e => Err e | inr _ => Ok output_path end).
Proof.
  intros Hne r s.
  pose proof (exec_merge_audios handle trimmed_paths output_path env w Hne) as Hexec.
  cbn zeta in Hexec. fold r s in Hexec.
  pose proof (emits_exec handle _ _ env w (merge_setup_quiet trimmed_paths output_path))
    as Hquiet. fold s in Hquiet.
  assert (Hsucc : forall ffmpeg_path list_path, outcome s = Ok (ffmpeg_path, list_path) ->
    exists answer u,
      trace r = (trace s ++
                 [mkCall (subprocess_run (concat_cmd ffmpeg_path list_path output_path)) answer;
                  mkCall (unlink list_path) u])%list /\
      outcome r = match answer with inl e => Err e | inr _ => Ok output_path end).
  { intros ffmpeg_path list_path Hs. rewrite Hs in Hexec.
    rewrite exec_concat_and_cleanup in Hexec. cbn zeta in Hexec.
    rewrite Hexec. unfold after. cbn [trace outcome]. eauto. }
  split; [|split].
  - intros e Hs. rewrite Hs in Hexec. rewrite Hexec. simpl. auto.
  - exact Hsucc.
  - intros before c rest cmd answer Htrace Hc.
    destruct (outcome s) as [[ffmpeg_path list_path]|e] eqn:Hs.
    + destruct (Hsucc _ _ eq_refl) as (answer0 & u & Htr & Hout).
      rewrite Htr in Htrace.
      assert (H1 : Forall (fun c => ~ call_subprocess c <> None) (trace s)).
      { eapply Forall_impl; [exact Hquiet|]. simpl. intros c' Hc' H. by apply H. }
      assert (H2 : Forall (fun c => ~ call_subprocess c <> None) [mkCall (unlink list_path) u]).
      { repeat constructor. simpl. intros H. by apply H. }
      assert (H3 : call_subprocess c <> None) by (by rewrite Hc).
      destruct (first_match_unique (fun c => call_subprocess c <> None) (trace s)
                  (mkCall (subprocess_run (concat_cmd ffmpeg_path list_path output_path))
                     answer0)
                  [mkCall (unlink list_path) u] H1 H2 before c rest H3 Htrace)
        as (_ & -> & ->).
      simpl in Hc. injection Hc as <- <-. exists ffmpeg_path, list_path, u. auto.
    + exfalso. rewrite Hexec in Htrace. simpl in Htrace. rewrite Htrace in Hquiet.
      rewrite Forall_app, Forall_cons in Hquiet. destruct Hquiet as (_ & Hnone & _).
      by rewrite Hnone in Hc.
Qed.

Lemma merge_audios_removes_manifest_witness :
  let clips := PyPath.of_str <$> ["/tmp/trimmed/a_trimmed.mp3"; "/tmp/trimmed/c_trimmed.mp3"] in
  let out := PyPath.of_str "/music/out.mp3" in
  let r := exec scripted (merge_audios clips out) ∅ merge_world in
  clips <> [] /\
  outcome r = Err (CalledProcessError 1) /\
  List.last (trace r) (mkCall (sleep 0) tt)
  = mkCall (unlink (PyPath.of_str "/music/tmpmanifest.txt")) (inl EOther).
Proof.
  intros clips out r.
  assert (Hne : clips <> []) by discriminate.
  split; [exact Hne|].
  destruct (merge_audios_removes_manifest scripted clips out ∅ merge_world Hne)
    as (_ & Hsucc & _).
  destruct (Hsucc "/opt/ffmpeg/bin/ffmpeg" (PyPath.of_str "/music/tmpmanifest.txt") eq_refl)
    as (answer & u & Htr & Hout).
  split; vm_compute; reflexivity.
Defined.

Example merge_audios_examples :
  let clips := PyPath.of_str <$> ["/tmp/trimmed/a_trimmed.mp3"; "/tmp/trimmed/it's.mp3"] in
  let out := PyPath.of_str "/music/out.mp3" in
  let undeletable := mkWorld (inr "/opt/ffmpeg/bin/ffmpeg") [] [] [] [] [] [] true 1 in
  outcome (exec scripted (merge_audios clips out) ∅ undeletable) = Ok out /\
  outcome (exec scripted (merge_audios clips out) ∅ calm) = Ok out /\
  outcome (exec scripted (merge_audios [] out) ∅ calm)
    = Err (MashupError "No trimmed audio files to merge.") /\
  manifest_line (PyPath.of_str "/tmp/trimmed/it's.mp3")
    = "file '/tmp/trimmed/it'\''s.mp3'" ++ newline.
Proof. vm_compute. repeat split. Qed.

(** ** Regular expressions *)

Lemma string_app_empty (s1 s2 : string) : s1 ++ s2 = "" -> s1 = "" /\ s2 = "".
Proof. destruct s1; simpl; [auto|discriminate]. Qed.

Lemma string_app_assoc (s1 s2 s3 : string) : (s1 ++ s2) ++ s3 = s1 ++ (s2 ++ s3).
Proof.
  induction s1 as [|a s IH]; [reflexivity|].
  change (String a ((s ++ s2) ++ s3) = String a (s ++ (s2 ++ s3))). by f_equal.
Qed.

Lemma string_app_nil_r (s : string) : s ++ "" = s.
Proof.
  induction s as [|a s IH]; [reflexivity|].
  change (String a (s ++ "") = String a s). by f_equal.
Qed.

Lemma nullable_lang (r : regex) : nullable r = true <-> lang r "".
Proof.
  split.
  - induction r as [| |p|r1 IH1 r2 IH2|r1 IH1 r2 IH2|r IH]; simpl; intros H;
      try discriminate.
    + constructor.
    + apply andb_true_iff in H as [H1 H2].
      change "" with ("" ++ ""). constructor; auto.
    + apply orb_true_iff in H as [H|H]; [apply lang_alt_l|apply lang_alt_r]; auto.
    + constructor.
  - intros H. remember "" as s eqn:Hs.
    induction H as [|p a Hp|r1 r2 s1 s2 H1 IH1 H2 IH2|r1 r2 s H IH|r1 r2 s H IH|r
                   |r s1 s2 H1 IH1 H2 IH2]; simpl; try reflexivity.
    + discriminate.
    + apply string_app_empty in Hs as [-> ->]. by rewrite IH1, IH2.
    + by rewrite IH.
    + rewrite IH by done. apply orb_true_r.
Qed.

Lemma deriv_sound (a : ascii) (r : regex) :
  forall s, lang (deriv a r) s -> lang r (String a s).
Proof.
  induction r as [| |p|r1 IH1 r2 IH2|r1 IH1 r2 IH2|r IH]; simpl; intros s H.
  - inversion H.
  - inversion H.
  - destruct (p a) eqn:Hp; inversion H; subst. by constructor.
  - destruct (nullable r1) eqn:Hn.
    + inversion H as [| | | ? ? ? H'|? ? ? H'| |]; subst.
      * inversion H' as [| |? ? s1 s2 H1 H2| | | |]; subst.
        change (String a (s1 ++ s2)) with (String a s1 ++ s2). constructor; auto.
      * change (String a s) with ("" ++ String a s).
        constructor; [by apply nullable_lang|auto].
    + inversion H as [| |? ? s1 s2 H1 H2| | | |]; subst.
      change (String a (s1 ++ s2)) with (String a s1 ++ s2). constructor; auto.
  - inversion H; subst; [apply lang_alt_l|apply lang_alt_r]; auto.
  - inversion H as [| |? ? s1 s2 H1 H2| | | |]; subst.
    change (String a (s1 ++ s2)) with (String a s1 ++ s2). constructor; auto.
Qed.

Lemma deriv_complete (r : regex) (s' : string) :
  lang r s' -> forall a s, s' = String a s -> lang (deriv a r) s.
Proof.
  induction 1 as [|p a' Hp|r1 r2 s1 s2 H1 IH1 H2 IH2|r1 r2 s0 H IH|r1 r2 s0 H IH|r
                 |r s1 s2 H1 IH1 H2 IH2]; intros a s Heq; simpl.
  - discriminate.
  - injection Heq as -> <-. rewrite Hp. constructor.
  - destruct s1 as [|b s1']; simpl in Heq.
    + apply nullable_lang in H1. rewrite H1. apply lang_alt_r. by apply IH2.
    + injection Heq as -> <-.
      assert (lang (Cat (deriv a r1) r2) (s1' ++ s2)) by (constructor; auto).
      destruct (nullable r1); [by apply lang_alt_l|done].
  - apply lang_alt_l. by apply IH.
  - apply lang_alt_r. by apply IH.
  - discriminate.
  - destruct s1 as [|b s1']; simpl in Heq.
    + by apply IH2.
    + injection Heq as -> <-. constructor; auto.
Qed.

(** The matcher decides the language. *)
Lemma fullmatch_lang (s : string) : forall r, fullmatch r s = true <-> lang r s.
Proof.
  induction s as [|a s IH]; intros r; simpl.
  - apply nullable_lang.
  - rewrite IH. split; [apply deriv_sound|]. intros H. by eapply deriv_complete.
Qed.

Lemma lang_star_cls (p : ascii -> bool) (s : string) :
  lang (Star (Cls p)) s <-> all_chars p s = true.
Proof.
  split.
  - intros H. remember (Star (Cls p)) as r eqn:Hr.
    induction H as [| | | | |r'|r' s1 s2 H1 _ H2 IH2]; try discriminate; [reflexivity|].
    injection Hr as ->. inversion H1 as [|? a Hp| | | | |]; subst. simpl.
    rewrite Hp. by apply IH2.
  - induction s as [|a s IH]; simpl; intros H; [constructor|].
    apply andb_true_iff in H as [Hp Hs].
    change (String a s) with (String a "" ++ s). constructor; [by constructor|auto].
Qed.

Lemma lang_plus_cls (p : ascii -> bool) (s : string) :
  lang (Plus (Cls p)) s <-> s <> "" /\ all_chars p s = true.
Proof.
  unfold Plus. split.
  - intros H. inversion H as [| |? ? s1 s2 H1 H2| | | |]; subst.
    inversion H1 as [|? a Hp| | | | |]; subst.
    apply lang_star_cls in H2. split; [discriminate|].
    change (p a && all_chars p s2 = true). by rewrite Hp.
  - intros [Hne H]. destruct s as [|a s]; [done|]. simpl in H.
    apply andb_true_iff in H as [Hp Hs].
    change (String a s) with (String a "" ++ s).
    constructor; [by constructor|by apply lang_star_cls].
Qed.

Lemma lang_chr (c : ascii) (s : string) : lang (Chr c) s <-> s = String c "".
Proof.
  unfold Chr. split.
  - intros H. inversion H as [|? a Hp| | | | |]; subst.
    apply Ascii.eqb_eq in Hp. by subst.
  - intros ->. constructor. apply Ascii.eqb_refl.
Qed.

(** The language of the pattern is the shape [local@domain.tld]. *)
Lemma lang_EMAIL_REGEX (s : string) : lang EMAIL_REGEX s <-> email_shape s.
Proof.
  unfold EMAIL_REGEX, email_shape, plain. split.
  - intros H.
    inversion H as [| |? ? l s1 Hl H1| | | |]; subst.
    inversion H1 as [| |? ? at_ s2 Hat H2| | | |]; subst.
    inversion H2 as [| |? ? d s3 Hd H3| | | |]; subst.
    inversion H3 as [| |? ? dot t Hdot Ht| | | |]; subst.
    apply lang_chr in Hat, Hdot. subst.
    apply lang_plus_cls in Hl, Hd, Ht.
    exists l, d, t. auto.
  - intros (l & d & t & -> & Hl & Hd & Ht).
    apply lang_plus_cls in Hl, Hd, Ht.
    constructor; [exact Hl|].
    change ("@" ++ d ++ "." ++ t) with (String "@" "" ++ (d ++ String "." "" ++ t)).
    constructor; [by apply lang_chr|].
    constructor; [exact Hd|].
    constructor; [by apply lang_chr|exact Ht].
Qed.

(** ** Email addresses *)

Lemma chop_newline_rstrip (s : string) : chop_newline (PyStr.rstrip s) = None.
Proof.
  induction s as [|a s IH]; [reflexivity|].
  cbn [PyStr.rstrip]. destruct (PyStr.rstrip s) as [|b r] eqn:E.
  - destruct (PyStr.isspace a) eqn:Ha; [reflexivity|].
    cbn [chop_newline]. destruct (Ascii.eqb_spec a (ascii_of_nat 10)) as [->|]; [|done].
    vm_compute in Ha. discriminate.
  - change (String a <$> chop_newline (String b r) = None). by rewrite IH.
Qed.

Lemma match_to_end_strip (r : regex) (s : string) :
  match_to_end r (PyStr.strip s) = fullmatch r (PyStr.strip s).
Proof.
  unfold match_to_end, PyStr.strip. rewrite chop_newline_rstrip. apply orb_false_r.
Qed.

(** [is_valid_email] accepts exactly the strings that have the shape after
    stripping. *)
Lemma is_valid_email_iff (email : string) :
  is_valid_email email = true <-> email_shape (PyStr.strip email).
Proof.
  unfold is_valid_email. rewrite match_to_end_strip, andb_true_iff, fullmatch_lang.
  rewrite lang_EMAIL_REGEX. split; [by intros [_ H]|]. intros H. split; [|exact H].
  destruct email; [|done]. exfalso.
  destruct H as (l & d & t & Heq & [Hl _] & _). destruct l; [done|discriminate].
Qed.

Lemma is_valid_email_false (email : string) :
  ~ email_shape (PyStr.strip email) -> is_valid_email email = false.
Proof.
  intros H. destruct (is_valid_email email) eqn:E; [|reflexivity].
  by apply is_valid_email_iff in E.
Qed.

Lemma has_space_app (s1 s2 : string) :
  PyStr.has_space (s1 ++ s2) = PyStr.has_space s1 || PyStr.has_space s2.
Proof.
  induction s1 as [|a s IH]; [reflexivity|].
  change (PyStr.isspace a || PyStr.has_space (s ++ s2)
          = PyStr.isspace a || PyStr.has_space s || PyStr.has_space s2).
  by rewrite IH, orb_assoc.
Qed.

Lemma count_app (c : ascii) (s1 s2 : string) :
  PyStr.count c (s1 ++ s2) = (PyStr.count c s1 + PyStr.count c s2)%nat.
Proof.
  induction s1 as [|a s IH]; [reflexivity|].
  change (((if Ascii.eqb a c then 1 else 0) + PyStr.count c (s ++ s2))%nat
          = ((if Ascii.eqb a c then 1 else 0) + PyStr.count c s + PyStr.count c s2)%nat).
  rewrite IH. lia.
Qed.

Lemma contains_count (c : ascii) (s : string) :
  PyStr.contains c s = false <-> PyStr.count c s = 0%nat.
Proof.
  induction s as [|a s IH]; simpl; [done|].
  destruct (Ascii.eqb a c); simpl; [split; [discriminate|lia]|exact IH].
Qed.

Lemma contains_app (c : ascii) (s1 s2 : string) :
  PyStr.contains c (s1 ++ s2) = PyStr.contains c s1 || PyStr.contains c s2.
Proof.
  induction s1 as [|a s IH]; [reflexivity|].
  change (Ascii.eqb a c || PyStr.contains c (s ++ s2)
          = Ascii.eqb a c || PyStr.contains c s || PyStr.contains c s2).
  by rewrite IH, orb_assoc.
Qed.

(** A plain string has no whitespace and no [@]. *)
Lemma all_chars_plain (s : string) :
  all_chars not_at_or_space s = true ->
  PyStr.has_space s = false /\ PyStr.count "@" s = 0%nat.
Proof.
  induction s as [|a s IH]; simpl; [done|].
  intros H. apply andb_true_iff in H as [Ha Hs]. destruct (IH Hs) as [-> ->].
  unfold not_at_or_space in Ha. apply andb_true_iff in Ha as [H1 H2].
  apply negb_true_iff in H1, H2. by rewrite H1, H2.
Qed.

Lemma email_shape_facts (s : string) :
  email_shape s -> s <> "" /\ PyStr.has_space s = false /\ PyStr.count "@" s = 1%nat.
Proof.
  intros (l & d & t & -> & [Hl Hl'] & [_ Hd'] & [_ Ht']).
  apply all_chars_plain in Hl' as [Hl1 Hl2], Hd' as [Hd1 Hd2], Ht' as [Ht1 Ht2].
  split; [destruct l; [done|discriminate]|].
  rewrite !has_space_app, !count_app, Hl1, Hl2, Hd1, Hd2, Ht1, Ht2. done.
Qed.

Lemma lstrip_no_space (s : string) : PyStr.has_space s = false -> PyStr.lstrip s = s.
Proof. destruct s as [|a s]; simpl; [done|]. by destruct (PyStr.isspace a). Qed.

Lemma rstrip_no_space (s : string) : PyStr.has_space s = false -> PyStr.rstrip s = s.
Proof.
  induction s as [|a s IH]; simpl; [done|].
  destruct (PyStr.isspace a); simpl; [discriminate|].
  intros H. rewrite (IH H). by destruct s.
Qed.

Lemma lstrip_app_space (ws s : string) :
  PyStr.all_space ws = true -> PyStr.lstrip (ws ++ s) = PyStr.lstrip s.
Proof.
  induction ws as [|a ws IH]; simpl; [done|].
  intros H. apply andb_true_iff in H as [Ha Hws]. rewrite Ha. by apply IH.
Qed.

Lemma rstrip_app_space (s ws : string) :
  PyStr.all_space ws = true -> PyStr.rstrip (s ++ ws) = PyStr.rstrip s.
Proof.
  intros Hws. induction s as [|a s IH].
  - simpl. by apply rstrip_empty_iff.
  - change (PyStr.rstrip (String a (s ++ ws)) = PyStr.rstrip (String a s)).
    cbn [PyStr.rstrip]. by rewrite IH.
Qed.

Lemma lstrip_app_char (l : string) (c : ascii) (d : string) :
  PyStr.isspace c = false ->
  PyStr.lstrip (l ++ String c d) = PyStr.lstrip l ++ String c d.
Proof.
  intros Hc. induction l as [|a l IH]; simpl; [by rewrite Hc|].
  by destruct (PyStr.isspace a).
Qed.

Lemma rstrip_app_char (l : string) (c : ascii) (d : string) :
  PyStr.isspace c = false ->
  PyStr.rstrip (l ++ String c d) = l ++ String c (PyStr.rstrip d).
Proof.
  intros Hc. induction l as [|a l IH].
  - simpl. destruct (PyStr.rstrip d); [by rewrite Hc|reflexivity].
  - change (PyStr.rstrip (String a (l ++ String c d)) = String a (l ++ String c (PyStr.rstrip d))).
    cbn [PyStr.rstrip]. rewrite IH. by destruct l.
Qed.

Lemma count_lstrip (c : ascii) (s : string) :
  PyStr.isspace c = false -> PyStr.count c (PyStr.lstrip s) = PyStr.count c s.
Proof.
  intros Hc. induction s as [|a s IH]; simpl; [done|].
  destruct (PyStr.isspace a) eqn:Ha; simpl; [|done].
  destruct (Ascii.eqb_spec a c) as [->|]; [congruence|exact IH].
Qed.

Lemma count_rstrip (c : ascii) (s : string) :
  PyStr.isspace c = false -> PyStr.count c (PyStr.rstrip s) = PyStr.count c s.
Proof.
  intros Hc. induction s as [|a s IH]; [done|].
  cbn [PyStr.rstrip PyStr.count]. rewrite <- IH.
  destruct (PyStr.rstrip s) as [|b r]; [|reflexivity].
  destruct (PyStr.isspace a) eqn:Ha; simpl; [|lia].
  destruct (Ascii.eqb_spec a c) as [->|]; [congruence|reflexivity].
Qed.

Lemma count_strip (c : ascii) (s : string) :
  PyStr.isspace c = false -> PyStr.count c (PyStr.strip s) = PyStr.count c s.
Proof. intros Hc. unfold PyStr.strip. by rewrite count_rstrip, count_lstrip. Qed.

Lemma count_rstrip_le (c : ascii) (s : string) :
  (PyStr.count c (PyStr.rstrip s) <= PyStr.count c s)%nat.
Proof.
  induction s as [|a s IH]; [done|].
  cbn [PyStr.rstrip PyStr.count].
  destruct (PyStr.rstrip s) as [|b r].
  - destruct (PyStr.isspace a); simpl in *; lia.
  - cbn [PyStr.count] in *. lia.
Qed.

(** A string splits in one way at its first [c]. *)
Lemma split_at_unique (c : ascii) (l1 l2 r1 r2 : string) :
  PyStr.count c l1 = 0%nat -> PyStr.count c l2 = 0%nat ->
  l1 ++ String c r1 = l2 ++ String c r2 -> l1 = l2 /\ r1 = r2.
Proof.
  revert l2. induction l1 as [|a l1 IH]; intros [|b l2] H1 H2 Heq; simpl in *.
  - by injection Heq.
  - injection Heq as <- _. rewrite Ascii.eqb_refl in H2. lia.
  - injection Heq as -> _. rewrite Ascii.eqb_refl in H1. lia.
  - injection Heq as -> Heq.
    destruct (Ascii.eqb b c); [lia|]. destruct (IH l2 H1 H2 Heq) as [-> ->]. done.
Qed.

Lemma strip_surrounded (s before after_ : string) :
  s <> "" -> PyStr.has_space s = false ->
  PyStr.all_space before = true -> PyStr.all_space after_ = true ->
  PyStr.strip (before ++ s ++ after_) = s.
Proof.
  intros Hne Hsp Hb Ha. unfold PyStr.strip. rewrite lstrip_app_space by done.
  assert (H : PyStr.lstrip (s ++ after_) = s ++ after_).
  { destruct s as [|c s']; [done|]. simpl in *.
    apply orb_false_iff in Hsp as [-> _]. reflexivity. }
  rewrite H, rstrip_app_space by done. by apply rstrip_no_space.
Qed.

(** C10. [is_valid_email] strips surrounding whitespace before it matches:
    an address of the shape [local@domain.tld] surrounded by whitespace is
    accepted.  The empty string is rejected, and so is every string with
    whitespace inside it, with more than one [@], with no [@], or whose
    part after the [@] has no dot. *)
Theorem is_valid_email_strips_then_matches :
  (forall s before after_,
     email_shape s -> PyStr.all_space before = true -> PyStr.all_space after_ = true ->
     is_valid_email (before ++ s ++ after_) = true) /\
  is_valid_email " a@b.c " = true /\
  is_valid_email "" = false /\
  (forall s, PyStr.has_space (PyStr.strip s) = true -> is_valid_email s = false) /\
  (forall s, (2 <= PyStr.count "@" s)%nat -> is_valid_email s = false) /\
  (forall s, PyStr.contains "@" s = false -> is_valid_email s = false) /\
  (forall local domain,
     PyStr.contains "." domain = false -> is_valid_email (local ++ "@" ++ domain) = false).
Proof.
  repeat split.
  - intros s before after_ Hshape Hb Ha. apply is_valid_email_iff.
    destruct (email_shape_facts s Hshape) as (Hne & Hsp & _).
    by rewrite strip_surrounded.
  - intros s Hsp. apply is_valid_email_false. intros Hshape.
    apply email_shape_facts in Hshape as (_ & H & _). congruence.
  - intros s Hcount. apply is_valid_email_false. intros Hshape.
    apply email_shape_facts in Hshape as (_ & _ & H).
    rewrite count_strip in H by done. lia.
  - intros s Hnone. apply is_valid_email_false. intros Hshape.
    apply email_shape_facts in Hshape as (_ & _ & H).
    rewrite count_strip in H by done. apply contains_count in Hnone. lia.
  - intros local domain Hdot. apply is_valid_email_false. intros Hshape.
    assert (Hstrip : PyStr.strip (local ++ "@" ++ domain)
                     = PyStr.lstrip local ++ String "@" (PyStr.rstrip domain)).
    { unfold PyStr.strip. change ("@" ++ domain) with (String "@" domain).
      rewrite lstrip_app_char by done. by rewrite rstrip_app_char. }
    rewrite Hstrip in Hshape.
    pose proof (email_shape_facts _ Hshape) as (_ & _ & Hcount).
    destruct Hshape as (l & d & t & Heq & [_ Hl] & _).
    apply all_chars_plain in Hl as [_ Hl].
    rewrite count_app in Hcount. simpl in Hcount.
    change ("@" ++ d ++ "." ++ t) with (String "@" (d ++ "." ++ t)) in Heq.
    assert (Hl0 : PyStr.count "@" (PyStr.lstrip local) = 0%nat) by lia.
    destruct (split_at_unique "@" _ _ _ _ Hl0 Hl Heq) as [_ Hdom].
    apply contains_count in Hdot.
    pose proof (count_rstrip_le "." domain) as Hle.
    rewrite Hdom, !count_app in Hle. simpl in Hle. lia.
Qed.

Example is_valid_email_examples :
  is_valid_email "you@example.com" = true /\
  is_valid_email "  first.last@mail.example.org  " = true /\
  is_valid_email "a b@c.d" = false /\
  is_valid_email "a@b@c.d" = false /\
  is_valid_email "example.com" = false /\
  is_valid_email "a@localhost" = false /\
  is_valid_email "a@b." = false /\
  is_valid_email "   " = false.
Proof. vm_compute. repeat split. Qed.

(** ** A whole run *)

(** *** Further rules for [emits] *)

Lemma emits_weaken {A : Type} (P Q : Call -> Prop) (p : Prog A) :
  (forall c, P c -> Q c) -> emits P p -> emits Q p.
Proof.
  intros HPQ. induction p as [a|e|X ev k IH|key v k IH|key d k IH|key v k IH]; simpl; auto.
  intros Hp x. destruct (Hp x). auto.
Qed.

Lemma emits_ask {X : Type} (P : Call -> Prop) (ev : Event X) :
  (forall x, P (mkCall ev x)) -> emits P (ask ev).
Proof. intros H x. split; [apply H|exact I]. Qed.

Lemma emits_try_except {A : Type} (P : Call -> Prop) (p : Prog A) catches handler :
  emits P p -> (forall e, emits P (handler e)) -> emits P (try_except p catches handler).
Proof.
  intros Hp Hh.
  induction p as [a|e|X ev k IH|key v k IH|key d k IH|key v k IH]; simpl in *; auto.
  - destruct (catches e); [apply Hh|exact I].
  - intros x. destruct (Hp x). auto.
Qed.

Lemma runs_pipeline_command_other (q : Path) (c : Call) :
  call_subprocess c = None -> runs_pipeline_command q c.
Proof. intros H cmd answer Hc. congruence. Qed.

(** A program that runs no process runs only commands of the pipeline. *)
Lemma emits_no_process {A : Type} (q : Path) (p : Prog A) :
  emits (fun c => call_subprocess c = None) p -> emits (runs_pipeline_command q) p.
Proof. apply emits_weaken. intros c. apply runs_pipeline_command_other. Qed.

(** *** The processes of a run *)

Lemma setup_audio_backend_quiet :
  emits (fun c => call_subprocess c = None) setup_audio_backend.
Proof.
  unfold setup_audio_backend. apply emits_try_except; [|intros e; exact I].
  apply emits_bind; [by apply emits_call|]. intros ffmpeg_path. simpl.
  intros old_path x. split; [reflexivity|exact I].
Qed.

Lemma wait_for_stable_quiet path delay attempts :
  forall last_size,
    emits (fun c => call_subprocess c = None)
      (wait_for_stable_loop path attempts delay last_size).
Proof.
  induction attempts as [|n IH]; intros last_size; [exact I|].
  cbn [wait_for_stable_loop].
  apply emits_bind; [by apply emits_ask|]. intros [|]; cbn [negb].
  - apply emits_bind; [by apply emits_call_os|]. intros size.
    destruct ((size =? last_size) && (size >? 0)); [exact I|].
    apply emits_bind; [by apply emits_ask|]. intros _. apply IH.
  - apply emits_bind; [by apply emits_ask|]. intros _. apply IH.
Qed.

Lemma download_entry_quiet workdir ffmpeg_path entry downloaded :
  emits (fun c => call_subprocess c = None)
    (download_entry workdir ffmpeg_path entry downloaded).
Proof.
  unfold download_entry.
  destruct (truthy_str (entry !! "webpage_url")) as [url|]; [|exact I].
  destruct (truthy_str (entry !! "id")) as [video_id|]; [|exact I].
  apply emits_bind.
  { apply emits_try_except.
    - apply emits_bind; [by apply emits_call|]. intros _. exact I.
    - intros e. apply emits_bind; [by apply emits_ask|]. intros _. exact I. }
  intros [|]; [|exact I].
  apply emits_bind; [by apply emits_call|]. intros matched.
  apply emits_bind; [destruct matched; [by apply emits_call|exact I]|].
  intros [|target rest]; [exact I|].
  unfold accept_when_stable, _wait_for_stable. apply emits_try_except.
  - apply emits_bind; [apply wait_for_stable_quiet|]. intros _. exact I.
  - intros e. apply emits_bind; [by apply emits_ask|]. intros _. exact I.
Qed.

Lemma download_audio_from_search_quiet singer n_videos workdir :
  emits (fun c => call_subprocess c = None)
    (download_audio_from_search singer n_videos workdir).
Proof.
  unfold download_audio_from_search, download_prelude, _search_candidates.
  apply emits_bind.
  { apply emits_bind; [by apply emits_call_os|]. intros _.
    apply emits_bind; [by apply emits_call|]. intros sr. exact I. }
  intros [|c cs]; [exact I|].
  unfold download_candidates.
  apply emits_bind; [by apply emits_call|]. intros ffmpeg_path.
  apply emits_bind.
  - generalize (c :: cs) as candidates. generalize (@nil Path) as downloaded.
    intros downloaded candidates. revert downloaded.
    induction candidates as [|entry rest IH]; intros downloaded; [exact I|].
    cbn [download_loop]. destruct (Z.of_nat (length downloaded) >=? n_videos); [exact I|].
    apply emits_bind; [apply download_entry_quiet|]. intros d. apply IH.
  - intros d. destruct (Z.of_nat (length d) <? n_videos); exact I.
Qed.

Lemma wait_for_unlock_quiet path delay attempts :
  emits (fun c => call_subprocess c = None) (wait_for_unlock_loop path attempts delay).
Proof.
  induction attempts as [|n IH]; [exact I|]. cbn [wait_for_unlock_loop].
  apply emits_bind.
  - apply emits_try_except.
    + apply emits_bind; [by apply emits_call_os|]. intros _. exact I.
    + intros e. apply emits_bind; [by apply emits_ask|]. intros _. exact I.
  - intros [|]; [exact I|apply IH].
Qed.

(** The processes [trim_audios] runs are trims. *)
Lemma trim_audios_commands (q : Path) audio_paths clip_seconds target_dir :
  emits (runs_pipeline_command q) (trim_audios audio_paths clip_seconds target_dir).
Proof.
  unfold trim_audios, trim_prelude.
  apply emits_bind.
  { apply emits_no_process.
    apply emits_bind; [by apply emits_call_os|]. intros _. by apply emits_call. }
  intros ffmpeg_path. apply emits_bind; [|intros [|? ?]; exact I].
  generalize (@nil Path) as trimmed_files.
  induction audio_paths as [|path rest IH]; intros trimmed_files; [exact I|].
  cbn [trim_loop]. apply emits_bind; [|intros t; apply IH].
  unfold trim_step, trim_one, _wait_for_unlock. apply emits_try_except.
  - apply emits_bind; [|intros t; exact I].
    apply emits_bind; [apply emits_no_process, wait_for_unlock_quiet|]. intros _.
    apply emits_bind; [|intros _; exact I].
    apply emits_call. intros x cmd answer H. simpl in H. injection H as <- _. constructor.
  - intros e. apply emits_bind; [|intros _; exact I].
    apply emits_no_process. by apply emits_ask.
Qed.

Lemma make_manifest_quiet dir trimmed_list :
  emits (fun c => call_subprocess c = None) (make_manifest dir trimmed_list).
Proof.
  unfold make_manifest.
  apply emits_bind; [by apply emits_call_os|]. intros list_file.
  apply emits_try_finally; [|by apply emits_call_os].
  apply emits_bind; [|intros; exact I].
  induction trimmed_list as [|path rest IH]; [exact I|]. cbn [write_manifest].
  apply emits_bind; [by apply emits_call_os|]. intros resolved.
  apply emits_bind; [by apply emits_call_os|]. intros _. exact IH.
Qed.

(** The one process [merge_audios] runs is the concatenation into the path
    it was given. *)
Lemma merge_audios_commands trimmed_paths (q : Path) :
  emits (runs_pipeline_command q) (merge_audios trimmed_paths q).
Proof.
  unfold merge_audios.
  apply emits_bind; [apply emits_no_process; by apply emits_call|]. intros ffmpeg_path.
  destruct trimmed_paths as [|p ps]; [exact I|].
  apply emits_bind; [apply emits_no_process; by apply emits_call_os|]. intros _.
  apply emits_bind; [apply emits_no_process, make_manifest_quiet|]. intros list_path.
  apply emits_bind; [|intros; exact I].
  unfold concat_and_cleanup. apply emits_try_finally.
  - apply emits_call. intros x cmd answer H. simpl in H. injection H as <- _. constructor.
  - apply emits_no_process.
    apply emits_try_except; [by apply emits_call_os|]. intros e. exact I.
Qed.

Lemma mashup_stages_commands singer n_videos clip_seconds (q temp_root : Path) :
  emits (runs_pipeline_command q) (mashup_stages singer n_videos clip_seconds q temp_root).
Proof.
  unfold mashup_stages.
  apply emits_bind; [apply emits_no_process, download_audio_from_search_quiet|].
  intros downloads.
  apply emits_bind; [apply emits_no_process; by apply emits_ask|]. intros _.
  apply emits_bind; [apply trim_audios_commands|]. intros trimmed.
  apply emits_bind; [apply merge_audios_commands|]. intros merged_path. exact I.
Qed.

(** *** The workspace *)

(** A run of [with_temporary_directory], by the answer to [mkdtemp]. *)
Lemma exec_with_temporary_directory {W A : Type} (handle : Handler W) prefix
  (body : Path -> Prog A) env w :
  let created := handle _ (mkdtemp prefix) env w in
  exec handle (with_temporary_directory prefix body) env w =
  match created.1 with
  | inl k => mkRun (Err (OSError k)) env created.2 [mkCall (mkdtemp prefix) (inl k)]
  | inr temp_root =>
      let b := exec handle (body temp_root) env created.2 in
      let removed := handle _ (rmtree temp_root) (environ_after b) (world_after b) in
      mkRun (match removed.1 with
             | inl k => Err (OSError k)
             | inr _ => outcome b
             end)
        (environ_after b) removed.2
        (mkCall (mkdtemp prefix) (inr temp_root)
         :: trace b ++ [mkCall (rmtree temp_root) removed.1])
  end.
Proof.
  unfold with_temporary_directory. cbn.
  destruct (handle _ (mkdtemp prefix) env w) as [[k|temp_root] w1]; cbn; [reflexivity|].
  rewrite exec_try_finally. cbn.
  destruct (handle _ (rmtree temp_root) _ _) as [[k|[]] w2]; reflexivity.
Qed.

(** [create_mashup] either raises before any external call, or sets up the
    backend and runs its stages inside a temporary directory. *)
Lemma create_mashup_cases singer n_videos clip_seconds output_path :
  (exists e, create_mashup singer n_videos clip_seconds output_path = Throw e) \/
  (exists zn zc q,
     valid_request singer n_videos clip_seconds /\
     normalize_output_path output_path = Ok q /\
     create_mashup singer n_videos clip_seconds output_path =
     (setup_audio_backend ;;
      with_temporary_directory "mashup_" (mashup_stages singer zn zc q))).
Proof.
  unfold create_mashup.
  destruct (coerce_positive_int_cases n_videos "Number of videos")
    as [(zn & Hn & Hnpos & ->)|(_ & msg & ->)]; cbn [bind]; [|eauto].
  destruct (coerce_positive_int_cases clip_seconds "Audio duration")
    as [(zc & Hc & Hcpos & ->)|(_ & msg & ->)]; cbn [bind]; [|eauto].
  destruct (validate_inputs_cases singer zn zc) as [Hacc _]. revert Hacc.
  unfold validate_inputs.
  destruct (String.eqb singer "" || String.eqb (PyStr.strip singer) "");
    [intros _; cbn [bind]; eauto|].
  destruct (zn <=? 10); [intros _; cbn [bind]; eauto|].
  destruct (zc <=? 20); [intros _; cbn [bind]; eauto|].
  intros Hacc. cbn [bind].
  destruct (normalize_output_path output_path) as [q|e] eqn:Hq; cbn [lift bind]; [|eauto].
  right. exists zn, zc, q. split; [|split; reflexivity].
  exists zn, zc. repeat split; auto; by apply Hacc.
Qed.

(** Every process a run of [create_mashup] starts is a trim or the
    concatenation into the normalized output path. *)
Lemma create_mashup_commands singer n_videos clip_seconds output_path q :
  normalize_output_path output_path = Ok q ->
  emits (runs_pipeline_command q) (create_mashup singer n_videos clip_seconds output_path).
Proof.
  intros Hq.
  destruct (create_mashup_cases singer n_videos clip_seconds output_path)
    as [[e ->]|(zn & zc & q' & _ & Hq' & ->)]; [exact I|].
  assert (q' = q) as -> by congruence.
  apply emits_bind; [apply emits_no_process, setup_audio_backend_quiet|]. intros _.
  unfold with_temporary_directory.
  apply emits_bind; [apply emits_no_process; by apply emits_call_os|]. intros temp_root.
  apply emits_try_finally; [apply mashup_stages_commands|].
  apply emits_no_process. by apply emits_call_os.
Qed.

(** *** A run that returns *)

Lemma exec_bind_ok {W A B : Type} (handle : Handler W) (p : Prog A) (f : A -> Prog B)
  env w b :
  outcome (exec handle (bind p f) env w) = Ok b ->
  exists a,
    outcome (exec handle p env w) = Ok a /\
    outcome (exec handle (f a) (environ_after (exec handle p env w))
               (world_after (exec handle p env w))) = Ok b /\
    trace (exec handle (bind p f) env w)
    = (trace (exec handle p env w)
       ++ trace (exec handle (f a) (environ_after (exec handle p env w))
                   (world_after (exec handle p env w))))%list.
Proof.
  rewrite exec_bind. cbn zeta.
  destruct (outcome (exec handle p env w)) as [a|e] eqn:E; [|discriminate].
  intros H. exists a. split; [reflexivity|]. split; [exact H|reflexivity].
Qed.

(** When [merge_audios] returns, it returns the path it was given, and its
    last two calls are the concatenation into that path, which succeeded,
    and the removal of the manifest. *)
Lemma merge_audios_ok {W : Type} (handle : Handler W) trimmed_paths (q : Path) env w p :
  outcome (exec handle (merge_audios trimmed_paths q) env w) = Ok p ->
  p = q /\
  exists before ffmpeg_path list_path u,
    trace (exec handle (merge_audios trimmed_paths q) env w)
    = (before ++ [mkCall (subprocess_run (concat_cmd ffmpeg_path list_path q)) (inr tt);
                  mkCall (unlink list_path) u])%list.
Proof.
  intros Hr.
  assert (Hne : trimmed_paths <> []).
  { intros ->. unfold merge_audios in Hr. rewrite outcome_bind in Hr.
    destruct (outcome (exec handle (call get_ffmpeg_exe) env w)); discriminate. }
  pose proof (exec_merge_audios handle trimmed_paths q env w Hne) as Hexec.
  cbn zeta in Hexec.
  destruct (outcome (exec handle (merge_setup trimmed_paths q) env w))
    as [[ffmpeg_path list_path]|e] eqn:Hs.
  2:{ rewrite Hexec in Hr. discriminate. }
  rewrite exec_concat_and_cleanup in Hexec. cbn zeta in Hexec.
  rewrite Hexec in Hr. rewrite Hexec. unfold after in *. cbn [outcome trace] in *.
  destruct ((handle _ (subprocess_run (concat_cmd ffmpeg_path list_path q)) _ _).1)
    as [e|[]]; [discriminate|].
  split; [by simplify_eq|]. eexists _, ffmpeg_path, list_path, _. reflexivity.
Qed.

Lemma mashup_stages_ok {W : Type} (handle : Handler W) singer n_videos clip_seconds
  (q temp_root : Path) env w p :
  outcome (exec handle (mashup_stages singer n_videos clip_seconds q temp_root) env w) = Ok p ->
  p = q /\
  exists before ffmpeg_path list_path u,
    trace (exec handle (mashup_stages singer n_videos clip_seconds q temp_root) env w)
    = (before ++ [mkCall (subprocess_run (concat_cmd ffmpeg_path list_path q)) (inr tt);
                  mkCall (unlink list_path) u])%list.
Proof.
  unfold mashup_stages. intros Hr.
  destruct (exec_bind_ok handle _ _ _ _ _ Hr) as (downloads & _ & Hr1 & ->). clear Hr.
  destruct (exec_bind_ok handle _ _ _ _ _ Hr1) as ([] & _ & Hr2 & ->). clear Hr1.
  destruct (exec_bind_ok handle _ _ _ _ _ Hr2) as (trimmed & _ & Hr3 & ->). clear Hr2.
  destruct (exec_bind_ok handle _ _ _ _ _ Hr3) as (merged & Hm & Hr4 & ->). clear Hr3.
  simpl in Hr4. injection Hr4 as ->.
  destruct (merge_audios_ok handle _ _ _ _ _ Hm) as (-> & before & ffmpeg_path & list_path & u & ->).
  split; [reflexivity|].
  eexists _, ffmpeg_path, list_path, u. cbn [exec trace].
  rewrite app_nil_r, !app_assoc. reflexivity.
Qed.

(** When [create_mashup] returns, it returns the normalized output path,
    and its last three calls are the concatenation into that path, which
    succeeded, the removal of the manifest and the removal of the temporary
    directory. *)
Lemma create_mashup_ok {W : Type} (handle : Handler W) singer n_videos clip_seconds
  output_path env w p :
  outcome (exec handle (create_mashup singer n_videos clip_seconds output_path) env w) = Ok p ->
  normalize_output_path output_path = Ok p /\
  exists before ffmpeg_path list_path u temp_root,
    trace (exec handle (create_mashup singer n_videos clip_seconds output_path) env w)
    = (before ++ [mkCall (subprocess_run (concat_cmd ffmpeg_path list_path p)) (inr tt);
                  mkCall (unlink list_path) u;
                  mkCall (rmtree temp_root) (inr tt)])%list.
Proof.
  destruct (create_mashup_cases singer n_videos clip_seconds output_path)
    as [[e ->]|(zn & zc & q & _ & Hq & ->)]; [discriminate|].
  intros Hr.
  destruct (exec_bind_ok handle _ _ _ _ _ Hr) as ([] & _ & Hr1 & ->). clear Hr.
  revert Hr1. rewrite exec_with_temporary_directory. cbn zeta.
  destruct ((handle _ (mkdtemp "mashup_") _ _).1) as [k|temp_root]; [discriminate|].
  destruct ((handle _ (rmtree temp_root) _ _).1) as [k|[]]; [discriminate|].
  cbn [outcome trace]. intros Hb.
  destruct (mashup_stages_ok handle _ _ _ _ _ _ _ _ Hb)
    as (-> & before & ffmpeg_path & list_path & u & ->).
  split; [exact Hq|].
  exists (trace (exec handle setup_audio_backend env w)
          ++ mkCall (mkdtemp "mashup_") (inr temp_root) :: before)%list,
    ffmpeg_path, list_path, u, temp_root.
  generalize (trace (exec handle setup_audio_backend env w)). intros t0.
  rewrite <- (app_assoc t0), <- (app_assoc before). reflexivity.
Qed.

(** C6 (amended). An output path that names a file and whose extension is
    not [.mp3] (compared the way the code does, in lower case) is normalized
    to the same file name with the extension [.mp3]: the stem and the
    directory are kept.  The normalized path is the one the pipeline works
    with: in every world, every process a run of [create_mashup] starts is a
    trim or the concatenation whose output argument is the normalized path;
    and when the run returns, it returns the normalized path, and its last
    three calls are that concatenation, which succeeded, the removal of the
    manifest and the removal of the temporary directory. *)
Theorem create_mashup_normalizes_extension (output_path : Path) :
  PyPath.name output_path <> "" ->
  PyStr.lower (PyPath.suffix output_path) <> ".mp3" ->
  exists q,
    normalize_output_path output_path = Ok q /\
    PyPath.suffix q = ".mp3" /\
    PyPath.name q = PyPath.stem output_path ++ ".mp3" /\
    PyPath.parent q = PyPath.parent output_path /\
    (forall (W : Type) (handle : Handler W) singer n_videos clip_seconds env w,
       let r := exec handle (create_mashup singer n_videos clip_seconds output_path) env w in
       Forall (runs_pipeline_command q) (trace r) /\
       (forall p, outcome r = Ok p ->
          p = q /\
          exists before ffmpeg_path list_path u temp_root,
            trace r
            = (before ++ [mkCall (subprocess_run (concat_cmd ffmpeg_path list_path q)) (inr tt);
                          mkCall (unlink list_path) u;
                          mkCall (rmtree temp_root) (inr tt)])%list)).
Proof.
  intros Hname Hsuffix.
  destruct (with_suffix_mp3 output_path Hname) as (q & Hq & Hn & Hs & _ & Hp).
  assert (Hnorm : normalize_output_path output_path = Ok q).
  { unfold normalize_output_path.
    destruct (String.eqb_spec (PyStr.lower (PyPath.suffix output_path)) ".mp3");
      [contradiction|exact Hq]. }
  exists q. repeat split; try assumption.
  - apply emits_exec. by apply create_mashup_commands.
  - apply create_mashup_ok in H. destruct H as [H _]. congruence.
  - apply create_mashup_ok in H. destruct H as [H Htrace].
    assert (p = q) as -> by congruence. exact Htrace.
Qed.

Lemma create_mashup_normalizes_extension_witness :
  PyPath.name (PyPath.of_str "out") <> "" /\
  PyStr.lower (PyPath.suffix (PyPath.of_str "out")) <> ".mp3" /\
  exists q, normalize_output_path (PyPath.of_str "out") = Ok q /\ PyPath.suffix q = ".mp3" /\
            PyPath.str q = "out.mp3".
Proof.
  assert (H1 : PyPath.name (PyPath.of_str "out") <> "") by (vm_compute; discriminate).
  assert (H2 : PyStr.lower (PyPath.suffix (PyPath.of_str "out")) <> ".mp3")
    by (vm_compute; discriminate).
  split; [exact H1|]. split; [exact H2|].
  destruct (create_mashup_normalizes_extension (PyPath.of_str "out") H1 H2)
    as (q & Hq & Hs & _).
  exists q. split; [exact Hq|]. split; [exact Hs|].
  vm_compute in Hq. injection Hq as <-. reflexivity.
Defined.

(** C6, as stated, fails for an output path without a file name.  The
    extension of [.] is empty, so it differs from [.mp3]; yet no path is
    normalized: [with_suffix] raises [ValueError], and [create_mashup]
    raises it before any external call. *)
Lemma create_mashup_nameless_output_raises :
  let p := PyPath.of_str "." in
  PyStr.lower (PyPath.suffix p) <> ".mp3" /\
  normalize_output_path p = Err (ValueError "PosixPath('.') has an empty name") /\
  forall (W : Type) (handle : Handler W) env w,
    let r := exec handle (create_mashup "Test Singer" (PyInt 12) (PyInt 25) p) env w in
    outcome r = Err (ValueError "PosixPath('.') has an empty name") /\ trace r = [].
Proof.
  intros p. split; [vm_compute; discriminate|]. split; [reflexivity|].
  intros W handle env w.
  assert (H : create_mashup "Test Singer" (PyInt 12) (PyInt 25) p
              = Throw (ValueError "PosixPath('.') has an empty name")) by reflexivity.
  rewrite H. simpl. split; reflexivity.
Qed.



(** Twelve clips of 25 seconds requested with the output path [out], thirty
    candidates that all succeed: the result is [out.mp3], the first twelve
    candidates were downloaded, the manifest lists their clips in rank
    order, and the last process run is the concatenation into [out.mp3]. *)
Example create_mashup_end_to_end :
  let r := exec scripted
             (create_mashup "Test Singer" (PyInt 12) (PyInt 25) (PyPath.of_str "out"))
             ∅ (plentiful_world 30) in
  outcome r = Ok (PyPath.of_str "out.mp3") /\
  download_attempts (trace r) = 12%nat /\
  manifest_written (trace r)
  = (fun i => "file '/tmp/mashup_0/trimmed/v" ++ PyStr.str_of_Z i ++ "_trimmed.mp3'" ++ newline)
      <$> [1; 2; 3; 4; 5; 6; 7; 8; 9; 10; 11; 12] /\
  last (omap call_subprocess (trace r))
  = Some (["/opt/ffmpeg/bin/ffmpeg"; "-y"; "-hide_banner"; "-loglevel"; "error"; "-f";
           "concat"; "-safe"; "0"; "-i"; "tmpmanifest.txt"; "-c"; "copy"; "out.mp3"],
          inr tt).
Proof. vm_compute. repeat split. Qed.

(** ** Further properties *)

(** X2. When the locator raises, [setup_audio_backend] raises
    [MashupError "Unable to locate or download ffmpeg."] whatever the
    exception was; [os.environ] is left as it was and the locator is the
    only external call. *)
Theorem setup_audio_backend_unavailable {W : Type} (handle : Handler W)
  (env : gmap string string) (w : W) (e : Exn) :
  (handle _ get_ffmpeg_exe env w).1 = inl e ->
  let r := exec handle setup_audio_backend env w in
  outcome r = Err (MashupError "Unable to locate or download ffmpeg.") /\
  environ_after r = env /\
  trace r = [mkCall get_ffmpeg_exe (inl e)].
Proof.
  intros Hans r. subst r. rewrite exec_setup_audio_backend.
  destruct (handle _ get_ffmpeg_exe env w) as [[e'|p] w']; simpl in Hans; [|discriminate].
  injection Hans as ->. auto.
Qed.

Lemma setup_audio_backend_unavailable_witness :
  (scripted _ get_ffmpeg_exe ∅ no_ffmpeg_world).1 = inl (OSError EOther) /\
  outcome (exec scripted setup_audio_backend ∅ no_ffmpeg_world)
  = Err (MashupError "Unable to locate or download ffmpeg.").
Proof.
  assert (H : (scripted _ get_ffmpeg_exe ∅ no_ffmpeg_world).1 = inl (OSError EOther))
    by reflexivity.
  split; [exact H|].
  exact (proj1 (setup_audio_backend_unavailable scripted ∅ no_ffmpeg_world _ H)).
Defined.

Lemma elem_of_backend_variables (key : string) :
  key ∈ backend_variables <->
  key = "FFMPEG_BINARY" \/ key = "FFPROBE_BINARY" \/ key = "IMAGEIO_FFMPEG_EXE"
  \/ key = "FFMPEG_LOCATION".
Proof. unfold backend_variables. rewrite !elem_of_cons, elem_of_nil. tauto. Qed.

Lemma backend_environ_lookup (ffmpeg_path key : string) (env : gmap string string) :
  backend_environ ffmpeg_path env !! key =
  if decide (key = "PATH") then
    Some (PyPath.str (PyPath.parent (PyPath.of_str ffmpeg_path)) ++ pathsep
          ++ default "" (env !! "PATH"))
  else if decide (key ∈ backend_variables) then Some (default ffmpeg_path (env !! key))
  else env !! key.
Proof.
  unfold backend_environ.
  destruct (decide (key = "PATH")) as [->|Hpath].
  - rewrite lookup_insert_eq, !lookup_setdefault.
    repeat (case_decide; [discriminate|]). reflexivity.
  - rewrite lookup_insert_ne by done.
    destruct (decide (key ∈ backend_variables)) as [Hin|Hout].
    + apply elem_of_backend_variables in Hin as [-> | [-> | [-> | ->]]];
        repeat (rewrite lookup_setdefault; case_decide; try (exfalso; congruence)); reflexivity.
    + repeat (rewrite lookup_setdefault;
              case_decide; [subst; exfalso; apply Hout, elem_of_backend_variables; tauto|]).
      reflexivity.
Qed.

(** X3. After a successful [setup_audio_backend] that found [ffmpeg_path]:
    each of the four backend variables keeps the value it had when it was
    set, and is [ffmpeg_path] otherwise; [PATH] is the directory of ffmpeg,
    the separator and the former [PATH]; every other variable is as it
    was. *)
Theorem setup_audio_backend_environ {W : Type} (handle : Handler W)
  (env : gmap string string) (w : W) (ffmpeg_path : string) :
  (handle _ get_ffmpeg_exe env w).1 = inr ffmpeg_path ->
  let r := exec handle setup_audio_backend env w in
  outcome r = Ok tt /\
  environ_after r !! "PATH"
    = Some (PyPath.str (PyPath.parent (PyPath.of_str ffmpeg_path)) ++ pathsep
            ++ default "" (env !! "PATH")) /\
  (forall key, key ∈ backend_variables ->
     environ_after r !! key = Some (default ffmpeg_path (env !! key))) /\
  (forall key, key <> "PATH" -> key ∉ backend_variables ->
     environ_after r !! key = env !! key).
Proof.
  intros Hans r. subst r. rewrite exec_setup_audio_backend.
  destruct (handle _ get_ffmpeg_exe env w) as [[e'|p] w']; simpl in Hans; [discriminate|].
  injection Hans as ->. cbn [outcome environ_after].
  split; [reflexivity|]. split; [|split].
  - rewrite backend_environ_lookup. by rewrite decide_True.
  - intros key Hin. rewrite backend_environ_lookup.
    rewrite decide_False, decide_True; [reflexivity|exact Hin|].
    apply elem_of_backend_variables in Hin. intros ->.
    destruct Hin as [H|[H|[H|H]]]; discriminate.
  - intros key Hpath Hout. rewrite backend_environ_lookup.
    by rewrite decide_False, decide_False.
Qed.

Lemma setup_audio_backend_environ_witness :
  let env := {["FFMPEG_BINARY" := "/usr/local/bin/ffmpeg"; "PATH" := "/usr/bin"]}
             : gmap string string in
  let r := exec scripted setup_audio_backend env calm in
  (scripted _ get_ffmpeg_exe env calm).1 = inr "/opt/ffmpeg/bin/ffmpeg" /\
  environ_after r !! "FFMPEG_BINARY" = Some "/usr/local/bin/ffmpeg" /\
  environ_after r !! "FFPROBE_BINARY" = Some "/opt/ffmpeg/bin/ffmpeg" /\
  environ_after r !! "PATH" = Some "/opt/ffmpeg/bin:/usr/bin".
Proof.
  intros env r.
  assert (H : (scripted _ get_ffmpeg_exe env calm).1 = inr "/opt/ffmpeg/bin/ffmpeg")
    by reflexivity.
  split; [exact H|].
  destruct (setup_audio_backend_environ scripted env calm _ H) as (_ & Hpath & Hvars & _).
  split; [|split].
  - etrans; [apply Hvars, elem_of_backend_variables; tauto|reflexivity].
  - etrans; [apply Hvars, elem_of_backend_variables; tauto|reflexivity].
  - etrans; [apply Hpath|reflexivity].
Defined.

(** A root of exactly two slashes is kept in the directory put on [PATH]. *)
Example setup_audio_backend_two_slashes :
  let w := mkWorld (inr "//opt/bin/ffmpeg") [] [] [] [] [] [] false 1 in
  let env := {["PATH" := "/usr/bin"]} : gmap string string in
  environ_after (exec scripted setup_audio_backend env w) !! "PATH"
  = Some "//opt/bin:/usr/bin" /\
  environ_after (exec scripted setup_audio_backend ∅ w) !! "PATH" = Some "//opt/bin:".
Proof. split; reflexivity. Qed.

(** *** Traces of composed programs *)


Lemma trace_try_finally {W A : Type} (handle : Handler W) (p : Prog A) cleanup env w :
  trace (exec handle (try_finally p cleanup) env w) =
  (trace (exec handle p env w) ++
   trace (exec handle cleanup (environ_after (exec handle p env w))
            (world_after (exec handle p env w))))%list.
Proof. by rewrite exec_try_finally. Qed.

Lemma trace_try_except {W A : Type} (handle : Handler W) (p : Prog A) catches handler env w :
  trace (exec handle (try_except p catches handler) env w) =
  (trace (exec handle p env w) ++
   match outcome (exec handle p env w) with
   | Ok _ => []
   | Err e =>
       if catches e
       then trace (exec handle (handler e) (environ_after (exec handle p env w))
                     (world_after (exec handle p env w)))
       else []
   end)%list.
Proof.
  rewrite exec_try_except. cbn zeta.
  destruct (outcome (exec handle p env w)) as [a|e]; [by rewrite app_nil_r|].
  destruct (catches e); [reflexivity|by rewrite app_nil_r].
Qed.

(** X4. On an empty clip list [merge_audios] asks for the ffmpeg executable
    and, when that is found, raises
    [MashupError "No trimmed audio files to merge."]: no directory is made,
    no manifest is written and no process is run. *)
Theorem merge_audios_empty {W : Type} (handle : Handler W) (output_path : Path)
  (env : gmap string string) (w : W) :
  let answer := (handle _ get_ffmpeg_exe env w).1 in
  let r := exec handle (merge_audios [] output_path) env w in
  trace r = [mkCall get_ffmpeg_exe answer] /\
  environ_after r = env /\
  outcome r = Err (match answer with
                   | inl e => e
                   | inr _ => MashupError "No trimmed audio files to merge."
                   end).
Proof.
  unfold merge_audios. simpl.
  destruct (handle _ get_ffmpeg_exe env w) as [[e|ffmpeg_path] w']; simpl; auto.
Qed.

Lemma kept_length_le {A : Type} (flags : list bool) (l : list A) :
  (length (kept flags l) <= length l)%nat.
Proof.
  revert flags. induction l as [|x l IH]; intros [|[] flags]; simpl; try lia.
  - specialize (IH flags). lia.
  - specialize (IH flags). lia.
Qed.

(** X5. [trim_audios] never returns an empty list and never more clips than
    it was given files; the only exceptions it raises are the one of its
    setup (creating the directory, locating ffmpeg) and
    [MashupError "No audio files were trimmed."]: a failure on one file
    never escapes. *)
Theorem trim_audios_outcomes {W : Type} (handle : Handler W) (audio_paths : list Path)
  (clip_seconds : Z) (target_dir : Path) (env : gmap string string) (w : W) :
  match outcome (exec handle (trim_audios audio_paths clip_seconds target_dir) env w) with
  | Ok clips => clips <> [] /\ (length clips <= length audio_paths)%nat
  | Err e =>
      outcome (exec handle (trim_prelude target_dir) env w) = Err e \/
      e = MashupError "No audio files were trimmed."
  end.
Proof.
  unfold trim_audios. rewrite outcome_bind.
  destruct (outcome (exec handle (trim_prelude target_dir) env w)) as [ffmpeg_path|e];
    [|by left].
  rewrite outcome_bind, exec_trim_loop. cbn [app].
  match goal with |- context [kept ?f audio_paths] => pose proof (kept_length_le f audio_paths) as Hle;
    destruct (kept f audio_paths) as [|x l] end; simpl in *.
  - by right.
  - split; [discriminate|]. rewrite length_map. lia.
Qed.



Example search_candidates_example :
  let w := mkWorld (inr "/opt/ffmpeg/bin/ffmpeg")
             [Some (candidate 1); None; Some ∅; Some (candidate 2)] [] [] [] [] [] false 1 in
  let r := exec scripted (_search_candidates "Sharry Maan" 3) ∅ w in
  outcome r = Ok [candidate 1; candidate 2] /\
  trace r = [mkCall (extract_info search_opts "ytsearch20:Sharry Maan songs")
               (inr {| entries := Some [Some (candidate 1); None; Some ∅;
                                        Some (candidate 2)] |})] /\
  trace (exec scripted (_search_candidates "Sharry Maan" 12) ∅ w)
  = [mkCall (extract_info search_opts "ytsearch24:Sharry Maan songs")
       (inr {| entries := Some [Some (candidate 1); None; Some ∅; Some (candidate 2)] |})].
Proof. repeat split; reflexivity. Qed.

(** *** Counting calls *)

Lemma calls_at_most_exec {W A : Type} (handle : Handler W) (f : Call -> bool) (p : Prog A) :
  forall k env w,
    calls_at_most f k p -> (length (List.filter f (trace (exec handle p env w))) <= k)%nat.
Proof.
  induction p as [a|e|X ev c IH|key v c IH|key d c IH|key v c IH]; intros k env w H;
    simpl in *; try lia; try (by apply IH).
  destruct (handle X ev env w) as [x w']. simpl. specialize (H x).
  destruct (f (mkCall ev x)); simpl.
  - destruct k as [|k']; [contradiction|]. specialize (IH x k' env w' H). lia.
  - by apply IH.
Qed.

Lemma calls_at_most_mono {A : Type} (f : Call -> bool) (p : Prog A) :
  forall k k', (k <= k')%nat -> calls_at_most f k p -> calls_at_most f k' p.
Proof.
  induction p as [a|e|X ev c IH|key v c IH|key d c IH|key v c IH]; intros k k' Hle H;
    simpl in *; eauto.
  intros x. specialize (H x). destruct (f (mkCall ev x)); [|by eapply IH].
  destruct k as [|k0]; [contradiction|]. destruct k' as [|k1]; [lia|].
  eapply IH; [|exact H]. lia.
Qed.

Lemma calls_at_most_bind {A B : Type} (f : Call -> bool) (p : Prog A) (g : A -> Prog B) k2 :
  forall k1,
    calls_at_most f k1 p -> (forall a, calls_at_most f k2 (g a)) ->
    calls_at_most f (k1 + k2) (bind p g).
Proof.
  induction p as [a|e|X ev c IH|key v c IH|key d c IH|key v c IH]; intros k1 Hp Hg;
    simpl in *; eauto.
  - eapply calls_at_most_mono; [|apply Hg]. lia.
  - intros x. specialize (Hp x). destruct (f (mkCall ev x)); [|by apply IH].
    destruct k1 as [|k1']; [contradiction|]. simpl. by apply IH.
Qed.

Lemma calls_at_most_try_except {A : Type} (f : Call -> bool) (p : Prog A) catches handler k2 :
  forall k1,
    calls_at_most f k1 p -> (forall e, calls_at_most f k2 (handler e)) ->
    calls_at_most f (k1 + k2) (try_except p catches handler).
Proof.
  induction p as [a|e|X ev c IH|key v c IH|key d c IH|key v c IH]; intros k1 Hp Hh;
    simpl in *; eauto.
  - destruct (catches e); [|exact I]. eapply calls_at_most_mono; [|apply Hh]. lia.
  - intros x. specialize (Hp x). destruct (f (mkCall ev x)); [|by apply IH].
    destruct k1 as [|k1']; [contradiction|]. simpl. by apply IH.
Qed.

(** A call that [f] does not select, whatever it answers. *)
Lemma calls_at_most_other {X A : Type} (f : Call -> bool) (ev : Event X) (c : X -> Prog A) k :
  (forall x, f (mkCall ev x) = false) -> (forall x, calls_at_most f k (c x)) ->
  calls_at_most f k (Ext ev c).
Proof. intros Hf Hc x. simpl. by rewrite Hf. Qed.

Lemma wait_for_stable_loop_no_download path delay attempts :
  forall last_size,
    calls_at_most is_ydl_download 0 (wait_for_stable_loop path attempts delay last_size).
Proof.
  induction attempts as [|attempts IH]; intros last_size; simpl; [exact I|].
  intros [|]; simpl.
  - intros [k|size]; simpl; [exact I|].
    destruct ((size =? last_size) && (size >? 0)); simpl; [exact I|]. intros _. apply IH.
  - intros _. apply IH.
Qed.

Lemma calls_at_most_ask {X : Type} (f : Call -> bool) (ev : Event X) k :
  (forall x, f (mkCall ev x) = false) -> calls_at_most f k (ask ev).
Proof. intros Hf. apply calls_at_most_other; [exact Hf|]. intros x. exact I. Qed.

Lemma calls_at_most_call {X : Type} (f : Call -> bool) (ev : Event (Exn + X)) k :
  (forall x, f (mkCall ev x) = false) -> calls_at_most f k (call ev).
Proof. intros Hf. apply calls_at_most_other; [exact Hf|]. intros [e|x]; exact I. Qed.

Lemma accept_when_stable_no_download target downloaded :
  calls_at_most is_ydl_download 0 (accept_when_stable target downloaded).
Proof.
  unfold accept_when_stable, _wait_for_stable.
  apply (calls_at_most_try_except _ _ _ _ 0 0).
  - apply (calls_at_most_bind _ _ _ 0 0); [apply wait_for_stable_loop_no_download|].
    intros _. exact I.
  - intros e. apply (calls_at_most_bind _ _ _ 0 0); [by apply calls_at_most_ask|].
    intros _. exact I.
Qed.

(** One iteration downloads at most once. *)
Lemma download_entry_once workdir ffmpeg_path entry downloaded :
  calls_at_most is_ydl_download 1 (download_entry workdir ffmpeg_path entry downloaded).
Proof.
  unfold download_entry.
  destruct (truthy_str (entry !! "webpage_url")) as [url|]; [|exact I].
  destruct (truthy_str (entry !! "id")) as [video_id|]; [|exact I].
  apply (calls_at_most_bind _ _ _ 0 1).
  { apply (calls_at_most_try_except _ _ _ _ 0 1).
    - cbn. intros [e|[]]; exact I.
    - intros e. apply (calls_at_most_bind _ _ _ 0 0); [by apply calls_at_most_ask|].
      intros _. exact I. }
  intros [|]; [|exact I].
  apply (calls_at_most_bind _ _ _ 0 0); [by apply calls_at_most_call|]. intros matched.
  apply (calls_at_most_bind _ _ _ 0 0).
  { destruct matched; [by apply calls_at_most_call|exact I]. }
  intros [|target rest]; [exact I|]. apply accept_when_stable_no_download.
Qed.

Lemma download_loop_attempts n_videos workdir ffmpeg_path candidates :
  forall downloaded,
    calls_at_most is_ydl_download (length candidates)
      (download_loop n_videos workdir ffmpeg_path candidates downloaded).
Proof.
  induction candidates as [|entry rest IH]; intros downloaded; simpl; [exact I|].
  destruct (Z.of_nat (length downloaded) >=? n_videos); [exact I|].
  apply (calls_at_most_bind _ _ _ (length rest) 1); [apply download_entry_once|].
  intros res. apply IH.
Qed.

(** The list after the loop extends the list before it. *)
Lemma returns_download_loop_prefix n_videos workdir ffmpeg_path candidates :
  forall downloaded,
    returns (fun res => downloaded `prefix_of` res /\
                        (length res <= length downloaded + length candidates)%nat)
      (download_loop n_videos workdir ffmpeg_path candidates downloaded).
Proof.
  induction candidates as [|entry rest IH]; intros downloaded; simpl.
  - split; [done|lia].
  - destruct (Z.of_nat (length downloaded) >=? n_videos); simpl; [split; [done|lia]|].
    apply returns_bind.
    eapply returns_weaken; [|apply returns_download_entry].
    intros res Hres. eapply returns_weaken; [|apply IH].
    intros res' [Hpre Hlen]. simpl in *.
    destruct Hres as [->|[target ->]]; [split; [done|lia]|].
    rewrite length_app in Hlen. simpl in Hlen.
    split; [|lia]. etrans; [|exact Hpre]. by apply prefix_app_r.
Qed.

(** X7. The download loop, in every world: when it returns, the list it
    returns extends the list it started from (no accepted file is dropped or
    moved) by at most one file per candidate; the only exception that leaves
    it is the one a [glob] raised, as the last call of the loop; it
    downloads each candidate at most once; and once the target is reached it
    makes no external call at all. *)
Theorem download_loop_invariants {W : Type} (handle : Handler W) (n_videos : Z)
  (workdir : Path) (ffmpeg_path : string) (candidates : list (gmap string string))
  (downloaded : list Path) (env : gmap string string) (w : W) :
  let r := exec handle (download_loop n_videos workdir ffmpeg_path candidates downloaded) env w in
  match outcome r with
  | Ok res => downloaded `prefix_of` res /\
              (length res <= length downloaded + length candidates)%nat
  | Err e => exists c, last (trace r) = Some c /\ glob_raised c = Some e
  end /\
  (download_attempts (trace r) <= length candidates)%nat /\
  (n_videos <= Z.of_nat (length downloaded) -> trace r = [] /\ outcome r = Ok downloaded).
Proof.
  intros r. split; [|split].
  - destruct (outcome r) as [res|e] eqn:E.
    + exact (returns_exec handle _ _ env w res
               (returns_download_loop_prefix n_videos workdir ffmpeg_path candidates downloaded) E).
    + by apply download_loop_outcome.
  - apply calls_at_most_exec, download_loop_attempts.
  - intros Hn. subst r. destruct candidates as [|entry rest]; simpl; [done|].
    destruct (Z.geb_spec (Z.of_nat (length downloaded)) n_videos); [done|lia].
Qed.

(** A [glob] that raises ends the loop: the candidates after it are not
    tried. *)
Example download_loop_glob_raises :
  let failing : Handler World :=
    fun X ev env w =>
      match ev in Event X return X * World -> X * World with
      | glob _ _ => fun _ => (inl (ValueError "Invalid pattern"), w)
      | _ => fun answer => answer
      end (scripted X ev env w) in
  let r := exec failing
             (download_loop 2 (PyPath.of_str "/tmp/dl") "ffmpeg" [candidate 1; candidate 2] [])
             ∅ calm in
  outcome r = Err (ValueError "Invalid pattern") /\
  download_attempts (trace r) = 1%nat /\
  last (trace r)
  = Some (mkCall (glob (PyPath.of_str "/tmp/dl") "v1.mp3") (inl (ValueError "Invalid pattern"))).
Proof. vm_compute. repeat split. Qed.

(** X8. A candidate without a usable ["webpage_url"] or ["id"] (the key is
    missing or its value is empty) is skipped without any external call,
    and the list of downloads is left as it is. *)
Theorem download_entry_skips_incomplete (workdir : Path) (ffmpeg_path : string)
  (entry : gmap string string) (downloaded : list Path) :
  entry !! "webpage_url" = None \/ entry !! "webpage_url" = Some "" \/
  entry !! "id" = None \/ entry !! "id" = Some "" ->
  download_entry workdir ffmpeg_path entry downloaded = Ret downloaded.
Proof.
  unfold download_entry. intros [H|[H|[H|H]]]; rewrite H; simpl;
    try reflexivity; by destruct (truthy_str (entry !! "webpage_url")).
Qed.

Lemma download_entry_skips_incomplete_witness :
  let entry := {["webpage_url" := "https://example.org/watch/1"]} : gmap string string in
  (entry !! "webpage_url" = None \/ entry !! "webpage_url" = Some "" \/
   entry !! "id" = None \/ entry !! "id" = Some "") /\
  download_entry (PyPath.of_str "/tmp/dl") "ffmpeg" entry [] = Ret [].
Proof.
  intros entry.
  assert (H : entry !! "webpage_url" = None \/ entry !! "webpage_url" = Some "" \/
              entry !! "id" = None \/ entry !! "id" = Some "")
    by (right; right; left; reflexivity).
  split; [exact H|].
  exact (download_entry_skips_incomplete (PyPath.of_str "/tmp/dl") "ffmpeg" entry [] H).
Defined.

Lemma truthy_str_some (o : option string) (s : string) :
  o = Some s -> s <> "" -> truthy_str o = Some s.
Proof. intros -> Hs. simpl. by destruct (String.eqb_spec s ""). Qed.

(** X9. When the download of a candidate raises, the exception is logged and
    the candidate is skipped: the only external calls of the iteration are
    the download and the warning (the directory is not searched and no file
    is waited for), and the list of downloads is left as it is. *)
Theorem download_entry_download_raises {W : Type} (handle : Handler W) (workdir : Path)
  (ffmpeg_path : string) (entry : gmap string string) (downloaded : list Path)
  (env : gmap string string) (w : W) (url video_id : string) (e : Exn) :
  entry !! "webpage_url" = Some url -> url <> "" ->
  entry !! "id" = Some video_id -> video_id <> "" ->
  let opts := download_opts (PyPath.str (workdir // (video_id ++ ".%(ext)s"))) ffmpeg_path in
  (handle _ (ydl_download opts url) env w).1 = inl e ->
  let r := exec handle (download_entry workdir ffmpeg_path entry downloaded) env w in
  outcome r = Ok downloaded /\
  exists u, trace r = [mkCall (ydl_download opts url) (inl e);
                       mkCall (log_warning "Failed to download %s: %s" url e) u].
Proof.
  intros Hurl Hurl' Hid Hid' opts Hans r. subst r. unfold download_entry.
  rewrite (truthy_str_some _ _ Hurl Hurl'), (truthy_str_some _ _ Hid Hid'). cbv zeta.
  fold opts. rewrite exec_bind. cbv zeta.
  assert (Hstage : exists u w'',
    exec handle
      (try_except (call (ydl_download opts url);; Ret true) any_exception
         (fun exc => ask (log_warning "Failed to download %s: %s" url exc);; Ret false))
      env w
    = mkRun (Ok false) env w''
        [mkCall (ydl_download opts url) (inl e);
         mkCall (log_warning "Failed to download %s: %s" url e) u]).
  { cbn. destruct (handle _ (ydl_download opts url) env w) as [[e'|[]] w'];
      cbn in Hans; [|discriminate].
    injection Hans as ->. cbn.
    destruct (handle _ (log_warning _ url e) env w') as [u w'']. cbn. eauto. }
  destruct Hstage as (u & w'' & ->). cbn. eauto.
Qed.

Lemma download_entry_download_raises_witness :
  let workdir := PyPath.of_str "/tmp/dl" in
  let url := "https://example.org/watch/1" in
  outcome (exec scripted (download_entry workdir "ffmpeg" (candidate 1) []) ∅ broken_first_world)
  = Ok [].
Proof.
  intros workdir url.
  assert (H1 : candidate 1 !! "webpage_url" = Some url) by reflexivity.
  assert (H2 : url <> "") by discriminate.
  assert (H3 : candidate 1 !! "id" = Some "v1") by reflexivity.
  assert (H4 : "v1" <> "") by discriminate.
  exact (proj1 (download_entry_download_raises scripted workdir "ffmpeg" (candidate 1) []
                  ∅ broken_first_world url "v1" (DownloadError url) H1 H2 H3 H4 eq_refl)).
Defined.

(** *** Lock wait *)

Lemma wait_for_unlock_loop_step path delay attempts a rest env :
  outcome (exec replay_open (wait_for_unlock_loop path (S attempts) delay) env (a :: rest)) =
  match a with
  | inr _ => Ok tt
  | inl EPermission =>
      outcome (exec replay_open (wait_for_unlock_loop path attempts delay) env rest)
  | inl k => Err (OSError k)
  end.
Proof. destruct a as [[]|[]]; reflexivity. Qed.

Lemma wait_for_unlock_loop_locked path delay attempts env :
  outcome (exec replay_open (wait_for_unlock_loop path attempts delay) env [])
  = Err (OSError EPermission).
Proof. induction attempts as [|n IH]; [reflexivity|]. simpl. exact IH. Qed.

Lemma decided_by_nil attempts a : ~ decided_by attempts [] a.
Proof. intros (i & rest & _ & H). by destruct i. Qed.

Lemma decided_by_zero answers a : ~ decided_by 0 answers a.
Proof. intros (i & rest & H & _). lia. Qed.

Lemma decided_by_cons attempts b answers a :
  decided_by (S attempts) (b :: answers) a <->
  b = a \/ (b = inl EPermission /\ decided_by attempts answers a).
Proof.
  split.
  - intros (i & rest & Hi & Heq). destruct i as [|i]; simpl in Heq.
    + left. congruence.
    + right. injection Heq as -> ->. split; [done|]. exists i, rest. split; [lia|done].
  - intros [->|[-> (i & rest & Hi & ->)]].
    + exists O, answers. split; [lia|done].
    + exists (S i), rest. split; [lia|done].
Qed.

(** X10. The lock wait against a replayed sequence of answers to [open]:
    it returns exactly when an attempt within the budget succeeds after
    nothing but [PermissionError]s; another [OSError] (say a missing file)
    is raised at once, without further attempts; in every other case the
    wait ends with [PermissionError]. *)
Theorem wait_for_unlock_outcomes (path : Path) (attempts : nat) (delay : Z)
  (answers : list (OSErr + unit)) (env : gmap string string) :
  let r := exec replay_open (_wait_for_unlock path attempts delay) env answers in
  (outcome r = Ok tt <-> decided_by attempts answers (inr tt)) /\
  (forall k, k <> EPermission ->
     (outcome r = Err (OSError k) <-> decided_by attempts answers (inl k))) /\
  (forall e, outcome r = Err e -> exists k, e = OSError k).
Proof.
  unfold _wait_for_unlock. revert answers.
  induction attempts as [|n IH]; intros answers; cbn zeta.
  - simpl. split; [|split].
    + split; [discriminate|]. intros H. by apply decided_by_zero in H.
    + intros k Hk. split; [intros H; congruence|]. intros H. by apply decided_by_zero in H.
    + intros e H. injection H as <-. eauto.
  - destruct answers as [|a rest].
    + rewrite wait_for_unlock_loop_locked. split; [|split].
      * split; [discriminate|]. intros H. by apply decided_by_nil in H.
      * intros k Hk. split; [intros H; congruence|]. intros H. by apply decided_by_nil in H.
      * intros e H. injection H as <-. eauto.
    + rewrite wait_for_unlock_loop_step. destruct (IH rest) as (IH1 & IH2 & IH3).
      cbn zeta in IH1, IH2, IH3.
      split; [|split].
      * rewrite decided_by_cons. destruct a as [[]|[]].
        -- rewrite IH1. split; [auto|]. intros [H|[_ H]]; [discriminate|exact H].
        -- split; [discriminate|]. intros [H|[H _]]; discriminate.
        -- split; [discriminate|]. intros [H|[H _]]; discriminate.
        -- split; [auto|done].
      * intros k Hk. rewrite decided_by_cons. destruct a as [[]|[]].
        -- rewrite (IH2 k Hk). split; [auto|]. intros [H|[_ H]]; [congruence|exact H].
        -- split; [intros H; left; congruence|]. intros [H|[H _]]; congruence.
        -- split; [intros H; left; congruence|]. intros [H|[H _]]; congruence.
        -- split; [discriminate|]. intros [H|[H _]]; discriminate.
      * intros e. destruct a as [[]|[]]; [apply IH3| | |discriminate];
          intros H; injection H as <-; eauto.
Qed.

Example wait_for_unlock_examples :
  let p := PyPath.of_str "/tmp/dl/a.mp3" in
  let run answers := outcome (exec replay_open
                                (_wait_for_unlock p unlock_attempts unlock_delay) ∅ answers) in
  run [inr tt] = Ok tt /\
  run [inl EPermission; inl EPermission; inr tt] = Ok tt /\
  run [inl EPermission; inl ENotFound; inr tt] = Err (OSError ENotFound) /\
  run (replicate 59 (inl EPermission) ++ [inr tt])%list = Ok tt /\
  run (replicate 60 (inl EPermission) ++ [inr tt])%list = Err (OSError EPermission).
Proof. vm_compute. repeat split. Qed.

(** *** Manifest *)


(** A run of [make_manifest], by the answer to the creation of the file. *)
Lemma exec_make_manifest {W : Type} (handle : Handler W) dir trimmed_list env w :
  let created := handle _ (named_temporary_file dir ".txt") env w in
  exec handle (make_manifest dir trimmed_list) env w =
  match created.1 with
  | inl k => mkRun (Err (OSError k)) env created.2
               [mkCall (named_temporary_file dir ".txt") (inl k)]
  | inr list_file =>
      let body := exec handle (write_manifest list_file trimmed_list ;; Ret list_file)
                    env created.2 in
      let closing := handle _ (file_close list_file) (environ_after body) (world_after body) in
      mkRun (match closing.1 with
             | inl k => Err (OSError k)
             | inr _ => outcome body
             end)
        (environ_after body) closing.2
        (mkCall (named_temporary_file dir ".txt") (inr list_file)
         :: trace body ++ [mkCall (file_close list_file) closing.1])
  end.
Proof.
  unfold make_manifest. cbn.
  destruct (handle _ (named_temporary_file dir ".txt") env w) as [[k|list_file] w1]; cbn;
    [reflexivity|].
  rewrite exec_try_finally. cbn.
  destruct (handle _ (file_close list_file) _ _) as [[k|[]] w2]; reflexivity.
Qed.



(** X12. Once the temporary manifest file was created, [make_manifest]
    closes it as the last thing it does, also when resolving a clip or
    writing a line raised; it returns the path of the file when nothing
    raised and raises otherwise. *)
Theorem manifest_always_closed {W : Type} (handle : Handler W) (dir : Path)
  (trimmed_list : list Path) (env : gmap string string) (w : W) (list_file : Path) :
  (handle _ (named_temporary_file dir ".txt") env w).1 = inr list_file ->
  let r := exec handle (make_manifest dir trimmed_list) env w in
  (exists middle u,
     trace r = (mkCall (named_temporary_file dir ".txt") (inr list_file)
                :: middle ++ [mkCall (file_close list_file) u])%list) /\
  (forall p, outcome r = Ok p -> p = list_file).
Proof.
  intros Hcreated r. subst r. rewrite exec_make_manifest. cbn zeta.
  rewrite Hcreated. cbn [trace outcome]. split; [eauto|].
  intros p. destruct (handle _ (file_close list_file) _ _) as [[k|[]] w2]; cbn [fst];
    [discriminate|].
  rewrite outcome_bind.
  destruct (outcome (exec handle (write_manifest list_file trimmed_list) env _)) as [[]|e];
    [|discriminate].
  cbn. congruence.
Qed.

Lemma manifest_always_closed_witness :
  let dir := PyPath.of_str "/music" in
  let clips := PyPath.of_str <$> ["/tmp/t/b_trimmed.mp3"] in
  (scripted _ (named_temporary_file dir ".txt") ∅ calm).1
  = inr (PyPath.of_str "/music/tmpmanifest.txt") /\
  List.last (trace (exec scripted (make_manifest dir clips) ∅ calm)) (mkCall (sleep 0) tt)
  = mkCall (file_close (PyPath.of_str "/music/tmpmanifest.txt")) (inr tt).
Proof.
  intros dir clips.
  assert (H : (scripted _ (named_temporary_file dir ".txt") ∅ calm).1
              = inr (PyPath.of_str "/music/tmpmanifest.txt")) by reflexivity.
  split; [exact H|].
  destruct (manifest_always_closed scripted dir clips ∅ calm _ H) as [_ _].
  reflexivity.
Defined.

(** *** The environment *)

Lemma keeps_environ_exec {W A : Type} (handle : Handler W) (p : Prog A) :
  forall env w, keeps_environ p -> environ_after (exec handle p env w) = env.
Proof.
  induction p as [a|e|X ev k IH|key v k IH|key d k IH|key v k IH]; intros env w H;
    cbn in *; try contradiction; auto.
  destruct (handle X ev env w) as [x w']. cbn. by apply IH.
Qed.

Lemma keeps_environ_bind {A B : Type} (p : Prog A) (f : A -> Prog B) :
  keeps_environ p -> (forall a, keeps_environ (f a)) -> keeps_environ (bind p f).
Proof. intros Hp Hf. induction p; cbn in *; auto. Qed.

Lemma keeps_environ_try_except {A : Type} (p : Prog A) catches handler :
  keeps_environ p -> (forall e, keeps_environ (handler e)) ->
  keeps_environ (try_except p catches handler).
Proof.
  intros Hp Hh. induction p; cbn in *; auto. destruct (catches e); [apply Hh|exact I].
Qed.

Lemma keeps_environ_try_finally {A : Type} (p : Prog A) cleanup :
  keeps_environ p -> keeps_environ cleanup -> keeps_environ (try_finally p cleanup).
Proof.
  intros Hp Hc. induction p; cbn in *; auto;
    apply keeps_environ_bind; auto; intros; exact I.
Qed.

Lemma keeps_environ_ask {X : Type} (ev : Event X) : keeps_environ (ask ev).
Proof. intros x. exact I. Qed.

Lemma keeps_environ_call {X : Type} (ev : Event (Exn + X)) : keeps_environ (call ev).
Proof. intros [e|x]; exact I. Qed.

Lemma keeps_environ_call_os {X : Type} (ev : Event (OSErr + X)) : keeps_environ (call_os ev).
Proof. intros [e|x]; exact I. Qed.

Lemma keeps_environ_wait_for_stable path delay attempts :
  forall last_size, keeps_environ (wait_for_stable_loop path attempts delay last_size).
Proof.
  induction attempts as [|n IH]; intros last_size; [exact I|].
  cbn [wait_for_stable_loop].
  apply keeps_environ_bind; [apply keeps_environ_ask|]. intros [|]; cbn [negb].
  - apply keeps_environ_bind; [apply keeps_environ_call_os|]. intros size.
    destruct ((size =? last_size) && (size >? 0)); [exact I|].
    apply keeps_environ_bind; [apply keeps_environ_ask|]. intros _. apply IH.
  - apply keeps_environ_bind; [apply keeps_environ_ask|]. intros _. apply IH.
Qed.

Lemma keeps_environ_download_entry workdir ffmpeg_path entry downloaded :
  keeps_environ (download_entry workdir ffmpeg_path entry downloaded).
Proof.
  unfold download_entry.
  destruct (truthy_str (entry !! "webpage_url")) as [url|]; [|exact I].
  destruct (truthy_str (entry !! "id")) as [video_id|]; [|exact I].
  apply keeps_environ_bind.
  { apply keeps_environ_try_except.
    - apply keeps_environ_bind; [apply keeps_environ_call|]. intros _. exact I.
    - intros e. apply keeps_environ_bind; [apply keeps_environ_ask|]. intros _. exact I. }
  intros [|]; [|exact I].
  apply keeps_environ_bind; [apply keeps_environ_call|]. intros matched.
  apply keeps_environ_bind; [destruct matched; [apply keeps_environ_call|exact I]|].
  intros [|target rest]; [exact I|].
  unfold accept_when_stable, _wait_for_stable. apply keeps_environ_try_except.
  - apply keeps_environ_bind; [apply keeps_environ_wait_for_stable|]. intros _. exact I.
  - intros e. apply keeps_environ_bind; [apply keeps_environ_ask|]. intros _. exact I.
Qed.

Lemma keeps_environ_download n_videos singer workdir :
  keeps_environ (download_audio_from_search singer n_videos workdir).
Proof.
  unfold download_audio_from_search, download_prelude, _search_candidates.
  apply keeps_environ_bind.
  { apply keeps_environ_bind; [apply keeps_environ_call_os|]. intros _.
    apply keeps_environ_bind; [apply keeps_environ_call|]. intros sr. exact I. }
  intros [|c cs]; [exact I|].
  unfold download_candidates.
  apply keeps_environ_bind; [apply keeps_environ_call|]. intros ffmpeg_path.
  apply keeps_environ_bind.
  - generalize (c :: cs) as candidates. generalize (@nil Path) as downloaded.
    intros downloaded candidates. revert downloaded.
    induction candidates as [|entry rest IH]; intros downloaded; [exact I|].
    cbn [download_loop]. destruct (Z.of_nat (length downloaded) >=? n_videos); [exact I|].
    apply keeps_environ_bind; [apply keeps_environ_download_entry|]. intros d. apply IH.
  - intros d. destruct (Z.of_nat (length d) <? n_videos); exact I.
Qed.

Lemma keeps_environ_wait_for_unlock path delay attempts :
  keeps_environ (wait_for_unlock_loop path attempts delay).
Proof.
  induction attempts as [|n IH]; [exact I|]. cbn [wait_for_unlock_loop].
  apply keeps_environ_bind.
  - apply keeps_environ_try_except.
    + apply keeps_environ_bind; [apply keeps_environ_call_os|]. intros _. exact I.
    + intros e. apply keeps_environ_bind; [apply keeps_environ_ask|]. intros _. exact I.
  - intros [|]; [exact I|apply IH].
Qed.

Lemma keeps_environ_trim audio_paths clip_seconds target_dir :
  keeps_environ (trim_audios audio_paths clip_seconds target_dir).
Proof.
  unfold trim_audios, trim_prelude.
  apply keeps_environ_bind.
  { apply keeps_environ_bind; [apply keeps_environ_call_os|]. intros _.
    apply keeps_environ_call. }
  intros ffmpeg_path. apply keeps_environ_bind; [|intros [|? ?]; exact I].
  generalize (@nil Path) as trimmed_files.
  induction audio_paths as [|path rest IH]; intros trimmed_files; [exact I|].
  cbn [trim_loop]. apply keeps_environ_bind; [|intros t; apply IH].
  unfold trim_step, trim_one, _wait_for_unlock. apply keeps_environ_try_except.
  - apply keeps_environ_bind.
    + apply keeps_environ_bind; [apply keeps_environ_wait_for_unlock|]. intros _.
      apply keeps_environ_bind; [apply keeps_environ_call|]. intros _. exact I.
    + intros t. exact I.
  - intros e. apply keeps_environ_bind; [apply keeps_environ_ask|]. intros _. exact I.
Qed.

Lemma keeps_environ_merge trimmed_paths output_path :
  keeps_environ (merge_audios trimmed_paths output_path).
Proof.
  unfold merge_audios.
  apply keeps_environ_bind; [apply keeps_environ_call|]. intros ffmpeg_path.
  destruct trimmed_paths as [|p ps]; [exact I|].
  apply keeps_environ_bind; [apply keeps_environ_call_os|]. intros _.
  apply keeps_environ_bind.
  { unfold make_manifest. apply keeps_environ_bind; [apply keeps_environ_call_os|].
    intros list_file. apply keeps_environ_try_finally; [|apply keeps_environ_call_os].
    apply keeps_environ_bind; [|intros; exact I].
    generalize (p :: ps) as l. induction l as [|path rest IH]; [exact I|].
    cbn [write_manifest].
    apply keeps_environ_bind; [apply keeps_environ_call_os|]. intros resolved.
    apply keeps_environ_bind; [apply keeps_environ_call_os|]. intros _. exact IH. }
  intros list_path. apply keeps_environ_bind; [|intros; exact I].
  unfold concat_and_cleanup. apply keeps_environ_try_finally; [apply keeps_environ_call|].
  apply keeps_environ_try_except; [apply keeps_environ_call_os|]. intros e. exact I.
Qed.

(** X13. Only [setup_audio_backend] writes [os.environ]: in every world,
    [download_audio_from_search], [trim_audios] and [merge_audios] leave the
    environment exactly as they found it, whether they return or raise. *)
Theorem stages_keep_environ {W : Type} (handle : Handler W) (env : gmap string string) (w : W) :
  (forall singer n_videos workdir,
     environ_after (exec handle (download_audio_from_search singer n_videos workdir) env w)
     = env) /\
  (forall audio_paths clip_seconds target_dir,
     environ_after (exec handle (trim_audios audio_paths clip_seconds target_dir) env w) = env) /\
  (forall trimmed_paths output_path,
     environ_after (exec handle (merge_audios trimmed_paths output_path) env w) = env).
Proof.
  split; [|split]; intros.
  - apply keeps_environ_exec, keeps_environ_download.
  - apply keeps_environ_exec, keeps_environ_trim.
  - apply keeps_environ_exec, keeps_environ_merge.
Qed.

